(** * Annotator: a documentation-label builder and decorator

    The class [Annotator] accumulates a label and stamps it, as the
    side field [__doc__], on functions, objects, methods and properties.
    Its behaviour is decided by the object model of the host language:
    property lookup along the prototype chain, strict-mode assignment,
    [Object.getOwnPropertyDescriptor], [Object.defineProperty] and
    function calls.  The first part of this file is that object model;
    the second part is the class, method by method, on instances that a
    program reaches through the class only; the third part is the class
    once more, on instances that a program also handles as the ordinary
    objects they are; the last part is the properties proved about it.

    Standing assumptions of the model:
    - the built-in [Function.prototype.apply] is in place, so that
      [target.apply(this, args)] is the call of [target];
    - the wrapper prototypes of the primitive values are as the host
      makes them;
    - the options object holds plain data and is not changed after the
      instance is constructed;
    - property keys are strings (symbol keys are left out);
    - the own bookkeeping properties of function objects ([name],
      [length], [prototype]) are left out for the functions the class
      creates: the class never reads them. *)

From Stdlib Require Import ZArith Ascii String List Lia DecimalString.
From stdpp Require Import base option gmap strings list fin_maps.


(** ** Values *)

Abbreviation loc := nat.

(** Numbers: only their truthiness and their type tag matter to the class, so
    integers and NaN stand for all of them.  A symbol is known by a
    number and has the description it was made with, a bigint is known
    by its value. *)
Inductive number :=
| NaN
| Int (z : Z).

Inductive value :=
| VUndefined
| VNull
| VBoolean (b : bool)
| VNumber (x : number)
| VString (s : string)
| VSymbol (id : nat) (description : option string)
| VBigInt (z : Z)
| VObject (l : loc).

#[global] Instance number_eq_dec : EqDecision number.
Proof. solve_decision. Defined.

#[global] Instance value_eq_dec : EqDecision value.
Proof. solve_decision. Defined.

(** The line feed of the template literals. *)
Definition nl : string := String "010"%char EmptyString.

(** ToBoolean. *)
Definition truthy (v : value) : bool :=
  match v with
  | VUndefined | VNull => false
  | VBoolean b => b
  | VNumber NaN => false
  | VNumber (Int z) => negb (Z.eqb z 0)
  | VString s => negb (String.eqb s EmptyString)
  | VSymbol _ _ => true
  | VBigInt z => negb (Z.eqb z 0)
  | VObject _ => true
  end.

(** ** Properties, objects, heap *)

Inductive property :=
| Data (v : value) (writable enumerable configurable : bool)
| Accessor (getter setter : value) (enumerable configurable : bool).

(** A property descriptor as passed to and returned from the reflection
    functions: every field may be absent. *)
Record descriptor := {
  d_value : option value;
  d_writable : option bool;
  d_get : option value;
  d_set : option value;
  d_enumerable : option bool;
  d_configurable : option bool
}.

(** The bodies a function object can have.  [Native] and
    [ClassConstructor] are code of the caller; the next four are the
    closures [decorate] creates, with the variables they capture;
    [Method] is a method of the class [Annotator], by its name. *)
Inductive code :=
| Native (id : nat)
| ClassConstructor (id : nat)
| DecoratedFunction (target : loc)
| DecoratedMethod (self : loc) (originalMethod : loc)
| AccessorGet (propertyKey : string)
| AccessorSet (self : loc) (propertyKey : string)
| Method (name : string).

Record object := {
  proto : option loc;
  extensible : bool;
  code_of : option code;
  props : gmap string property
}.

#[global] Instance property_eq_dec : EqDecision property.
Proof. solve_decision. Defined.

#[global] Instance code_eq_dec : EqDecision code.
Proof. solve_decision. Defined.

Definition set_props (f : gmap string property → gmap string property)
    (ob : object) : object :=
  {| proto := proto ob; extensible := extensible ob;
     code_of := code_of ob; props := f (props ob) |}.

(** ** The Annotator instance (source lines 3-8, 14-19) *)

Record AnnotatorOptions := {
  message : option string;
  description : option string;
  tags : option (list (string * string));
  preserveTypes : value
}.

(** The options object [{}]. *)
Definition no_options : AnnotatorOptions :=
  {| message := None; description := None; tags := None;
     preserveTypes := VUndefined |}.

Record Annotator := {
  label : string;
  options : AnnotatorOptions
}.

(** ** Program state

    The heap of objects and the store of [Annotator] instances.  The
    store holds the instances that a program reaches through the
    methods of the class only, each with its two fields: no code of the
    caller changes them.  An instance that a program also handles as an
    object, which it is, lives in the heap with its fields as
    properties: the third part is about those. *)
Record state := {
  heap : gmap loc object;
  annotators : gmap loc Annotator
}.

Definition set_heap (f : gmap loc object → gmap loc object) (σ : state) : state :=
  {| heap := f (heap σ); annotators := annotators σ |}.

Definition set_annotators (f : gmap loc Annotator → gmap loc Annotator)
    (σ : state) : state :=
  {| heap := heap σ; annotators := f (annotators σ) |}.

(** ** Outcomes

    A computation ends normally, throws, or gives no result: [None] is
    "no result within the fuel given", which is also what a dangling
    reference gives. *)
Inductive exn :=
| TypeError (msg : string)
| Thrown (v : value).

Inductive completion (A : Type) :=
| Normal (a : A)
| Throw (e : exn).
Arguments Normal {A} a.
Arguments Throw {A} e.

Definition M (A : Type) : Type := state → option (completion A * state).

Definition ret {A} (a : A) : M A := λ σ, Some (Normal a, σ).
Definition throw {A} (e : exn) : M A := λ σ, Some (Throw e, σ).
Definition stuck {A} : M A := λ _, None.

Definition bind {A B} (m : M A) (f : A → M B) : M B := λ σ,
  match m σ with
  | Some (Normal a, σ') => f a σ'
  | Some (Throw e, σ') => Some (Throw e, σ')
  | None => None
  end.

Notation "x <-- m ;; f" := (bind m (λ x, f))
  (at level 100, m at next level, right associativity).
Notation "m ;;; f" := (bind m (λ _, f))
  (at level 100, right associativity).

Definition get_state : M state := λ σ, Some (Normal σ, σ).
Definition lift_option {A} (o : option A) : M A :=
  match o with Some a => ret a | None => stuck end.

(** ** Property lookup *)

(** The first property named [k] on the prototype chain of [o]:
    [Some None] when the chain ends without one. *)
Fixpoint find_property (fuel : nat) (h : gmap loc object) (o : loc) (k : string)
    : option (option property) :=
  match fuel with
  | 0 => None
  | S fuel' =>
      match h !! o with
      | None => None
      | Some ob =>
          match props ob !! k with
          | Some p => Some (Some p)
          | None =>
              match proto ob with
              | None => Some None
              | Some p => find_property fuel' h p k
              end
          end
      end
  end.

(** A chain has no cycle, so it is no longer than the heap is large. *)
Definition lookup_chain (h : gmap loc object) (o : loc) (k : string)
    : option (option property) :=
  find_property (size h) h o k.

Definition callable (h : gmap loc object) (l : loc) : bool :=
  match h !! l with
  | Some ob => bool_decide (is_Some (code_of ob))
  | None => false
  end.

(** The [typeof] operator. *)
Definition typeof (h : gmap loc object) (v : value) : string :=
  match v with
  | VUndefined => "undefined"
  | VNull => "object"
  | VBoolean _ => "boolean"
  | VNumber _ => "number"
  | VString _ => "string"
  | VSymbol _ _ => "symbol"
  | VBigInt _ => "bigint"
  | VObject l => if callable h l then "function" else "object"
  end.

(** ** Reflection: descriptors (Object.getOwnPropertyDescriptor,
       Object.defineProperty) *)

Definition present {A} (o : option A) : bool :=
  match o with Some _ => true | None => false end.

Definition is_accessor_descriptor (d : descriptor) : bool :=
  present (d_get d) || present (d_set d).

Definition is_data_descriptor (d : descriptor) : bool :=
  present (d_value d) || present (d_writable d).

Definition enumerable_of (p : property) : bool :=
  match p with Data _ _ e _ => e | Accessor _ _ e _ => e end.

Definition configurable_of (p : property) : bool :=
  match p with Data _ _ _ c => c | Accessor _ _ _ c => c end.

(** The descriptor of an existing property: all fields of its kind. *)
Definition from_property (p : property) : descriptor :=
  match p with
  | Data v w e c =>
      {| d_value := Some v; d_writable := Some w; d_get := None; d_set := None;
         d_enumerable := Some e; d_configurable := Some c |}
  | Accessor g s e c =>
      {| d_value := None; d_writable := None; d_get := Some g; d_set := Some s;
         d_enumerable := Some e; d_configurable := Some c |}
  end.

(** [Object.getOwnPropertyDescriptor(target, key)]: own properties only;
    [Some None] is the result [undefined]. *)
Definition get_own_property_descriptor (h : gmap loc object) (l : loc) (k : string)
    : option (option descriptor) :=
  match h !! l with
  | Some ob => Some (from_property <$> props ob !! k)
  | None => None
  end.

(** The fields of [d] that are present overwrite those of [p]. *)
Definition apply_fields (d : descriptor) (p : property) : property :=
  match p with
  | Data v w e c =>
      Data (default v (d_value d)) (default w (d_writable d))
           (default e (d_enumerable d)) (default c (d_configurable d))
  | Accessor g s e c =>
      Accessor (default g (d_get d)) (default s (d_set d))
               (default e (d_enumerable d)) (default c (d_configurable d))
  end.

Definition differs {A} `{EqDecision A} (o : option A) (x : A) : bool :=
  match o with Some y => negb (bool_decide (y = x)) | None => false end.

(** ValidateAndApplyPropertyDescriptor: the property that results from
    defining [d] over [current], [None] when the definition is rejected. *)
Definition validate_and_apply (ext : bool) (d : descriptor)
    (current : option property) : option property :=
  match current with
  | None =>
      if ext then
        Some (apply_fields d
                (if is_accessor_descriptor d
                 then Accessor VUndefined VUndefined false false
                 else Data VUndefined false false false))
      else None
  | Some cur =>
      if negb (configurable_of cur)
         && (bool_decide (d_configurable d = Some true)
             || differs (d_enumerable d) (enumerable_of cur))
      then None
      else if negb (is_accessor_descriptor d) && negb (is_data_descriptor d)
      then Some (apply_fields d cur)
      else
        match cur with
        | Data v w e c =>
            if is_accessor_descriptor d then
              if c then Some (apply_fields d (Accessor VUndefined VUndefined e c))
              else None
            else if negb c && negb w
                    && (bool_decide (d_writable d = Some true) || differs (d_value d) v)
            then None
            else Some (apply_fields d cur)
        | Accessor g s e c =>
            if is_data_descriptor d then
              if c then Some (apply_fields d (Data VUndefined false e c))
              else None
            else if negb c && (differs (d_get d) g || differs (d_set d) s)
            then None
            else Some (apply_fields d cur)
        end
  end.

(** A getter or setter field must be [undefined] or a function. *)
Definition accessor_field_ok (h : gmap loc object) (o : option value) : bool :=
  match o with
  | None | Some VUndefined => true
  | Some (VObject l) => callable h l
  | Some _ => false
  end.

(** [Object.defineProperty(target, key, d)]: throws a TypeError when the
    descriptor is ill-formed or the definition is rejected. *)
Definition define_property (l : loc) (k : string) (d : descriptor) : M unit := λ σ,
  match heap σ !! l with
  | None => None
  | Some ob =>
      if (is_accessor_descriptor d && is_data_descriptor d)
         || negb (accessor_field_ok (heap σ) (d_get d))
         || negb (accessor_field_ok (heap σ) (d_set d))
      then Some (Throw (TypeError "Invalid property descriptor"), σ)
      else
        match validate_and_apply (extensible ob) d (props ob !! k) with
        | Some p =>
            Some (Normal tt, set_heap (<[l := set_props (<[k := p]>) ob]>) σ)
        | None => Some (Throw (TypeError "Cannot define property"), σ)
        end
  end.

(** ** Reading, writing and calling

    All code of the class is class-body code, hence strict: a rejected
    assignment throws a TypeError. *)

(** The write that ends an assignment when no setter and no read-only
    property stands in the way: update the own data property of the
    receiver, or create it. *)
Definition write_own (l : loc) (k : string) (x : value) : M unit := λ σ,
  match heap σ !! l with
  | None => None
  | Some ob =>
      match props ob !! k with
      | Some (Data _ true e c) =>
          Some (Normal tt, set_heap (<[l := set_props (<[k := Data x true e c]>) ob]>) σ)
      | Some _ => Some (Throw (TypeError "Cannot assign to read only property"), σ)
      | None =>
          if extensible ob then
            Some (Normal tt,
                  set_heap (<[l := set_props (<[k := Data x true true true]>) ob]>) σ)
          else Some (Throw (TypeError "Cannot add property, object is not extensible"), σ)
      end
  end.

Section Semantics.

(** The code of the caller: function [id] applied to a receiver and
    arguments transforms the heap and returns or throws; [None] when it
    does not come back. *)
Variable native :
  nat → value → list value → gmap loc object
  → option (completion value * gmap loc object).

Definition run_native (id : nat) (this : value) (args : list value) : M value :=
  λ σ, match native id this args (heap σ) with
       | Some (c, h) => Some (c, set_heap (λ _, h) σ)
       | None => None
       end.

Section Bodies.

(** The function call one level down. *)
Variable callf : loc → value → list value → M value.

(** [v[k]] *)
Definition js_get (v : value) (k : string) : M value := λ σ,
  match v with
  | VObject l =>
      match lookup_chain (heap σ) l k with
      | None => None
      | Some None => Some (Normal VUndefined, σ)
      | Some (Some (Data x _ _ _)) => Some (Normal x, σ)
      | Some (Some (Accessor (VObject g) _ _ _)) => callf g v [] σ
      | Some (Some (Accessor _ _ _ _)) => Some (Normal VUndefined, σ)
      end
  | VUndefined | VNull =>
      Some (Throw (TypeError "Cannot read properties of undefined or null"), σ)
  | VSymbol _ description =>
      (* [Symbol.prototype.description] *)
      if String.eqb k "description"
      then Some (Normal (from_option VString VUndefined description), σ)
      else Some (Normal VUndefined, σ)
  | _ =>
      (* a primitive reads through its wrapper prototype, which holds
         no other key read here while the built-ins are intact *)
      Some (Normal VUndefined, σ)
  end.

(** [v[k] = x] *)
Definition js_set (v : value) (k : string) (x : value) : M unit := λ σ,
  match v with
  | VObject l =>
      match lookup_chain (heap σ) l k with
      | None => None
      | Some (Some (Accessor _ (VObject s) _ _)) =>
          (callf s v [x] ;;; ret tt) σ
      | Some (Some (Accessor _ _ _ _)) =>
          Some (Throw (TypeError "Cannot set property which has only a getter"), σ)
      | Some (Some (Data _ false _ _)) =>
          Some (Throw (TypeError "Cannot assign to read only property"), σ)
      | Some (Some (Data _ true _ _)) | Some None => write_own l k x σ
      end
  | _ => Some (Throw (TypeError "Cannot create property on a primitive"), σ)
  end.

(** [self.label]: the label of an instance kept in the store; of an
    instance that lives in the heap, the property [label]. *)
Definition label_of (self : loc) : M value := λ σ,
  match annotators σ !! self with
  | Some a => Some (Normal (VString (label a)), σ)
  | None => js_get (VObject self) "label" σ
  end.

(** The bodies of the function objects.  [target.apply(this, args)]
    is the call of [target]: function objects that shadow [apply]
    are outside the model. *)
Definition run_code (c : code) (this : value) (args : list value) : M value :=
  match c with
  | Native id => run_native id this args
  | ClassConstructor _ =>
      throw (TypeError "Class constructor cannot be invoked without 'new'")
  | DecoratedFunction target =>
      (* lines 62-64 *)
      callf target this args
  | DecoratedMethod self originalMethod =>
      (* lines 81-84 *)
      doc <-- label_of self ;;
      js_set this "__doc__" doc ;;;
      callf originalMethod this args
  | AccessorGet propertyKey =>
      (* lines 89-91 *)
      js_get this ("_" +:+ propertyKey)
  | AccessorSet self propertyKey =>
      (* lines 92-95 *)
      js_set this ("_" +:+ propertyKey) (hd VUndefined args) ;;;
      doc <-- label_of self ;;
      js_set this "__doc__" doc ;;;
      ret VUndefined
  | Method _ =>
      (* the bodies of the methods are run where the class calls them;
         a method called by other code has no result here *)
      stuck
  end.

End Bodies.

(** [f.call(this, ...args)] with a bound on the depth of nested calls. *)
Fixpoint call (n : nat) (f : loc) (this : value) (args : list value) : M value :=
  match n with
  | 0 => stuck
  | S n' => λ σ,
      match heap σ !! f with
      | None => None
      | Some ob =>
          match code_of ob with
          | Some c => run_code (call n') c this args σ
          | None => Some (Throw (TypeError "not a function"), σ)
          end
      end
  end.

Definition read (n : nat) := js_get (call n).
Definition assign (n : nat) := js_set (call n).

(** [obj[k](...args)] *)
Definition invoke (n : nat) (obj : loc) (k : string) (args : list value) : M value :=
  f <-- read n (VObject obj) k ;;
  match f with
  | VObject l => call n l (VObject obj) args
  | _ => throw (TypeError "not a function")
  end.

(** ** The intrinsic objects

    [Object.prototype], [Function.prototype] and the constructor
    [Object] sit at fixed addresses; every function object the class
    creates inherits from [Function.prototype]. *)
Definition object_prototype : loc := 0.
Definition function_prototype : loc := 1.
Definition object_constructor : loc := 2.

Definition function_object (c : code) : object :=
  {| proto := Some function_prototype; extensible := true;
     code_of := Some c; props := ∅ |}.

Definition alloc (ob : object) : M loc := λ σ,
  let l := fresh (dom (heap σ)) in
  Some (Normal l, set_heap (<[l := ob]>) σ).

(** ** class Annotator *)

(** constructor, lines 17-19: an absent options argument defaults to
    the empty options object. *)
Definition new_Annotator (lbl : string) (opts : option AnnotatorOptions) : M loc :=
  λ σ,
    let self := fresh (dom (annotators σ)) in
    Some (Normal self,
          set_annotators
            (<[self := {| label := lbl; options := default no_options opts |}]>) σ).

(** lines 21-35 *)
Definition forClass (className : string) (opts : option AnnotatorOptions) : M loc :=
  new_Annotator ("Class: " +:+ className) opts.

Definition forMethod (methodName : string) (opts : option AnnotatorOptions) : M loc :=
  new_Annotator ("Method: " +:+ methodName) opts.

Definition forFunction (opts : option AnnotatorOptions) : M loc :=
  new_Annotator "Function" opts.

Definition forProperty (propertyName : string) (opts : option AnnotatorOptions)
    : M loc :=
  new_Annotator ("Property: " +:+ propertyName) opts.

Definition this_annotator (self : loc) : M Annotator := λ σ,
  match annotators σ !! self with
  | Some a => Some (Normal a, σ)
  | None => None
  end.

(** [this.label = s] *)
Definition store_label (self : loc) (s : string) : M unit := λ σ,
  match annotators σ !! self with
  | Some a =>
      Some (Normal tt,
            set_annotators (<[self := {| label := s; options := options a |}]>) σ)
  | None => None
  end.

(** lines 37-40 *)
Definition withDescription (self : loc) (description : string) : M loc :=
  a <-- this_annotator self ;;
  store_label self (label a +:+ nl +:+ nl +:+ description) ;;;
  ret self.

(** lines 42-45 *)
Definition withTag (self : loc) (tagName tagValue : string) : M loc :=
  a <-- this_annotator self ;;
  store_label self (label a +:+ nl +:+ nl +:+ "@" +:+ tagName +:+ " " +:+ tagValue) ;;;
  ret self.

(** The table [types] of lines 105-109. *)
Definition types : gmap string string :=
  {["number" := "Number"; "string" := "String"; "boolean" := "Boolean"]}.

(** [entry || fallback] for a table entry that may be missing. *)
Definition or_else (entry : option string) (fallback : string) : string :=
  match entry with
  | Some s => if truthy (VString s) then s else fallback
  | None => fallback
  end.

(** [v[k]] for a property that is data or absent: the reads of
    [getType] go through the options, which are plain data; a read
    that would run an accessor of the caller gives no result here. *)
Definition read_data (h : gmap loc object) (v : value) (k : string) : option value :=
  match v with
  | VObject l =>
      match lookup_chain h l k with
      | Some None => Some VUndefined
      | Some (Some (Data x _ _ _)) => Some x
      | _ => None
      end
  | _ => None
  end.

(** lines 104-123, on the value [this.options.preserveTypes].  The
    result is what [constructor.name] holds, which the declared return
    type takes to be a string.  A symbol and a bigint find their
    [constructor] on the wrapper prototype, where it is the built-in
    function of that name. *)
Definition type_name (h : gmap loc object) (preserveTypes : value) : option value :=
  let type := or_else (types !! typeof h preserveTypes) "unknown" in
  if String.eqb type "unknown" && truthy preserveTypes then
    match preserveTypes with
    | VSymbol _ _ => Some (VString "Symbol")
    | VBigInt _ => Some (VString "BigInt")
    | _ =>
        match read_data h preserveTypes "constructor" with
        | Some c =>
            if truthy c && String.eqb (typeof h c) "function"
            then read_data h c "name"
            else Some (VString type)
        | None => None
        end
    end
  else Some (VString type).

Definition getType (h : gmap loc object) (a : Annotator) : option value :=
  type_name h (preserveTypes (options a)).

(** The conversion a template literal applies to a substituted value.
    Converting an object runs code of the caller, and converting a symbol
    throws: neither has a result here. *)
Definition to_string (v : value) : option string :=
  match v with
  | VUndefined => Some "undefined"
  | VNull => Some "null"
  | VBoolean true => Some "true"
  | VBoolean false => Some "false"
  | VNumber NaN => Some "NaN"
  | VNumber (Int z) => Some (NilZero.string_of_int (Z.to_int z))
  | VString s => Some s
  | VBigInt z => Some (NilZero.string_of_int (Z.to_int z))
  | VSymbol _ _ | VObject _ => None
  end.

(** lines 47-50 *)
Definition withPreserveTypes (self : loc) : M loc :=
  a <-- this_annotator self ;;
  σ <-- get_state ;;
  t <-- lift_option (getType (heap σ) a ≫= to_string) ;;
  store_label self (label a +:+ nl +:+ nl +:+ "@type " +:+ t) ;;;
  ret self.

(** lines 125-133 *)
Definition formatTags (a : Annotator) : string :=
  match tags (options a) with
  | None => EmptyString
  | Some entries =>
      String.concat nl
        (map (λ '(name, value), "@" +:+ name +:+ " " +:+ value) entries)
  end.

(** [if (s)] for an optional string *)
Definition set_string (o : option string) : option string :=
  match o with
  | Some s => if truthy (VString s) then Some s else None
  | None => None
  end.

(** lines 135-155 *)
Definition toString (self : loc) : M string :=
  a <-- this_annotator self ;;
  σ <-- get_state ;;
  let label0 := label a in
  let label1 :=
    match set_string (message (options a)) with
    | Some message => label0 +:+ " (" +:+ message +:+ ")"
    | None => label0
    end in
  let label2 :=
    match set_string (description (options a)) with
    | Some description => label1 +:+ nl +:+ nl +:+ description
    | None => label1
    end in
  let label3 := label2 +:+ nl +:+ nl +:+ formatTags a in
  if truthy (preserveTypes (options a)) then
    t <-- lift_option (getType (heap σ) a ≫= to_string) ;;
    ret (label3 +:+ nl +:+ nl +:+ "@type " +:+ t)
  else ret label3.

(** What [decorate] hands back: a value (the wrapper, the target or
    [undefined]) or a property descriptor. *)
Inductive returned :=
| RValue (v : value)
| RDescriptor (d : descriptor).

(** lines 88-98: the accessor pair defined on the target. *)
Definition define_accessors (self target : loc) (propertyKey : string) : M returned :=
  getter <-- alloc (function_object (AccessorGet propertyKey)) ;;
  setter <-- alloc (function_object (AccessorSet self propertyKey)) ;;
  define_property target propertyKey
    {| d_value := None; d_writable := None;
       d_get := Some (VObject getter); d_set := Some (VObject setter);
       d_enumerable := Some true; d_configurable := Some true |} ;;;
  ret (RValue VUndefined).

(** lines 55-102 *)
Definition decorate (n : nat) (self target : loc) (propertyKey : option string)
    : M returned :=
  σ <-- get_state ;;
  if callable (heap σ) target && bool_decide (propertyKey = None) then
    decoratedFunction <-- alloc (function_object (DecoratedFunction target)) ;;
    doc <-- label_of (call n) self ;;
    assign n (VObject decoratedFunction) "__doc__" doc ;;;
    ret (RValue (VObject decoratedFunction))
  else
    match propertyKey with
    | None =>
        doc <-- label_of (call n) self ;;
        assign n (VObject target) "__doc__" doc ;;;
        ret (RValue (VObject target))
    | Some key =>
        descriptor <-- lift_option (get_own_property_descriptor (heap σ) target key) ;;
        match descriptor with
        | Some d =>
            match d_value d with
            | Some (VObject originalMethod) =>
                if callable (heap σ) originalMethod then
                  wrapper <-- alloc (function_object
                                       (DecoratedMethod self originalMethod)) ;;
                  ret (RDescriptor
                         {| d_value := Some (VObject wrapper);
                            d_writable := d_writable d;
                            d_get := d_get d; d_set := d_set d;
                            d_enumerable := d_enumerable d;
                            d_configurable := d_configurable d |})
                else define_accessors self target key
            | _ => define_accessors self target key
            end
        | None => define_accessors self target key
        end
    end.

End Semantics.

Arguments js_get : simpl never.
Arguments js_set : simpl never.
Arguments read : simpl never.
Arguments assign : simpl never.
Arguments write_own : simpl never.
Arguments define_property : simpl never.
Arguments lookup_chain : simpl never.

(** ** Vocabulary of the statements *)

(** The assignment [l[k] = x] is an ordinary write: no setter and no
    read-only property on the chain, and the receiver takes the value. *)
Definition accepts_write (h : gmap loc object) (l : loc) (k : string) : bool :=
  match lookup_chain h l k, h !! l with
  | Some (Some (Data _ true _ _)), Some ob
  | Some None, Some ob =>
      match props ob !! k with
      | Some (Data _ true _ _) => true
      | Some _ => false
      | None => extensible ob
      end
  | _, _ => false
  end.

(** The heap after such a write. *)
Definition written (l : loc) (k : string) (x : value) (h : gmap loc object)
    : gmap loc object :=
  match h !! l with
  | Some ob =>
      <[l := set_props
               (<[k := match props ob !! k with
                       | Some (Data _ _ e c) => Data x true e c
                       | _ => Data x true true true
                       end]>) ob]> h
  | None => h
  end.

(** [Object.defineProperty] can install an accessor pair at [k]. *)
Definition accepts_accessors (h : gmap loc object) (l : loc) (k : string) : bool :=
  match h !! l with
  | Some ob =>
      match props ob !! k with
      | Some p => configurable_of p
      | None => extensible ob
      end
  | None => false
  end.

(** [Function.prototype] and its ancestors hold no property [k]. *)
Definition pristine (h : gmap loc object) (k : string) : Prop :=
  lookup_chain h function_prototype k = Some None.

(** The function object [decorate] returns for a callable target. *)
Definition decorated_function (target : loc) (doc : string) : object :=
  set_props (<["__doc__" := Data (VString doc) true true true]>)
            (function_object (DecoratedFunction target)).

(** The target holds a function as own data property [key]. *)
Definition holds_method (h : gmap loc object) (l : loc) (key : string) : bool :=
  match h !! l with
  | Some ob =>
      match props ob !! key with
      | Some (Data (VObject m) _ _ _) => callable h m
      | _ => false
      end
  | None => false
  end.


(** A computation that leaves the store of annotators as it found it. *)
Definition keeps_annotators {A} (m : M A) : Prop :=
  ∀ σ r σ', m σ = Some (r, σ') → annotators σ' = annotators σ.

(** ** Clients

    What a program can do with the class and with the objects it
    decorates, one operation at a time; an exception is caught by the
    client, which goes on in the state the operation left. *)
Inductive api_call :=
| ForClass (className : string) (opts : option AnnotatorOptions)
| ForMethod (methodName : string) (opts : option AnnotatorOptions)
| ForFunction (opts : option AnnotatorOptions)
| ForProperty (propertyName : string) (opts : option AnnotatorOptions)
| WithDescription (self : loc) (description : string)
| WithTag (self : loc) (tagName tagValue : string)
| WithPreserveTypes (self : loc)
| ToString (self : loc)
| Decorate (self target : loc) (propertyKey : option string)
| DefineProperty (target : loc) (key : string) (d : descriptor)
| CallFunction (f : loc) (this : value) (args : list value)
| Assign (v : value) (k : string) (x : value)
| Read (v : value) (k : string).

Definition is_mutator (c : api_call) (self : loc) : Prop :=
  match c with
  | WithDescription s _ | WithTag s _ _ | WithPreserveTypes s => s = self
  | _ => False
  end.

Section Clients.

Variable native :
  nat → value → list value → gmap loc object
  → option (completion value * gmap loc object).

Definition run_api (n : nat) (c : api_call) : M unit :=
  match c with
  | ForClass className opts => forClass className opts ;;; ret tt
  | ForMethod methodName opts => forMethod methodName opts ;;; ret tt
  | ForFunction opts => forFunction opts ;;; ret tt
  | ForProperty propertyName opts => forProperty propertyName opts ;;; ret tt
  | WithDescription self description => withDescription self description ;;; ret tt
  | WithTag self tagName tagValue => withTag self tagName tagValue ;;; ret tt
  | WithPreserveTypes self => withPreserveTypes self ;;; ret tt
  | ToString self => toString self ;;; ret tt
  | Decorate self target propertyKey =>
      decorate native n self target propertyKey ;;; ret tt
  | DefineProperty target key d => define_property target key d
  | CallFunction f this args => call native n f this args ;;; ret tt
  | Assign v k x => assign native n v k x
  | Read v k => read native n v k ;;; ret tt
  end.

Fixpoint run_trace (n : nat) (cs : list api_call) (σ : state) : option state :=
  match cs with
  | [] => Some σ
  | c :: cs' =>
      match run_api n c σ with
      | Some (_, σ') => run_trace n cs' σ'
      | None => None
      end
  end.

End Clients.

(** The instance [a] with [suffix] appended to its label. *)
Definition appended (a : Annotator) (suffix : string) : Annotator :=
  {| label := label a +:+ suffix; options := options a |}.

(** The accessor pair of [decorate] sits on [obj] at [key]: [g] runs the
    getter of lines 89-91 and [s] the setter of lines 92-95. *)
Definition accessors_installed (h : gmap loc object) (self obj : loc) (key : string)
    (g s : loc) : Prop :=
  ∃ ob gob sob,
    h !! obj = Some ob
    ∧ props ob !! key = Some (Accessor (VObject g) (VObject s) true true)
    ∧ h !! g = Some gob ∧ code_of gob = Some (AccessorGet key)
    ∧ h !! s = Some sob ∧ code_of sob = Some (AccessorSet self key).

(** ** The rendering, in the words of the specification

    Label; then the message in parentheses if a message is set; then the
    description after a blank line if set; then after a blank line the
    block of all tags, one [@name value] per line; then after a blank
    line the [@type] line if [preserveTypes] is set.  An option is set
    when it is present and not falsy. *)
Definition blank_line : string := nl +:+ nl.

Definition tag_line (t : string * string) : string := "@" +:+ t.1 +:+ " " +:+ t.2.

Definition when_set (o : option string) (f : string → string) : list string :=
  match o with
  | Some s => if decide (s = EmptyString) then [] else [f s]
  | None => []
  end.

Definition rendering (a : Annotator) (resolved : string) : string :=
  String.concat EmptyString
    ([label a]
     ++ when_set (message (options a)) (λ m, " (" +:+ m +:+ ")")
     ++ when_set (description (options a)) (λ d, blank_line +:+ d)
     ++ [blank_line
         +:+ String.concat nl (tag_line <$> default [] (tags (options a)))]
     ++ (if truthy (preserveTypes (options a))
         then [blank_line +:+ "@type " +:+ resolved] else [])).

(** ** Sample objects and programs *)

(** A heap with the intrinsic objects only: [Object.prototype],
    [Function.prototype], [Object] and, at address 10, [Function]. *)
Definition realm : gmap loc object :=
  <[object_prototype :=
      {| proto := None; extensible := true; code_of := None;
         props := {["constructor" := Data (VObject object_constructor) true false true]} |}]>
  (<[function_prototype :=
      {| proto := Some object_prototype; extensible := true; code_of := Some (Native 0);
         props := {["constructor" := Data (VObject 10) true false true;
                    "name" := Data (VString EmptyString) false false true]} |}]>
  (<[object_constructor :=
      {| proto := Some function_prototype; extensible := true; code_of := Some (Native 1);
         props := {["name" := Data (VString "Object") false false true]} |}]>
  (<[10 :=
      {| proto := Some function_prototype; extensible := true; code_of := Some (Native 2);
         props := {["name" := Data (VString "Function") false false true]} |}]> ∅))).

(** Code of a caller: function 3 adds its two arguments, function 4
    returns its receiver, every other one returns [undefined]. *)
Definition sample_native (id : nat) (this : value) (args : list value)
    (h : gmap loc object) : option (completion value * gmap loc object) :=
  match id, args with
  | 3, [VNumber (Int x); VNumber (Int y)] => Some (Normal (VNumber (Int (x + y))), h)
  | 4, _ => Some (Normal this, h)
  | _, _ => Some (Normal VUndefined, h)
  end.

(** [{}], and [Object.preventExtensions({})]. *)
Definition plain_object : object :=
  {| proto := Some object_prototype; extensible := true; code_of := None; props := ∅ |}.

Definition non_extensible_object : object :=
  {| proto := Some object_prototype; extensible := false; code_of := None; props := ∅ |}.

(** [function add(x, y) { return x + y }] at address 3, [class MyClass {}]
    at 4, [{ prop() { return this } }] at 5 with its method at 6, the
    same object made non-extensible at 7, [{}] at 8 and a
    non-extensible [{}] at 9.  The instance at address 0 is
    [Annotator.forMethod("prop")]. *)
Definition sample_heap : gmap loc object :=
  <[3 := function_object (Native 3)]>
  (<[4 := function_object (ClassConstructor 0)]>
  (<[5 := set_props (<["prop" := Data (VObject 6) true true true]>) plain_object]>
  (<[6 := function_object (Native 4)]>
  (<[7 := set_props (<["prop" := Data (VObject 6) true true true]>) non_extensible_object]>
  (<[8 := plain_object]>
  (<[9 := non_extensible_object]> realm)))))).

Definition sample_annotator : Annotator :=
  {| label := "Method: prop"; options := no_options |}.

Definition sample_state : state :=
  {| heap := sample_heap; annotators := {[0 := sample_annotator]} |}.

(** The outcome of a program, without the final state. *)
Definition outcome {A} (r : option (completion A * state)) : option (completion A) :=
  fst <$> r.

(** The options of the example usage at the end of the source file, on
    the instance [Annotator.forClass("MyClass", ...)]. *)
Definition example_options : AnnotatorOptions :=
  {| message := Some "This is my class.";
     description := Some "This is a test class.";
     tags := Some [("author", "John Doe"); ("version", "1.0.0")];
     preserveTypes := VBoolean true |}.

Definition example_state : state :=
  {| heap := sample_heap;
     annotators := {[0 := {| label := "Class: MyClass"; options := example_options |}]} |}.

(** An instance whose [preserveTypes] option is the object [{}] at
    address 8. *)
Definition object_typed : Annotator :=
  {| label := "Property: p";
     options := {| message := None; description := None; tags := None;
                   preserveTypes := VObject 8 |} |}.

(** Three client programs on the sample state.  The first decorates the
    method of the non-extensible object at 7, redefines the descriptor
    and calls the method; the second decorates the key ["_doc__"] of
    the object at 8, assigns ["x"] and reads the property back; the
    third and fourth decorate the non-extensible [{}] at 9, with a key
    and without. *)
Definition call_on_non_extensible : M value :=
  r <-- decorate sample_native 0 0 7 (Some "prop") ;;
  match r with
  | RDescriptor d => define_property 7 "prop" d ;;; invoke sample_native 2 7 "prop" []
  | RValue _ => stuck
  end.

Definition assign_then_read_doc_key : M value :=
  decorate sample_native 0 0 8 (Some "_doc__") ;;;
  assign sample_native 1 (VObject 8) "_doc__" (VString "x") ;;;
  read sample_native 1 (VObject 8) "_doc__".

Definition decorate_key_of_non_extensible : M returned :=
  decorate sample_native 0 0 9 (Some "p").

Definition decorate_non_extensible : M returned :=
  decorate sample_native 0 0 9 None.

(** ** Further vocabulary *)

(** Two states with the same heap and the same label at every
    instance: they may differ in the options of the instances. *)
Definition same_labels (σ σ' : state) : Prop :=
  heap σ = heap σ'
  ∧ ∀ s, label <$> annotators σ !! s = label <$> annotators σ' !! s.

(** Two outcomes that agree up to the options of the instances. *)
Definition same_result {A} (r r' : option (completion A * state)) : Prop :=
  match r, r' with
  | None, None => True
  | Some (c, σ), Some (c', σ') => c = c' ∧ same_labels σ σ'
  | _, _ => False
  end.

(** The assignment [l[k] = x] is rejected: a read-only property or an
    accessor without setter stands on the chain, or the receiver cannot
    take the value. *)
Definition rejects_write (h : gmap loc object) (l : loc) (k : string) : bool :=
  match lookup_chain h l k, h !! l with
  | Some (Some (Data _ false _ _)), Some _ => true
  | Some (Some (Accessor _ (VObject _) _ _)), Some _ => false
  | Some (Some (Accessor _ _ _ _)), Some _ => true
  | Some (Some (Data _ true _ _)), Some ob
  | Some None, Some ob =>
      match props ob !! k with
      | Some (Data _ true _ _) => false
      | Some _ => true
      | None => negb (extensible ob)
      end
  | _, _ => false
  end.

(** The parts of the rendering between the label and the type line. *)
Definition middle (a : Annotator) : string :=
  String.concat EmptyString
    (when_set (message (options a)) (λ m, " (" +:+ m +:+ ")")
     ++ when_set (description (options a)) (λ d, blank_line +:+ d)
     ++ [blank_line
         +:+ String.concat nl (tag_line <$> default [] (tags (options a)))]).

(** The instance [a] with another description option. *)
Definition with_description_option (a : Annotator) (d : option string) : Annotator :=
  {| label := label a;
     options := {| message := message (options a); description := d;
                   tags := tags (options a);
                   preserveTypes := preserveTypes (options a) |} |}.

(** The four factories with the seed each gives the label. *)
Definition factories (name : string) (opts : option AnnotatorOptions)
    : list (M loc * string) :=
  [(forClass name opts, "Class: " +:+ name);
   (forMethod name opts, "Method: " +:+ name);
   (forFunction opts, "Function");
   (forProperty name opts, "Property: " +:+ name)].

(** What a chained mutator appends, [resolved] being the type name. *)
Definition suffix_of (resolved : string) (c : api_call) : string :=
  match c with
  | WithDescription _ description => nl +:+ nl +:+ description
  | WithTag _ tagName tagValue => nl +:+ nl +:+ "@" +:+ tagName +:+ " " +:+ tagValue
  | WithPreserveTypes _ => nl +:+ nl +:+ "@type " +:+ resolved
  | _ => EmptyString
  end.

(** A computation that cannot tell such states apart. *)
Definition respects_labels {A} (m : M A) : Prop :=
  ∀ σ σ', same_labels σ σ' → same_result (m σ) (m σ').

(** ** Further sample objects

    On top of the sample heap: at 11 a prototype [{ prop() { return this } }]
    (its method is the function at 6) with two objects that inherit
    from it at 12 and 13; at 14 an object that inherits from the [{}]
    at 8; at 15 [{ title: "old" }]; at 16 the wrapper [decorate] makes
    for the method at 6 and the instance at 0; at 17 an object with an
    accessor pair of [decorate] at the key [__doc__] (getter 18, setter
    19); at 20 a non-extensible object with a pair at [title] (getter
    21, setter 22) and a shadow field [_title]. *)
Definition inheriting (p : loc) : object :=
  {| proto := Some p; extensible := true; code_of := None; props := ∅ |}.

Definition extended_heap : gmap loc object :=
  <[11 := set_props (<["prop" := Data (VObject 6) true false true]>) plain_object]>
  (<[12 := inheriting 11]>
  (<[13 := inheriting 11]>
  (<[14 := inheriting 8]>
  (<[15 := set_props (<["title" := Data (VString "old") true true true]>) plain_object]>
  (<[16 := function_object (DecoratedMethod 0 6)]>
  (<[17 := set_props (<["__doc__" := Accessor (VObject 18) (VObject 19) true true]>)
             plain_object]>
  (<[18 := function_object (AccessorGet "__doc__")]>
  (<[19 := function_object (AccessorSet 0 "__doc__")]>
  (<[20 := set_props
             (<["title" := Accessor (VObject 21) (VObject 22) true true]>
              ∘ <["_title" := Data VUndefined true true true]>)
             non_extensible_object]>
  (<[21 := function_object (AccessorGet "title")]>
  (<[22 := function_object (AccessorSet 0 "title")]> sample_heap))))))))))).

(** Two instances: [Annotator.forMethod("prop")] at 0 and the instance
    of the example usage at 1. *)
Definition extended_state : state :=
  {| heap := extended_heap;
     annotators :=
       {[0 := sample_annotator;
         1 := {| label := "Class: MyClass"; options := example_options |}]} |}.

(** The sample state with other options on its instance. *)
Definition reoptioned_state : state :=
  {| heap := sample_heap;
     annotators := {[0 := {| label := "Method: prop"; options := example_options |}]} |}.

(** An instance with an empty message, an empty description and an
    empty tags object. *)
Definition empty_options_state : state :=
  {| heap := sample_heap;
     annotators :=
       {[0 := {| label := "Method: prop";
                 options := {| message := Some EmptyString;
                               description := Some EmptyString;
                               tags := Some [];
                               preserveTypes := VUndefined |} |}]} |}.

(** * The class on instances that live in the heap

    An instance is an ordinary object.  The constructor writes its two
    fields as the own properties [options] and [label], and the methods
    read and write them as properties of [this].  The [private] of the
    source binds the type checker only: a program can freeze an
    instance, assign to its label, construct it with [null] options, or
    hand it to [decorate] as a target.  The store [annotators] holds the
    instances a program keeps to itself; module [Obj] is the class on
    the others, method by method as before.

    A program calls the documented methods as the class defines them.
    The calls the class makes itself, [this.getType()] and
    [this.formatTags()], find their method as any call does, by reading
    the property of [this]: on an instance that shadows it they run what
    they find.  Each method reads an option once where the source reads
    it again at every use, which differs only for an accessor of the
    caller that answers differently each time. *)

Module Obj.

Section Class.

Variable native :
  nat → value → list value → gmap loc object
  → option (completion value * gmap loc object).

(** The order in which the host lists the own keys of an object. *)
Variable own_keys : gmap string property → list string.

(** The address of [Annotator.prototype]. *)
Variable prototype : loc.

(** The conversion that [+] and a template literal apply to a value: a
    symbol throws. *)
Definition convert (v : value) : M string :=
  match v with
  | VSymbol _ _ => throw (TypeError "Cannot convert a Symbol value to a string")
  | _ => lift_option (to_string v)
  end.

(** [new Annotator(label, options)], lines 17-19.  The new object
    inherits from [Annotator.prototype]; an [undefined] argument makes
    the default [{}]; the parameter property [options] is assigned, then
    line 18 assigns the label. *)
Definition construct (n : nat) (lbl : string) (options : value) : M loc :=
  this <-- alloc {| proto := Some prototype; extensible := true;
                    code_of := None; props := ∅ |} ;;
  options <-- match options with
              | VUndefined => o <-- alloc plain_object ;; ret (VObject o)
              | _ => ret options
              end ;;
  assign native n (VObject this) "options" options ;;;
  assign native n (VObject this) "label" (VString lbl) ;;;
  ret this.

(** lines 21-35 *)
Definition forClass (n : nat) (className : string) (options : value) : M loc :=
  construct n ("Class: " +:+ className) options.

Definition forMethod (n : nat) (methodName : string) (options : value) : M loc :=
  construct n ("Method: " +:+ methodName) options.

Definition forFunction (n : nat) (options : value) : M loc :=
  construct n "Function" options.

Definition forProperty (n : nat) (propertyName : string) (options : value) : M loc :=
  construct n ("Property: " +:+ propertyName) options.

(** [this.label += suffix]: the label is read, then the suffix is
    computed, then the two are joined and assigned. *)
Definition add_to_label (n : nat) (this : loc) (suffix : M string) : M unit :=
  label <-- read native n (VObject this) "label" ;;
  suffix <-- suffix ;;
  label <-- convert label ;;
  assign native n (VObject this) "label" (VString (label +:+ suffix)).

(** lines 37-40 *)
Definition withDescription (n : nat) (this : loc) (description : string) : M loc :=
  add_to_label n this (ret (nl +:+ nl +:+ description)) ;;;
  ret this.

(** lines 42-45 *)
Definition withTag (n : nat) (this : loc) (tagName tagValue : string) : M loc :=
  add_to_label n this (ret (nl +:+ nl +:+ "@" +:+ tagName +:+ " " +:+ tagValue)) ;;;
  ret this.

(** [this.name()], where [body] is what the method of that name does
    on [this]: the property is read and what it holds is called.  A
    function object of the class with another name is a method this
    model does not run from here. *)
Definition call_method (n : nat) (this : loc) (name : string) (body : M value)
    : M value :=
  f <-- read native n (VObject this) name ;;
  σ <-- get_state ;;
  match f with
  | VObject l =>
      match heap σ !! l with
      | None => stuck
      | Some ob =>
          match code_of ob with
          | Some (Method m) => if String.eqb m name then body else stuck
          | Some _ => call native n l (VObject this) []
          | None => throw (TypeError "not a function")
          end
      end
  | _ => throw (TypeError "not a function")
  end.

(** [this.options.preserveTypes] *)
Definition preserveTypes_of (n : nat) (this : loc) : M value :=
  options <-- read native n (VObject this) "options" ;;
  read native n options "preserveTypes".

(** lines 104-123 *)
Definition getType (n : nat) (this : loc) : M value :=
  preserveTypes <-- preserveTypes_of n this ;;
  σ <-- get_state ;;
  lift_option (type_name (heap σ) preserveTypes).

(** lines 47-50 *)
Definition withPreserveTypes (n : nat) (this : loc) : M loc :=
  add_to_label n this
    (t <-- call_method n this "getType" (getType n this) ;;
     t <-- convert t ;;
     ret (nl +:+ nl +:+ "@type " +:+ t)) ;;;
  ret this.

(** [Object.entries] of a string: its characters by index. *)
Fixpoint string_entries (i : nat) (s : string) : list (string * value) :=
  match s with
  | EmptyString => []
  | String c s' =>
      (NilZero.string_of_uint (Nat.to_uint i), VString (String c EmptyString))
      :: string_entries (S i) s'
  end.

(** The pairs of [Object.entries] for the keys [ks] of the object at
    [t]: a key counts when at its turn it is an enumerable own property,
    and its value is read then. *)
Fixpoint collect (n : nat) (t : loc) (ks : list string) : M (list (string * value)) :=
  match ks with
  | [] => ret []
  | k :: ks' =>
      σ <-- get_state ;;
      match heap σ !! t ≫= (λ ob, props ob !! k) with
      | Some p =>
          if enumerable_of p then
            v <-- read native n (VObject t) k ;;
            rest <-- collect n t ks' ;;
            ret ((k, v) :: rest)
          else collect n t ks'
      | None => collect n t ks'
      end
  end.

(** [Object.entries(v)] *)
Definition entries (n : nat) (v : value) : M (list (string * value)) :=
  match v with
  | VObject t =>
      σ <-- get_state ;;
      ob <-- lift_option (heap σ !! t) ;;
      collect n t (own_keys (props ob))
  | VString s => ret (string_entries 0 s)
  | VUndefined | VNull =>
      throw (TypeError "Cannot convert undefined or null to object")
  | _ => ret []
  end.

(** The callback of line 131 on every pair. *)
Fixpoint tag_lines (es : list (string * value)) : M (list string) :=
  match es with
  | [] => ret []
  | (name, value) :: es' =>
      value <-- convert value ;;
      rest <-- tag_lines es' ;;
      ret (("@" +:+ name +:+ " " +:+ value) :: rest)
  end.

(** lines 125-133 *)
Definition formatTags (n : nat) (this : loc) : M value :=
  options <-- read native n (VObject this) "options" ;;
  tags <-- read native n options "tags" ;;
  if negb (truthy tags) then ret (VString EmptyString)
  else
    es <-- entries n tags ;;
    lines <-- tag_lines es ;;
    ret (VString (String.concat nl lines)).

(** [label += suffix] on the local variable of [toString]. *)
Definition plus (label : value) (suffix : string) : M value :=
  label <-- convert label ;;
  ret (VString (label +:+ suffix)).

(** lines 135-155 *)
Definition toString (n : nat) (this : loc) : M value :=
  options <-- read native n (VObject this) "options" ;;
  message <-- read native n options "message" ;;
  description <-- read native n options "description" ;;
  label <-- read native n (VObject this) "label" ;;
  label <-- (if truthy message
             then message <-- convert message ;;
                  plus label (" (" +:+ message +:+ ")")
             else ret label) ;;
  label <-- (if truthy description
             then description <-- convert description ;;
                  plus label (nl +:+ nl +:+ description)
             else ret label) ;;
  tags <-- call_method n this "formatTags" (formatTags n this) ;;
  tags <-- convert tags ;;
  label <-- plus label (nl +:+ nl +:+ tags) ;;
  preserveTypes <-- preserveTypes_of n this ;;
  if truthy preserveTypes then
    t <-- call_method n this "getType" (getType n this) ;;
    t <-- convert t ;;
    plus label (nl +:+ nl +:+ "@type " +:+ t)
  else ret label.

(** ** Clients of instances in the heap *)

Inductive api_call :=
| ForClass (className : string) (options : value)
| ForMethod (methodName : string) (options : value)
| ForFunction (options : value)
| ForProperty (propertyName : string) (options : value)
| WithDescription (this : loc) (description : string)
| WithTag (this : loc) (tagName tagValue : string)
| WithPreserveTypes (this : loc)
| ToString (this : loc)
| Decorate (self target : loc) (propertyKey : option string)
| DefineProperty (target : loc) (key : string) (d : descriptor)
| CallFunction (f : loc) (this : value) (args : list value)
| Assign (v : value) (k : string) (x : value)
| Read (v : value) (k : string).

Definition run_api (n : nat) (c : api_call) : M unit :=
  match c with
  | ForClass className options => forClass n className options ;;; ret tt
  | ForMethod methodName options => forMethod n methodName options ;;; ret tt
  | ForFunction options => forFunction n options ;;; ret tt
  | ForProperty propertyName options => forProperty n propertyName options ;;; ret tt
  | WithDescription this description => withDescription n this description ;;; ret tt
  | WithTag this tagName tagValue => withTag n this tagName tagValue ;;; ret tt
  | WithPreserveTypes this => withPreserveTypes n this ;;; ret tt
  | ToString this => toString n this ;;; ret tt
  | Decorate self target propertyKey =>
      decorate native n self target propertyKey ;;; ret tt
  | DefineProperty target key d => define_property target key d
  | CallFunction f this args => call native n f this args ;;; ret tt
  | Assign v k x => assign native n v k x
  | Read v k => read native n v k ;;; ret tt
  end.

(** An exception is caught by the client, which goes on in the state
    the operation left. *)
Fixpoint run_trace (n : nat) (cs : list api_call) (σ : state) : option state :=
  match cs with
  | [] => Some σ
  | c :: cs' =>
      match run_api n c σ with
      | Some (_, σ') => run_trace n cs' σ'
      | None => None
      end
  end.

End Class.

(** ** Vocabulary *)

(** The own property [k] of the object at [l]. *)
Definition slot (h : gmap loc object) (l : loc) (k : string) : option property :=
  h !! l ≫= (λ ob, props ob !! k).

(** The label of the instance at [this] is as the constructor made it,
    an own writable data property, and holds the string [s]. *)
Definition holds_label (h : gmap loc object) (this : loc) (s : string) : Prop :=
  ∃ e c, slot h this "label" = Some (Data (VString s) true e c).

(** The operation addresses the property [label] of the instance at
    [this] from outside the three mutators: by decoration, definition or
    assignment. *)
Definition redefines_label (this : loc) (c : api_call) : bool :=
  match c with
  | Decorate _ target (Some key) =>
      bool_decide (target = this) && bool_decide (key = "label")
  | DefineProperty target key _ =>
      bool_decide (target = this) && bool_decide (key = "label")
  | Assign (VObject l) k _ =>
      bool_decide (l = this) && bool_decide (k = "label")
  | _ => false
  end.

(** Code of the caller leaves the property [k] of the object at [l] as
    it is. *)
Definition leaves
    (native : nat → value → list value → gmap loc object
              → option (completion value * gmap loc object))
    (l : loc) (k : string) : Prop :=
  ∀ id this args h r h',
    native id this args h = Some (r, h') → slot h' l k = slot h l k.

(** A computation that finds the property [k] of the object at [l] to
    be [p] leaves it so. *)
Definition keeps_slot {A} (l : loc) (k : string) (p : property) (m : M A) : Prop :=
  ∀ σ r σ', m σ = Some (r, σ') → slot (heap σ) l k = Some p → slot (heap σ') l k = Some p.

(** The object at [this] is new in [h'] and as the constructor makes
    it: [label] and [options] are own data properties, writable,
    enumerable and configurable; the one holds the label, the other the
    argument, or a new [{}] in place of [undefined]. *)
Definition constructed (h h' : gmap loc object) (this : loc) (lbl : string)
    (options : value) : Prop :=
  h !! this = None
  ∧ slot h' this "label" = Some (Data (VString lbl) true true true)
  ∧ ∃ o, slot h' this "options" = Some (Data o true true true)
         ∧ match options with
           | VUndefined => ∃ l, o = VObject l ∧ h !! l = None ∧ h' !! l = Some plain_object
           | _ => o = options
           end.

(** [this.name] is the method of the class of that name, found as
    plain data on the instance or on its prototype chain. *)
Definition has_method (h : gmap loc object) (this : loc) (name : string) : Prop :=
  ∃ l ob, read_data h (VObject this) name = Some (VObject l)
          ∧ h !! l = Some ob ∧ code_of ob = Some (Method name).

(** The options of the instance at [this] are as the constructor made
    them: an own data property that holds the object at [o]. *)
Definition holds_options (h : gmap loc object) (this o : loc) : Prop :=
  ∃ w e c, slot h this "options" = Some (Data (VObject o) w e c).

(** The value [decorate] and its closures read as [self.label]: the
    label of an instance in the store, the own data property of an
    instance in the heap. *)
Definition labelled (σ : state) (self : loc) (doc : value) : Prop :=
  match annotators σ !! self with
  | Some a => doc = VString (label a)
  | None => ∃ w e c, slot (heap σ) self "label" = Some (Data doc w e c)
  end.

(** A [preserveTypes] value that resolves without running code of the
    caller: a primitive, or an object whose [constructor] is read as
    plain data and, when that is a function, has a string as [name]. *)
Definition plain_type (h : gmap loc object) (v : value) : bool :=
  match v with
  | VObject _ =>
      match read_data h v "constructor" with
      | Some c =>
          if truthy c && String.eqb (typeof h c) "function"
          then match read_data h c "name" with
               | Some (VString _) => true
               | _ => false
               end
          else true
      | None => false
      end
  | _ => true
  end.

(** An option declared [string]: absent or a string. *)
Definition optional_string (v : value) : bool :=
  match v with
  | VUndefined | VString _ => true
  | _ => false
  end.

(** An option declared [{ [key: string]: string }]: absent, or an object
    all of whose own properties are data properties holding strings. *)
Definition optional_tags (h : gmap loc object) (v : value) : Prop :=
  match v with
  | VUndefined => True
  | VObject t =>
      ∃ ob, h !! t = Some ob
            ∧ ∀ k p, props ob !! k = Some p → ∃ s w e c, p = Data (VString s) w e c
  | _ => False
  end.

(** The options object at [o] holds plain data of the declared types
    (lines 3-8): each option is absent or a data property, on the
    object or inherited. *)
Definition plain_options (h : gmap loc object) (o : loc) : Prop :=
  (∃ v, read_data h (VObject o) "message" = Some v ∧ optional_string v = true)
  ∧ (∃ v, read_data h (VObject o) "description" = Some v ∧ optional_string v = true)
  ∧ (∃ v, read_data h (VObject o) "tags" = Some v ∧ optional_tags h v)
  ∧ (∃ v, read_data h (VObject o) "preserveTypes" = Some v ∧ plain_type h v = true).

(** The options object at [o] sets no option, as [{}] does. *)
Definition empty_options (h : gmap loc object) (o : loc) : Prop :=
  read_data h (VObject o) "message" = Some VUndefined
  ∧ read_data h (VObject o) "description" = Some VUndefined
  ∧ read_data h (VObject o) "tags" = Some VUndefined
  ∧ read_data h (VObject o) "preserveTypes" = Some VUndefined.

End Obj.

(** ** Sample instances in the heap *)

(** The class on the sample heap: [Annotator.prototype] at address 30,
    the constructor [Annotator] at 31, and at 28 and 29 the two methods
    that the class calls itself. *)
Definition class_heap : gmap loc object :=
  <[28 := function_object (Method "getType")]>
  (<[29 := function_object (Method "formatTags")]>
  (<[30 := {| proto := Some object_prototype; extensible := true; code_of := None;
              props := {["constructor" := Data (VObject 31) true false true;
                         "getType" := Data (VObject 28) true false true;
                         "formatTags" := Data (VObject 29) true false true]} |}]>
  (<[31 := {| proto := Some function_prototype; extensible := true;
              code_of := Some (ClassConstructor 1);
              props := {["name" := Data (VString "Annotator") false false true;
                         "prototype" := Data (VObject 30) false false false]} |}]>
   sample_heap))).

Definition class_state : state := {| heap := class_heap; annotators := ∅ |}.

(** One order of the own keys. *)
Definition sample_keys (ps : gmap string property) : list string := (map_to_list ps).*1.

(** ** The type name of an instance

    The name is what [withPreserveTypes] appends to the label, after a
    blank line and [@type], and what [toString] prints in the [@type]
    line of the rendering, which is there when the option is truthy. *)
Definition resolves_to (σ : state) (self : loc) (a : Annotator) (name : string) : Prop :=
  withPreserveTypes self σ
  = Some (Normal self,
          set_annotators (<[self := appended a (blank_line +:+ "@type " +:+ name)]>) σ)
  ∧ toString self σ = Some (Normal (rendering a name), σ).

(** The label an instance has after the operation that returns it. *)
Definition label_after (m : M loc) (σ : state) : option string :=
  match m σ with
  | Some (Normal self, σ') => label <$> annotators σ' !! self
  | _ => None
  end.

(** An instance with the given [preserveTypes] option and no other. *)
Definition typed (v : value) : Annotator :=
  {| label := "Property: p";
     options := {| message := None; description := None; tags := None;
                   preserveTypes := v |} |}.

Definition typed_state (v : value) : state :=
  {| heap := sample_heap; annotators := {[0 := typed v]} |}.

(** ** Sample programs on instances in the heap *)

(** [a = Annotator.forClass("A"); b = Annotator.forMethod("m")], then
    [k a b]. *)
Definition with_two_instances {A} (k : loc → loc → M A) : M A :=
  a <-- Obj.forClass sample_native 30 2 "A" VUndefined ;;
  b <-- Obj.forMethod sample_native 30 2 "m" VUndefined ;;
  k a b.

(** [a.label], right after construction; after [b.decorate(a, "label")];
    and after [b.decorate(a, "label"); a.withDescription("d")]. *)
Definition read_label : M value :=
  with_two_instances (λ a b, read sample_native 2 (VObject a) "label").

Definition decorate_label_then_read : M value :=
  with_two_instances (λ a b,
    decorate sample_native 2 b a (Some "label") ;;;
    read sample_native 2 (VObject a) "label").

Definition decorate_label_then_describe : M value :=
  with_two_instances (λ a b,
    decorate sample_native 2 b a (Some "label") ;;;
    Obj.withDescription sample_native 2 a "d" ;;;
    read sample_native 2 (VObject a) "label").

(** [Object.defineProperty(a, "label", {writable: false})], as
    [Object.freeze(a)] does to the label, then [a.withDescription("d")]. *)
Definition describe_read_only : M loc :=
  with_two_instances (λ a b,
    define_property a "label"
      {| d_value := None; d_writable := Some false; d_get := None; d_set := None;
         d_enumerable := None; d_configurable := None |} ;;;
    Obj.withDescription sample_native 2 a "d").

(** [Annotator.forClass("A", null)], then [withPreserveTypes] and
    [toString]. *)
Definition null_options_withPreserveTypes : M loc :=
  a <-- Obj.forClass sample_native 30 2 "A" VNull ;;
  Obj.withPreserveTypes sample_native 2 a.

Definition null_options_toString : M value :=
  a <-- Obj.forClass sample_native 30 2 "A" VNull ;;
  Obj.toString sample_native sample_keys 2 a.

(** [b.decorate(a, "options"); a.toString()] *)
Definition decorate_options_then_toString : M value :=
  with_two_instances (λ a b,
    decorate sample_native 2 b a (Some "options") ;;;
    Obj.toString sample_native sample_keys 2 a).

(** [b.decorate(a, "getType"); a.withPreserveTypes()] *)
Definition decorate_getType_then_withPreserveTypes : M loc :=
  with_two_instances (λ a b,
    decorate sample_native 2 b a (Some "getType") ;;;
    Obj.withPreserveTypes sample_native 2 a).

(** [Annotator.forClass("A", {message: Symbol()}).toString()] *)
Definition symbol_message_toString : M value :=
  o <-- alloc (set_props (<["message" := Data (VSymbol 0 None) true true true]>) plain_object) ;;
  a <-- Obj.forClass sample_native 30 2 "A" (VObject o) ;;
  Obj.toString sample_native sample_keys 2 a.

(** A realm in which [Function.prototype.__doc__] is read-only, and one
    in which [Object.prototype.label] is. *)
Definition read_only_on (l : loc) (k : string) (σ : state) : state :=
  set_heap (λ h, match h !! l with
                 | Some ob => <[l := set_props (<[k := Data VUndefined false false false]>) ob]> h
                 | None => h
                 end) σ.

Definition decorate_function_read_only_doc : M returned :=
  λ σ, decorate sample_native 2 0 3 None (read_only_on function_prototype "__doc__" σ).

Definition construct_read_only_label : M loc :=
  λ σ, Obj.forClass sample_native 30 2 "A" VUndefined
         (read_only_on object_prototype "label" σ).

(** A client of the instance [a] that decorates with it, appends to
    it, decorates it without key, reads it and renders it. *)
Definition busy_client (a : loc) : list Obj.api_call :=
  [Obj.Decorate a 5 (Some "prop"); Obj.WithTag a "author" "X"; Obj.Decorate a 3 None;
   Obj.Decorate a a None; Obj.CallFunction 6 (VObject a) []; Obj.ToString a;
   Obj.WithPreserveTypes a; Obj.ForFunction VNull; Obj.Assign (VObject a) "label2" VNull].

(** The state after [Annotator.forClass("A")] on the class heap; the
    instance is at address 32 and its options object at 33. *)
Definition instance_state : state :=
  match Obj.forClass sample_native 30 2 "A" VUndefined class_state with
  | Some (_, σ) => σ
  | None => class_state
  end.

(** The options object of the example usage, with [{}] as
    [preserveTypes], at address 40 and its tags at 41; and the state
    after [Annotator.forClass("MyClass", options)], which puts the
    instance at address 42. *)
Definition options_heap : gmap loc object :=
  <[40 := set_props (λ _, {["message" := Data (VString "This is my class.") true true true;
                            "tags" := Data (VObject 41) true true true;
                            "preserveTypes" := Data (VObject 8) true true true]})
            plain_object]>
  (<[41 := set_props (λ _, {["author" := Data (VString "John Doe") true true true]})
             plain_object]> class_heap).

Definition plain_state : state :=
  match Obj.forClass sample_native 30 2 "MyClass" (VObject 40)
          {| heap := options_heap; annotators := ∅ |} with
  | Some (_, σ) => σ
  | None => class_state
  end.
(** ** Lemmas on the object model *)

Lemma size_lookup_pos (h : gmap loc object) l ob :
  h !! l = Some ob → ∃ n, size h = S n.
Proof.
  intros Hl. destruct (size h) as [|n] eqn:Hs; [|by eauto].
  apply map_size_empty_iff in Hs. subst h. by rewrite lookup_empty in Hl.
Qed.

Lemma find_property_mono n m h o k r :
  find_property n h o k = Some r → n ≤ m → find_property m h o k = Some r.
Proof.
  revert m o. induction n as [|n IH]; intros m o Hf Hle; [done|].
  destruct m as [|m]; [lia|]. simpl in *.
  destruct (h !! o) as [ob|]; [|done].
  destruct (props ob !! k); [done|].
  destruct (proto ob); [|done]. apply IH; [done|lia].
Qed.

Lemma find_property_alloc n h l new o k r :
  h !! l = None →
  find_property n h o k = Some r →
  find_property n (<[l := new]> h) o k = Some r.
Proof.
  intros Hl. revert o. induction n as [|n IH]; intros o Hf; [done|].
  simpl in *. destruct (h !! o) as [ob|] eqn:Ho; [|done].
  rewrite lookup_insert_ne; [|congruence]. rewrite Ho.
  destruct (props ob !! k); [done|]. destruct (proto ob); [|done]. by apply IH.
Qed.

Lemma lookup_chain_alloc h l new o k r :
  h !! l = None →
  lookup_chain h o k = Some r →
  lookup_chain (<[l := new]> h) o k = Some r.
Proof.
  intros Hl Hf. unfold lookup_chain in *.
  rewrite map_size_insert_None by done.
  apply find_property_alloc; [done|].
  eapply find_property_mono; [done|lia].
Qed.

Lemma lookup_chain_own h l ob k p :
  h !! l = Some ob → props ob !! k = Some p →
  lookup_chain h l k = Some (Some p).
Proof.
  intros Hl Hp. unfold lookup_chain.
  destruct (size_lookup_pos _ _ _ Hl) as [n ->]. simpl. by rewrite Hl, Hp.
Qed.

(** A fresh object without the key defers to its prototype. *)
Lemma lookup_chain_fresh h l new k r :
  h !! l = None → props new !! k = None →
  (match proto new with
   | Some p => lookup_chain h p k = Some r
   | None => r = None
   end) →
  lookup_chain (<[l := new]> h) l k = Some r.
Proof.
  intros Hl Hk Hp. unfold lookup_chain.
  rewrite map_size_insert_None by done. simpl.
  rewrite lookup_insert_eq, Hk.
  destruct (proto new) as [p|]; [|by subst].
  by apply find_property_alloc.
Qed.

(** Changing the property [k'] of one object leaves lookups of other
    keys as they were. *)
Lemma find_property_update_ne n h l ob k k' p o :
  h !! l = Some ob → k ≠ k' →
  find_property n (<[l := set_props (<[k' := p]>) ob]> h) o k
  = find_property n h o k.
Proof.
  intros Hl Hne. revert o. induction n as [|n IH]; intros o; [done|].
  simpl. destruct (decide (l = o)) as [->|Hlo].
  - rewrite lookup_insert_eq, Hl. simpl.
    rewrite lookup_insert_ne by done.
    destruct (props ob !! k); [done|]. destruct (proto ob); [|done]. apply IH.
  - rewrite lookup_insert_ne by done.
    destruct (h !! o) as [ob'|]; [|done].
    destruct (props ob' !! k); [done|]. destruct (proto ob'); [|done]. apply IH.
Qed.

Lemma size_update (h : gmap loc object) l ob ob' :
  h !! l = Some ob → size (<[l := ob']> h) = size h.
Proof.
  intros Hl. rewrite <-(insert_delete_id h l ob) at 2 by done.
  rewrite <-(insert_delete_eq h l ob').
  rewrite !map_size_insert_None by apply lookup_delete_eq. done.
Qed.

Lemma lookup_chain_update_ne h l ob k k' p o :
  h !! l = Some ob → k ≠ k' →
  lookup_chain (<[l := set_props (<[k' := p]>) ob]> h) o k = lookup_chain h o k.
Proof.
  intros Hl Hne. unfold lookup_chain.
  rewrite (size_update _ _ _ _ Hl). by apply find_property_update_ne.
Qed.

Lemma lookup_chain_written_ne h l k k' x o :
  k ≠ k' → lookup_chain (written l k' x h) o k = lookup_chain h o k.
Proof.
  intros Hne. unfold written. destruct (h !! l) as [ob|] eqn:Hl; [|done].
  by apply lookup_chain_update_ne.
Qed.

Lemma written_lookup_own h l ob k x :
  h !! l = Some ob →
  ∃ ob' e c, written l k x h !! l = Some ob'
    ∧ props ob' !! k = Some (Data x true e c)
    ∧ proto ob' = proto ob ∧ extensible ob' = extensible ob
    ∧ code_of ob' = code_of ob
    ∧ ∀ k', k' ≠ k → props ob' !! k' = props ob !! k'.
Proof.
  intros Hl. unfold written. rewrite Hl.
  destruct (props ob !! k) as [[]|]; eexists _, _, _;
    rewrite lookup_insert_eq; (split; [done|]); simpl;
    rewrite lookup_insert_eq; repeat split; try done;
    intros k' Hk; by rewrite lookup_insert_ne.
Qed.

Lemma written_lookup_ne h l l' k x :
  l' ≠ l → written l k x h !! l' = h !! l'.
Proof.
  intros Hne. unfold written. destruct (h !! l); [|done].
  by rewrite lookup_insert_ne.
Qed.

Lemma accepts_write_written_ne h l k k' x :
  k ≠ k' → accepts_write (written l k' x h) l k = accepts_write h l k.
Proof.
  intros Hne. unfold accepts_write.
  rewrite lookup_chain_written_ne by done.
  destruct (h !! l) as [ob|] eqn:Hl.
  - destruct (written_lookup_own h l ob k' x Hl)
      as (ob' & e & c & Hl' & _ & _ & He & _ & Hk).
    by rewrite Hl', He, (Hk k Hne).
  - unfold written. by rewrite !Hl.
Qed.

Lemma accepts_write_written h l k x :
  accepts_write h l k = true → accepts_write (written l k x h) l k = true.
Proof.
  unfold accepts_write. intros Ha.
  destruct (h !! l) as [ob|] eqn:Hl; [|by destruct (lookup_chain h l k) as [[[? []| ]|]|]].
  destruct (written_lookup_own h l ob k x Hl) as (ob' & e & c & Hl' & Hk' & _).
  rewrite (lookup_chain_own _ _ _ _ _ Hl' Hk'), Hl', Hk'. done.
Qed.

Lemma fresh_lookup_None (h : gmap loc object) : h !! fresh (dom h) = None.
Proof. apply not_elem_of_dom, is_fresh. Qed.

Lemma shadow_key_ne (k : string) : "_" +:+ k ≠ k.
Proof.
  intros H. change (String "_"%char k = k) in H.
  apply (f_equal String.length) in H. simpl in H. lia.
Qed.

Section Properties.

Variable native :
  nat → value → list value → gmap loc object
  → option (completion value * gmap loc object).

(** An accepted assignment is the write and nothing else. *)
Lemma js_set_accepts callf σ l k x :
  accepts_write (heap σ) l k = true →
  js_set callf (VObject l) k x σ = Some (Normal tt, set_heap (written l k x) σ).
Proof.
  unfold accepts_write, js_set, write_own, written, set_heap. intros Ha.
  destruct (lookup_chain (heap σ) l k) as [[[v [] e c|]|]|]; try done;
    destruct (heap σ !! l) as [ob|]; try done;
    destruct (props ob !! k) as [[? [] ? ?|]|]; try done;
    by rewrite Ha.
Qed.

(** After an accepted write the key reads back the value written. *)
Lemma js_get_written callf σ l k x :
  is_Some (heap σ !! l) →
  js_get callf (VObject l) k (set_heap (written l k x) σ)
  = Some (Normal x, set_heap (written l k x) σ).
Proof.
  intros [ob Hl]. unfold js_get. simpl.
  destruct (written_lookup_own _ _ _ k x Hl) as (ob' & e & c & Hl' & Hk & _).
  by rewrite (lookup_chain_own _ _ _ _ _ Hl' Hk).
Qed.

(** Lines 59-68: any callable target without a key is wrapped. *)
Lemma decorate_callable n σ self a target :
  annotators σ !! self = Some a →
  callable (heap σ) target = true →
  pristine (heap σ) "__doc__" →
  decorate native n self target None σ
  = Some (Normal (RValue (VObject (fresh (dom (heap σ))))),
          set_heap (<[fresh (dom (heap σ)) := decorated_function target (label a)]>) σ).
Proof.
  intros Ha Hc Hp. unfold decorate, bind, get_state. rewrite Hc. simpl.
  unfold label_of. simpl. rewrite Ha.
  pose proof (fresh_lookup_None (heap σ)) as Hf.
  unfold assign. rewrite js_set_accepts.
  - unfold ret, set_heap, written, decorated_function. simpl.
    rewrite lookup_insert_eq. simpl. rewrite lookup_empty.
    by rewrite insert_insert_eq.
  - unfold accepts_write. simpl.
    rewrite (lookup_chain_fresh _ _ _ "__doc__" None); [|done|done|].
    + by rewrite lookup_insert_eq.
    + simpl. apply Hp.
Qed.

(** Lines 62-64: the wrapper forwards receiver and arguments. *)
Lemma call_decorated_function n σ w wob target this args :
  heap σ !! w = Some wob →
  code_of wob = Some (DecoratedFunction target) →
  call native (S n) w this args σ = call native n target this args σ.
Proof. intros Hw Hc. simpl. by rewrite Hw, Hc. Qed.

(** Lines 76-86: the descriptor of a method comes back with the
    wrapper as its value; the heap only gains the wrapper. *)
Lemma decorate_method n σ self obj ob key m wr e c :
  heap σ !! obj = Some ob →
  props ob !! key = Some (Data (VObject m) wr e c) →
  callable (heap σ) m = true →
  decorate native n self obj (Some key) σ
  = Some (Normal (RDescriptor
                    {| d_value := Some (VObject (fresh (dom (heap σ))));
                       d_writable := Some wr; d_get := None; d_set := None;
                       d_enumerable := Some e; d_configurable := Some c |}),
          set_heap (<[fresh (dom (heap σ)) :=
                        function_object (DecoratedMethod self m)]>) σ).
Proof.
  intros Ho Hk Hm. unfold decorate, bind, get_state.
  rewrite bool_decide_eq_false_2, andb_false_r by done.
  unfold get_own_property_descriptor. rewrite Ho, Hk. simpl. by rewrite Hm.
Qed.

(** Redefining the returned descriptor on the object is accepted
    exactly when the method was configurable or writable. *)
Lemma redefine_method σ obj ob key m w wr e c :
  heap σ !! obj = Some ob →
  props ob !! key = Some (Data (VObject m) wr e c) →
  callable (heap σ) w = true →
  w ≠ m →
  define_property obj key
    {| d_value := Some (VObject w); d_writable := Some wr; d_get := None;
       d_set := None; d_enumerable := Some e; d_configurable := Some c |} σ
  = if c || wr
    then Some (Normal tt,
               set_heap (<[obj := set_props (<[key := Data (VObject w) wr e c]>) ob]>) σ)
    else Some (Throw (TypeError "Cannot define property"), σ).
Proof.
  intros Ho Hk Hw Hne. unfold define_property. rewrite Ho, Hk. simpl.
  unfold differs. rewrite (bool_decide_eq_true_2 (e = e)) by done.
  rewrite (bool_decide_eq_false_2 (VObject w = VObject m)) by congruence.
  destruct c, wr; simpl; try done.
Qed.

(** Lines 81-84: the method wrapper stamps the receiver with the label
    the annotator has at the time of the call, then runs the method. *)
Lemma call_decorated_method n σ w wob self a m obj args :
  heap σ !! w = Some wob →
  code_of wob = Some (DecoratedMethod self m) →
  annotators σ !! self = Some a →
  accepts_write (heap σ) obj "__doc__" = true →
  call native (S n) w (VObject obj) args σ
  = call native n m (VObject obj) args
      (set_heap (written obj "__doc__" (VString (label a))) σ).
Proof.
  intros Hw Hc Ha Hacc. simpl. rewrite Hw, Hc. simpl.
  unfold bind, label_of. rewrite Ha. by rewrite js_set_accepts.
Qed.

(** [obj[key](...args)] on a data property is the call of its value. *)
Lemma invoke_data n σ obj key f wr e c args :
  lookup_chain (heap σ) obj key = Some (Some (Data (VObject f) wr e c)) →
  invoke native n obj key args σ = call native n f (VObject obj) args σ.
Proof.
  intros Hl. unfold invoke, bind, read, js_get. by rewrite Hl.
Qed.

(** Without a method at the key, [decorate] takes the accessor branch. *)
Lemma decorate_not_method n σ self obj key :
  is_Some (heap σ !! obj) →
  holds_method (heap σ) obj key = false →
  decorate native n self obj (Some key) σ = define_accessors self obj key σ.
Proof.
  intros [ob Ho] Hm. unfold decorate, bind, get_state.
  rewrite bool_decide_eq_false_2, andb_false_r by done.
  unfold holds_method in Hm. rewrite Ho in Hm.
  unfold get_own_property_descriptor. rewrite Ho. simpl.
  destruct (props ob !! key) as [[[] ? ? ?|]|]; simpl; try done.
  by rewrite Hm.
Qed.

(** Lines 88-98: two fresh function objects, and the accessor pair on
    the target when the target admits it; a TypeError otherwise. *)
Lemma define_accessors_result σ self obj ob key :
  heap σ !! obj = Some ob →
  let g := fresh (dom (heap σ)) in
  let h1 := <[g := function_object (AccessorGet key)]> (heap σ) in
  let s := fresh (dom h1) in
  let h2 := <[s := function_object (AccessorSet self key)]> h1 in
  define_accessors self obj key σ
  = if accepts_accessors (heap σ) obj key
    then Some (Normal (RValue VUndefined),
               set_heap (λ _, <[obj := set_props
                                  (<[key := Accessor (VObject g) (VObject s) true true]>)
                                  ob]> h2) σ)
    else Some (Throw (TypeError "Cannot define property"), set_heap (λ _, h2) σ).
Proof.
  intros Ho g h1 s h2.
  assert (Hg : heap σ !! g = None) by apply fresh_lookup_None.
  assert (Hs : h1 !! s = None) by apply fresh_lookup_None.
  assert (Hgo : g ≠ obj) by congruence.
  assert (Hsg : s ≠ g).
  { intros E. subst h1. rewrite E, lookup_insert_eq in Hs. done. }
  assert (Hso : s ≠ obj).
  { intros E. subst h1. rewrite E, lookup_insert_ne, Ho in Hs; done. }
  assert (Ho2 : h2 !! obj = Some ob).
  { subst h2 h1. by rewrite !lookup_insert_ne. }
  unfold define_accessors, bind, alloc, define_property. simpl.
  fold g. fold h1. fold s. fold h2. rewrite Ho2.
  unfold callable. subst h2. rewrite lookup_insert_eq.
  rewrite lookup_insert_ne by done. subst h1. rewrite lookup_insert_eq. simpl.
  unfold accepts_accessors. rewrite Ho.
  destruct (props ob !! key) as [[? ? ? []|? ? ? []]|]; simpl; try done.
  by destruct (extensible ob).
Qed.

(** Lines 92-95: an assignment to the decorated property runs the
    setter, which writes the shadow field and then the label. *)
Lemma assign_through_setter n σ obj ob key g s e c sob self a x :
  heap σ !! obj = Some ob →
  props ob !! key = Some (Accessor g (VObject s) e c) →
  heap σ !! s = Some sob →
  code_of sob = Some (AccessorSet self key) →
  annotators σ !! self = Some a →
  accepts_write (heap σ) obj ("_" +:+ key) = true →
  accepts_write (heap σ) obj "__doc__" = true →
  "_" +:+ key ≠ "__doc__" →
  assign native (S n) (VObject obj) key x σ
  = Some (Normal tt,
          set_heap (written obj "__doc__" (VString (label a))
                    ∘ written obj ("_" +:+ key) x) σ).
Proof.
  intros Ho Hk Hs Hc Ha Hw1 Hw2 Hne. unfold assign, js_set.
  rewrite (lookup_chain_own _ _ _ _ _ Ho Hk).
  unfold bind at 1. simpl. rewrite Hs, Hc. simpl.
  unfold bind at 1. rewrite js_set_accepts by done.
  unfold bind at 1. unfold label_of. simpl. rewrite Ha.
  unfold bind at 1. rewrite js_set_accepts.
  - done.
  - simpl. by rewrite accepts_write_written_ne.
Qed.

(** Lines 89-91: reading the decorated property reads the shadow field. *)
Lemma read_through_getter n σ obj ob key g s e c gob :
  heap σ !! obj = Some ob →
  props ob !! key = Some (Accessor (VObject g) s e c) →
  heap σ !! g = Some gob →
  code_of gob = Some (AccessorGet key) →
  read native (S n) (VObject obj) key σ
  = read native n (VObject obj) ("_" +:+ key) σ.
Proof.
  intros Ho Hk Hg Hc. unfold read at 1. unfold js_get.
  rewrite (lookup_chain_own _ _ _ _ _ Ho Hk). simpl. by rewrite Hg, Hc.
Qed.

Lemma read_own_data n σ obj ob k x wr e c :
  heap σ !! obj = Some ob →
  props ob !! k = Some (Data x wr e c) →
  read native n (VObject obj) k σ = Some (Normal x, σ).
Proof.
  intros Ho Hk. unfold read, js_get.
  by rewrite (lookup_chain_own _ _ _ _ _ Ho Hk).
Qed.

(** *** What each operation leaves untouched *)

Lemma keeps_annotators_bind {A B} (m : M A) (f : A → M B) :
  keeps_annotators m → (∀ a, keeps_annotators (f a)) →
  keeps_annotators (bind m f).
Proof.
  intros Hm Hf σ r σ'. unfold bind.
  destruct (m σ) as [[[a|e] σ1]|] eqn:E; [| |done].
  - intros H. rewrite (Hf _ _ _ _ H). eauto.
  - intros [= <- <-]. eauto.
Qed.

Lemma keeps_annotators_ret {A} (a : A) : keeps_annotators (ret a).
Proof. by intros σ r σ' [= <- <-]. Qed.

Lemma keeps_annotators_throw {A} e : keeps_annotators (@throw A e).
Proof. by intros σ r σ' [= <- <-]. Qed.

Lemma keeps_annotators_write_own l k x : keeps_annotators (write_own l k x).
Proof.
  intros σ r σ'. unfold write_own.
  destruct (heap σ !! l) as [ob|]; [|done].
  destruct (props ob !! k) as [[? [] ? ?|]|]; try by intros [= <- <-].
  destruct (extensible ob); by intros [= <- <-].
Qed.

Lemma keeps_annotators_define_property l k d :
  keeps_annotators (define_property l k d).
Proof.
  intros σ r σ'. unfold define_property.
  destruct (heap σ !! l) as [ob|]; [|done].
  destruct (_ || _); [by intros [= <- <-]|].
  destruct (validate_and_apply _ _ _); by intros [= <- <-].
Qed.

Lemma keeps_annotators_alloc ob : keeps_annotators (alloc ob).
Proof. by intros σ r σ' [= <- <-]. Qed.

Lemma keeps_annotators_run_native id this args :
  keeps_annotators (run_native native id this args).
Proof.
  intros σ r σ'. unfold run_native.
  destruct (native _ _ _ _) as [[c h]|]; [|done]. by intros [= <- <-].
Qed.

Section WithCall.

Variable callf : loc → value → list value → M value.
Hypothesis callf_keeps : ∀ f this args, keeps_annotators (callf f this args).

Lemma keeps_annotators_js_get v k : keeps_annotators (js_get callf v k).
Proof.
  intros σ r σ'. unfold js_get.
  destruct v; try (by intros [= <- <-]);
    try (destruct (String.eqb _ _); by intros [= <- <-]).
  destruct (lookup_chain _ _ _) as [[[|[] ? ? ?]|]|];
    try done; try by intros [= <- <-].
  apply callf_keeps.
Qed.

Lemma keeps_annotators_js_set v k x : keeps_annotators (js_set callf v k x).
Proof.
  intros σ r σ'. unfold js_set.
  destruct v; try by intros [= <- <-].
  destruct (lookup_chain _ _ _) as [[[? []|? []]|]|];
    try done; try (by intros [= <- <-]);
    try apply keeps_annotators_write_own.
  apply keeps_annotators_bind; [apply callf_keeps|].
  intros _. apply keeps_annotators_ret.
Qed.

Lemma keeps_annotators_label_of self : keeps_annotators (label_of callf self).
Proof.
  intros σ r σ'. unfold label_of.
  destruct (annotators σ !! self); [by intros [= <- <-]|].
  apply keeps_annotators_js_get.
Qed.

Lemma keeps_annotators_run_code c this args :
  keeps_annotators (run_code native callf c this args).
Proof.
  destruct c; simpl.
  - apply keeps_annotators_run_native.
  - apply keeps_annotators_throw.
  - apply callf_keeps.
  - apply keeps_annotators_bind; [apply keeps_annotators_label_of|].
    intros doc. apply keeps_annotators_bind; [apply keeps_annotators_js_set|].
    intros _. apply callf_keeps.
  - apply keeps_annotators_js_get.
  - apply keeps_annotators_bind; [apply keeps_annotators_js_set|].
    intros _. apply keeps_annotators_bind; [apply keeps_annotators_label_of|].
    intros doc. apply keeps_annotators_bind; [apply keeps_annotators_js_set|].
    intros _. apply keeps_annotators_ret.
  - done.
Qed.

End WithCall.

(** No call, however deep, changes a label or an options object. *)
Lemma keeps_annotators_call n f this args :
  keeps_annotators (call native n f this args).
Proof.
  revert f this args. induction n as [|n IH]; intros f this args σ r σ'; [done|].
  simpl. destruct (heap σ !! f) as [ob|]; [|done].
  destruct (code_of ob) as [c|]; [|by intros [= <- <-]].
  by apply keeps_annotators_run_code.
Qed.

Lemma keeps_annotators_read n v k : keeps_annotators (read native n v k).
Proof. apply keeps_annotators_js_get, keeps_annotators_call. Qed.

Lemma keeps_annotators_assign n v k x : keeps_annotators (assign native n v k x).
Proof. apply keeps_annotators_js_set, keeps_annotators_call. Qed.

Lemma keeps_annotators_define_accessors self target key :
  keeps_annotators (define_accessors self target key).
Proof.
  unfold define_accessors.
  apply keeps_annotators_bind; [apply keeps_annotators_alloc|]. intros g.
  apply keeps_annotators_bind; [apply keeps_annotators_alloc|]. intros s.
  apply keeps_annotators_bind; [apply keeps_annotators_define_property|].
  intros _. apply keeps_annotators_ret.
Qed.

Lemma keeps_annotators_decorate n self target key :
  keeps_annotators (decorate native n self target key).
Proof.
  unfold decorate.
  apply keeps_annotators_bind; [by intros σ r σ' [= <- <-]|]. intros σ0.
  destruct (_ && _).
  - apply keeps_annotators_bind; [apply keeps_annotators_alloc|]. intros w.
    apply keeps_annotators_bind;
      [apply keeps_annotators_label_of, keeps_annotators_call|]. intros doc.
    apply keeps_annotators_bind; [apply keeps_annotators_assign|]. intros _.
    apply keeps_annotators_ret.
  - destruct key as [key|].
    + apply keeps_annotators_bind.
      { unfold lift_option.
        destruct (get_own_property_descriptor _ _ _); [|done].
        apply keeps_annotators_ret. }
      intros [d|]; [|apply keeps_annotators_define_accessors].
      destruct (d_value d) as [[]|]; try apply keeps_annotators_define_accessors.
      destruct (callable _ _); [|apply keeps_annotators_define_accessors].
      apply keeps_annotators_bind; [apply keeps_annotators_alloc|]. intros w.
      apply keeps_annotators_ret.
    + apply keeps_annotators_bind;
        [apply keeps_annotators_label_of, keeps_annotators_call|]. intros doc.
      apply keeps_annotators_bind; [apply keeps_annotators_assign|]. intros _.
      apply keeps_annotators_ret.
Qed.

(** *** The chained mutators *)

Lemma withDescription_appends σ self a description :
  annotators σ !! self = Some a →
  withDescription self description σ
  = Some (Normal self,
          set_annotators (<[self := appended a (nl +:+ nl +:+ description)]>) σ).
Proof.
  intros Ha. unfold withDescription, bind, this_annotator, store_label.
  rewrite Ha. simpl. by rewrite Ha.
Qed.

Lemma withTag_appends σ self a tagName tagValue :
  annotators σ !! self = Some a →
  withTag self tagName tagValue σ
  = Some (Normal self,
          set_annotators
            (<[self := appended a (nl +:+ nl +:+ "@" +:+ tagName +:+ " " +:+ tagValue)]>) σ).
Proof.
  intros Ha. unfold withTag, bind, this_annotator, store_label.
  rewrite Ha. simpl. by rewrite Ha.
Qed.

Lemma withPreserveTypes_appends σ self a t :
  annotators σ !! self = Some a →
  getType (heap σ) a ≫= to_string = Some t →
  withPreserveTypes self σ
  = Some (Normal self,
          set_annotators (<[self := appended a (nl +:+ nl +:+ "@type " +:+ t)]>) σ).
Proof.
  intros Ha Ht. unfold withPreserveTypes, bind, this_annotator, get_state, store_label.
  rewrite Ha, Ht. simpl. by rewrite Ha.
Qed.

(** Whatever [withPreserveTypes] returns, it has appended a type line. *)
Lemma withPreserveTypes_inv σ self r σ' :
  withPreserveTypes self σ = Some (r, σ') →
  ∃ a t, annotators σ !! self = Some a
    ∧ getType (heap σ) a ≫= to_string = Some t
    ∧ r = Normal self
    ∧ σ' = set_annotators (<[self := appended a (nl +:+ nl +:+ "@type " +:+ t)]>) σ.
Proof.
  unfold withPreserveTypes, bind, this_annotator, get_state, store_label.
  destruct (annotators σ !! self) as [a|] eqn:Ha; [|done].
  destruct (getType (heap σ) a ≫= to_string) as [t|] eqn:Ht; [|done].
  simpl. rewrite Ha. intros [= <- <-]. by exists a, t.
Qed.

Lemma append_assoc (s1 s2 s3 : string) : (s1 +:+ s2) +:+ s3 = s1 +:+ s2 +:+ s3.
Proof.
  induction s1 as [|c s1 IH]; [done|].
  change (String c ((s1 +:+ s2) +:+ s3) = String c (s1 +:+ s2 +:+ s3)).
  by rewrite IH.
Qed.

Lemma append_empty_r (s : string) : s +:+ EmptyString = s.
Proof.
  induction s as [|c s IH]; [done|].
  change (String c (s +:+ EmptyString) = String c s). by rewrite IH.
Qed.

(** *** toString reads and does not write *)

Lemma toString_pure self σ r σ' : toString self σ = Some (r, σ') → σ' = σ.
Proof.
  unfold toString, bind, this_annotator, get_state.
  destruct (annotators σ !! self) as [a|]; [|done].
  destruct (truthy _); [|by intros [= <- <-]].
  unfold lift_option. destruct (getType (heap σ) a ≫= to_string); [|done].
  by intros [= <- <-].
Qed.

(** *** One client operation *)

Lemma bind_ret_inv {A} (m : M A) σ r σ' :
  (m ;;; ret tt) σ = Some (r, σ') → ∃ r0, m σ = Some (r0, σ').
Proof.
  unfold bind. destruct (m σ) as [[[a|e] σ1]|]; [| |done].
  - intros [= <- <-]. eauto.
  - intros [= <- <-]. eauto.
Qed.

(** The mutators of an instance leave the heap alone. *)
Lemma run_mutators_heap n cs σ σ' self :
  Forall (λ c, is_mutator c self) cs →
  run_trace native n cs σ = Some σ' →
  heap σ' = heap σ.
Proof.
  intros Hall. revert σ. induction Hall as [|c cs Hc _ IH]; intros σ Hrun;
    simpl in Hrun.
  - by injection Hrun as <-.
  - destruct (run_api native n c σ) as [[r σ1]|] eqn:Hr; [|done].
    rewrite (IH _ Hrun). destruct c; try done; simpl in Hr;
      apply bind_ret_inv in Hr as [r0 Hr].
    + unfold withDescription, bind, this_annotator, store_label in Hr.
      destruct (annotators σ !! self0) eqn:E; [|done]. simpl in Hr.
      rewrite E in Hr. by injection Hr as _ <-.
    + unfold withTag, bind, this_annotator, store_label in Hr.
      destruct (annotators σ !! self0) eqn:E; [|done]. simpl in Hr.
      rewrite E in Hr. by injection Hr as _ <-.
    + by apply withPreserveTypes_inv in Hr as (b & t & _ & _ & _ & ->).
Qed.

(** *** Writes and installed accessors *)

Lemma lookup_chain_written h l k x :
  is_Some (h !! l) →
  ∃ e c, lookup_chain (written l k x h) l k = Some (Some (Data x true e c)).
Proof.
  intros [ob Hl].
  destruct (written_lookup_own _ _ _ k x Hl) as (ob' & e & c & Hl' & Hk & _).
  exists e, c. by eapply lookup_chain_own.
Qed.

Lemma written_keeps h l k x l' ob' :
  h !! l' = Some ob' →
  ∃ ob'', written l k x h !! l' = Some ob''
    ∧ code_of ob'' = code_of ob'
    ∧ ∀ k', k' ≠ k → props ob'' !! k' = props ob' !! k'.
Proof.
  intros Hl'. destruct (decide (l' = l)) as [->|Hne].
  - destruct (written_lookup_own _ _ _ k x Hl') as (ob'' & e & c & H & _ & _ & _ & Hc & Hk).
    eauto.
  - rewrite written_lookup_ne by done. eauto.
Qed.

Lemma accessors_installed_written h self obj key g s l k x :
  accessors_installed h self obj key g s → k ≠ key →
  accessors_installed (written l k x h) self obj key g s.
Proof.
  intros (ob & gob & sob & Ho & Hk & Hg & Hgc & Hs & Hsc) Hne.
  destruct (written_keeps h l k x _ _ Ho) as (ob' & Ho' & _ & Hk').
  destruct (written_keeps h l k x _ _ Hg) as (gob' & Hg' & Hgc' & _).
  destruct (written_keeps h l k x _ _ Hs) as (sob' & Hs' & Hsc' & _).
  exists ob', gob', sob'. rewrite Hk' by done. repeat split; congruence.
Qed.

(** *** toString against the rendering of the specification *)

Lemma set_string_when_set (o : option string) (f : string → string) (s : string) :
  match set_string o with Some m => s +:+ f m | None => s end
  = s +:+ String.concat EmptyString (when_set o f).
Proof.
  unfold set_string, when_set. destruct o as [m|]; simpl.
  - destruct m; simpl; [by rewrite append_empty_r|done].
  - by rewrite append_empty_r.
Qed.

Lemma concat_empty_app (l1 l2 : list string) :
  String.concat EmptyString (l1 ++ l2)
  = String.concat EmptyString l1 +:+ String.concat EmptyString l2.
Proof.
  induction l1 as [|x l1 IH]; [done|].
  change (String.concat EmptyString ((x :: l1) ++ l2))
    with (String.concat EmptyString (x :: (l1 ++ l2))).
  destruct l1 as [|y l1].
  - destruct l2; simpl; [by rewrite append_empty_r|done].
  - change (String.concat EmptyString (x :: (y :: l1) ++ l2))
      with (x +:+ String.concat EmptyString ((y :: l1) ++ l2)).
    rewrite IH.
    change (String.concat EmptyString (x :: y :: l1))
      with (x +:+ String.concat EmptyString (y :: l1)).
    by rewrite append_assoc.
Qed.

Lemma formatTags_block a :
  formatTags a = String.concat nl (tag_line <$> default [] (tags (options a))).
Proof.
  unfold formatTags. destruct (tags (options a)) as [entries|]; [|done].
  simpl. f_equal. apply map_ext. by intros [name value].
Qed.

(** The string [toString] builds is the rendering. *)
Lemma toString_rendering a t :
  let label1 :=
    match set_string (message (options a)) with
    | Some message => label a +:+ " (" +:+ message +:+ ")"
    | None => label a
    end in
  let label2 :=
    match set_string (description (options a)) with
    | Some description => label1 +:+ nl +:+ nl +:+ description
    | None => label1
    end in
  let label3 := label2 +:+ nl +:+ nl +:+ formatTags a in
  (if truthy (preserveTypes (options a))
   then label3 +:+ nl +:+ nl +:+ "@type " +:+ t else label3)
  = rendering a t.
Proof.
  intros label1 label2 label3. unfold rendering.
  rewrite !concat_empty_app.
  subst label3 label2 label1.
  rewrite (set_string_when_set _ (λ m, " (" +:+ m +:+ ")")).
  rewrite (set_string_when_set _ (λ d, nl +:+ nl +:+ d)).
  rewrite formatTags_block.
  destruct (truthy _); simpl; rewrite ?append_empty_r, ?append_assoc; done.
Qed.

(** Lines 72-74: a target that is not a function, without a key, is
    stamped itself and handed back. *)
Lemma decorate_object n σ self a target tob :
  annotators σ !! self = Some a →
  heap σ !! target = Some tob →
  code_of tob = None →
  accepts_write (heap σ) target "__doc__" = true →
  decorate native n self target None σ
  = Some (Normal (RValue (VObject target)),
          set_heap (written target "__doc__" (VString (label a))) σ).
Proof.
  intros Ha Ht Hc Hacc. unfold decorate, bind, get_state.
  unfold callable. rewrite Ht, Hc. simpl.
  unfold label_of. rewrite Ha. unfold assign. by rewrite js_set_accepts.
Qed.

Lemma append_same_inv (s t : string) : s +:+ t = s → t = EmptyString.
Proof.
  induction s as [|c s IH]; [done|].
  change (String c (s +:+ t) = String c s → t = EmptyString).
  intros [= H]. auto.
Qed.

End Properties.

(** ** Lemmas on instances in the heap *)

Lemma slot_lookup h l k p :
  Obj.slot h l k = Some p ↔ ∃ ob, h !! l = Some ob ∧ props ob !! k = Some p.
Proof.
  unfold Obj.slot. destruct (h !! l) as [ob|]; simpl.
  - split; [by eauto|]. by intros (? & [= <-] & ?).
  - split; [done|]. by intros (? & ? & _).
Qed.

Lemma slot_alloc h l k p ob :
  Obj.slot h l k = Some p →
  Obj.slot (<[fresh (dom h) := ob]> h) l k = Some p.
Proof.
  intros H. pose proof (fresh_lookup_None h) as Hf.
  apply slot_lookup in H as (ob' & Hl & Hk).
  apply slot_lookup. exists ob'. split; [|done].
  rewrite lookup_insert_ne; [done|congruence].
Qed.

Lemma slot_update_ne h l l' ob k k' p :
  h !! l' = Some ob → l' ≠ l ∨ k' ≠ k →
  Obj.slot (<[l' := set_props (<[k' := p]>) ob]> h) l k = Obj.slot h l k.
Proof.
  intros Hl Hne. unfold Obj.slot. destruct (decide (l' = l)) as [->|Hll].
  - rewrite lookup_insert_eq, Hl. simpl.
    destruct Hne as [|Hk]; [done|]. by rewrite lookup_insert_ne.
  - by rewrite lookup_insert_ne.
Qed.

Lemma slot_written_ne h l l' k k' x :
  l' ≠ l ∨ k' ≠ k → Obj.slot (written l' k' x h) l k = Obj.slot h l k.
Proof.
  intros Hne. unfold written. destruct (h !! l') as [ob|] eqn:Hl; [|done].
  by apply slot_update_ne.
Qed.

Lemma slot_written h l k v w e c x :
  Obj.slot h l k = Some (Data v w e c) →
  Obj.slot (written l k x h) l k = Some (Data x true e c).
Proof.
  intros H. apply slot_lookup in H as (ob & Hl & Hk).
  unfold written, Obj.slot. rewrite Hl, Hk, lookup_insert_eq. simpl.
  by rewrite lookup_insert_eq.
Qed.

Lemma accepts_write_slot h l k v e c :
  Obj.slot h l k = Some (Data v true e c) → accepts_write h l k = true.
Proof.
  intros H. apply slot_lookup in H as (ob & Hl & Hk).
  unfold accepts_write. by rewrite (lookup_chain_own _ _ _ _ _ Hl Hk), Hl, Hk.
Qed.

Lemma read_data_slot h l k v w e c :
  Obj.slot h l k = Some (Data v w e c) → read_data h (VObject l) k = Some v.
Proof.
  intros H. apply slot_lookup in H as (ob & Hl & Hk).
  unfold read_data. by rewrite (lookup_chain_own _ _ _ _ _ Hl Hk).
Qed.

Lemma bind_normal {A B} (m : M A) (f : A → M B) σ a σ' :
  m σ = Some (Normal a, σ') → bind m f σ = f a σ'.
Proof. intros H. unfold bind. by rewrite H. Qed.

Lemma bind_throw {A B} (m : M A) (f : A → M B) σ e σ' :
  m σ = Some (Throw e, σ') → bind m f σ = Some (Throw e, σ').
Proof. intros H. unfold bind. by rewrite H. Qed.

(** A plain [preserveTypes] value resolves to a string. *)
Lemma plain_type_resolves h v :
  Obj.plain_type h v = true → ∃ name, type_name h v = Some (VString name).
Proof.
  unfold Obj.plain_type, type_name. destruct v as [| |[]|[]| | |z|l];
    try (simpl; by eexists).
  - intros _. simpl. destruct (z =? 0)%Z; by eexists.
  - assert (Hty : or_else (types !! typeof h (VObject l)) "unknown" = "unknown").
    { simpl. by destruct (callable h l). }
    rewrite Hty.
    change (("unknown" =? "unknown")%string && truthy (VObject l)) with true.
    cbv iota.
    destruct (read_data h (VObject l) "constructor") as [c|]; [|done].
    destruct (truthy c && (typeof h c =? "function")%string); [|by eexists].
    destruct (read_data h c "name") as [[]|]; try done. by eexists.
Qed.

Lemma slot_written_new h l ob k x :
  h !! l = Some ob → props ob !! k = None →
  Obj.slot (written l k x h) l k = Some (Data x true true true).
Proof.
  intros Hl Hk. unfold written, Obj.slot. rewrite Hl, Hk, lookup_insert_eq. simpl.
  by rewrite lookup_insert_eq.
Qed.

Lemma accepts_write_new h l ob k :
  h !! l = Some ob → props ob !! k = None → extensible ob = true →
  lookup_chain h l k = Some None →
  accepts_write h l k = true.
Proof. intros Hl Hk He Hc. unfold accepts_write. by rewrite Hc, Hl, Hk. Qed.

Section InstanceProperties.

Variable native :
  nat → value → list value → gmap loc object
  → option (completion value * gmap loc object).

(** A read of plain data returns it and changes nothing. *)
Lemma read_plain n σ v k x :
  read_data (heap σ) v k = Some x →
  read native n v k σ = Some (Normal x, σ).
Proof.
  unfold read_data, read, js_get. destruct v; try done.
  destruct (lookup_chain (heap σ) l k) as [[[]|]|]; try done; by intros [= ->].
Qed.

Lemma read_slot n σ l k v w e c :
  Obj.slot (heap σ) l k = Some (Data v w e c) →
  read native n (VObject l) k σ = Some (Normal v, σ).
Proof. intros H. eapply read_plain, read_data_slot, H. Qed.

Lemma assign_slot n σ l k v e c x :
  Obj.slot (heap σ) l k = Some (Data v true e c) →
  assign native n (VObject l) k x σ = Some (Normal tt, set_heap (written l k x) σ).
Proof. intros H. apply js_set_accepts. eapply accepts_write_slot, H. Qed.

(** *** What leaves the label of an instance alone *)

Section Frame.

Variable this : loc.
Variable p : property.
Hypothesis native_leaves : Obj.leaves native this "label".

Lemma keeps_slot_bind {A B} (m : M A) (f : A → M B) :
  Obj.keeps_slot this "label" p m → (∀ a, Obj.keeps_slot this "label" p (f a)) →
  Obj.keeps_slot this "label" p (bind m f).
Proof.
  intros Hm Hf σ r σ' H Hs. unfold bind in H.
  destruct (m σ) as [[[a|e] σ1]|] eqn:E; [|injection H as <- <-|done].
  - eapply Hf; [exact H|]. by eapply Hm.
  - by eapply Hm.
Qed.

Lemma keeps_slot_ret {A} (a : A) : Obj.keeps_slot this "label" p (ret a).
Proof. by intros σ r σ' [= <- <-]. Qed.

Lemma keeps_slot_throw {A} e : Obj.keeps_slot this "label" p (@throw A e).
Proof. by intros σ r σ' [= <- <-]. Qed.

Lemma keeps_slot_lift_option {A} (o : option A) :
  Obj.keeps_slot this "label" p (lift_option o).
Proof. destruct o; [apply keeps_slot_ret|done]. Qed.

Lemma keeps_slot_get_state : Obj.keeps_slot this "label" p get_state.
Proof. by intros σ r σ' [= <- <-]. Qed.

Lemma keeps_slot_alloc ob : Obj.keeps_slot this "label" p (alloc ob).
Proof. intros σ r σ' [= <- <-] Hs. simpl. by apply slot_alloc. Qed.

Lemma keeps_slot_write_own l k x :
  l ≠ this ∨ k ≠ "label" → Obj.keeps_slot this "label" p (write_own l k x).
Proof.
  intros Hne σ r σ'. unfold write_own.
  destruct (heap σ !! l) as [ob|] eqn:Hl; [|done].
  destruct (props ob !! k) as [[? [] ? ?|]|]; try (by intros [= <- <-]).
  - intros [= <- <-] Hs. simpl. by rewrite slot_update_ne.
  - destruct (extensible ob); intros [= <- <-] Hs; [|done].
    simpl. by rewrite slot_update_ne.
Qed.

Lemma keeps_slot_define_property l k d :
  l ≠ this ∨ k ≠ "label" → Obj.keeps_slot this "label" p (define_property l k d).
Proof.
  intros Hne σ r σ'. unfold define_property.
  destruct (heap σ !! l) as [ob|] eqn:Hl; [|done].
  destruct (_ || _); [by intros [= <- <-]|].
  destruct (validate_and_apply _ _ _); intros [= <- <-] Hs; [|done].
  simpl. by rewrite slot_update_ne.
Qed.

Lemma keeps_slot_run_native id v args :
  Obj.keeps_slot this "label" p (run_native native id v args).
Proof.
  intros σ r σ'. unfold run_native.
  destruct (native _ _ _ _) as [[c h]|] eqn:E; [|done].
  intros [= <- <-] Hs. simpl. by rewrite (native_leaves _ _ _ _ _ _ E).
Qed.

Section FrameWithCall.

Variable callf : loc → value → list value → M value.
Hypothesis callf_keeps : ∀ f v args, Obj.keeps_slot this "label" p (callf f v args).

Lemma keeps_slot_js_get v k : Obj.keeps_slot this "label" p (js_get callf v k).
Proof.
  intros σ r σ'. unfold js_get.
  destruct v; try (by intros [= <- <-]);
    try (destruct (String.eqb _ _); by intros [= <- <-]).
  destruct (lookup_chain _ _ _) as [[[|[] ? ? ?]|]|];
    try done; try by intros [= <- <-].
  apply callf_keeps.
Qed.

Lemma keeps_slot_js_set v k x :
  k ≠ "label" ∨ v ≠ VObject this →
  Obj.keeps_slot this "label" p (js_set callf v k x).
Proof.
  intros Hne σ r σ'. unfold js_set.
  destruct v; try by intros [= <- <-].
  assert (Hw : Obj.keeps_slot this "label" p (write_own l k x)).
  { apply keeps_slot_write_own. destruct Hne as [|Hv]; [by right|].
    left. congruence. }
  destruct (lookup_chain _ _ _) as [[[? []|? []]|]|];
    try done; try (by intros [= <- <-]); try apply Hw.
  apply keeps_slot_bind; [apply callf_keeps|].
  intros _. apply keeps_slot_ret.
Qed.

Lemma keeps_slot_label_of self : Obj.keeps_slot this "label" p (label_of callf self).
Proof.
  intros σ r σ'. unfold label_of.
  destruct (annotators σ !! self); [by intros [= <- <-]|].
  apply keeps_slot_js_get.
Qed.

Lemma keeps_slot_run_code c v args :
  Obj.keeps_slot this "label" p (run_code native callf c v args).
Proof.
  destruct c; simpl.
  - apply keeps_slot_run_native.
  - apply keeps_slot_throw.
  - apply callf_keeps.
  - apply keeps_slot_bind; [apply keeps_slot_label_of|].
    intros doc. apply keeps_slot_bind; [apply keeps_slot_js_set; by left|].
    intros _. apply callf_keeps.
  - apply keeps_slot_js_get.
  - apply keeps_slot_bind; [apply keeps_slot_js_set; by left|].
    intros _. apply keeps_slot_bind; [apply keeps_slot_label_of|].
    intros doc. apply keeps_slot_bind; [apply keeps_slot_js_set; by left|].
    intros _. apply keeps_slot_ret.
  - done.
Qed.

End FrameWithCall.

(** No call, however deep, writes the label of an instance: the
    closures of [decorate] write [__doc__] and shadow fields only. *)
Lemma keeps_slot_call n f v args :
  Obj.keeps_slot this "label" p (call native n f v args).
Proof.
  revert f v args. induction n as [|n IH]; intros f v args σ r σ'; [done|].
  simpl. destruct (heap σ !! f) as [ob|]; [|done].
  destruct (code_of ob) as [c|]; [|by intros [= <- <-]].
  by apply keeps_slot_run_code.
Qed.

Lemma keeps_slot_read n v k : Obj.keeps_slot this "label" p (read native n v k).
Proof. apply keeps_slot_js_get, keeps_slot_call. Qed.

Lemma keeps_slot_assign n v k x :
  k ≠ "label" ∨ v ≠ VObject this →
  Obj.keeps_slot this "label" p (assign native n v k x).
Proof. intros H. apply keeps_slot_js_set; [apply keeps_slot_call|done]. Qed.

Lemma keeps_slot_define_accessors self target key :
  target ≠ this ∨ key ≠ "label" →
  Obj.keeps_slot this "label" p (define_accessors self target key).
Proof.
  intros Hne. unfold define_accessors.
  apply keeps_slot_bind; [apply keeps_slot_alloc|]. intros g.
  apply keeps_slot_bind; [apply keeps_slot_alloc|]. intros s.
  apply keeps_slot_bind; [by apply keeps_slot_define_property|].
  intros _. apply keeps_slot_ret.
Qed.

Lemma keeps_slot_decorate n self target key :
  target ≠ this ∨ key ≠ Some "label" →
  Obj.keeps_slot this "label" p (decorate native n self target key).
Proof.
  intros Hne. unfold decorate.
  apply keeps_slot_bind; [apply keeps_slot_get_state|]. intros σ0.
  destruct (_ && _).
  - apply keeps_slot_bind; [apply keeps_slot_alloc|]. intros w.
    apply keeps_slot_bind; [apply keeps_slot_label_of, keeps_slot_call|]. intros doc.
    apply keeps_slot_bind; [apply keeps_slot_assign; by left|]. intros _.
    apply keeps_slot_ret.
  - destruct key as [key|].
    + assert (Hk : target ≠ this ∨ key ≠ "label").
      { destruct Hne as [|Hk]; [by left|]. right. congruence. }
      apply keeps_slot_bind; [apply keeps_slot_lift_option|].
      intros [d|]; [|by apply keeps_slot_define_accessors].
      destruct (d_value d) as [[]|]; try by apply keeps_slot_define_accessors.
      destruct (callable _ _); [|by apply keeps_slot_define_accessors].
      apply keeps_slot_bind; [apply keeps_slot_alloc|]. intros w.
      apply keeps_slot_ret.
    + apply keeps_slot_bind; [apply keeps_slot_label_of, keeps_slot_call|]. intros doc.
      apply keeps_slot_bind; [apply keeps_slot_assign; by left|]. intros _.
      apply keeps_slot_ret.
Qed.

Lemma keeps_slot_convert v : Obj.keeps_slot this "label" p (Obj.convert v).
Proof.
  unfold Obj.convert. destruct v; try apply keeps_slot_lift_option.
  apply keeps_slot_throw.
Qed.

Lemma keeps_slot_plus v s : Obj.keeps_slot this "label" p (Obj.plus v s).
Proof.
  apply keeps_slot_bind; [apply keeps_slot_convert|]. intros l. apply keeps_slot_ret.
Qed.

Lemma keeps_slot_preserveTypes_of n l :
  Obj.keeps_slot this "label" p (Obj.preserveTypes_of native n l).
Proof.
  apply keeps_slot_bind; [apply keeps_slot_read|]. intros o. apply keeps_slot_read.
Qed.

Lemma keeps_slot_getType n l : Obj.keeps_slot this "label" p (Obj.getType native n l).
Proof.
  apply keeps_slot_bind; [apply keeps_slot_preserveTypes_of|]. intros v.
  apply keeps_slot_bind; [apply keeps_slot_get_state|]. intros σ.
  apply keeps_slot_lift_option.
Qed.

Lemma keeps_slot_call_method n l name body :
  Obj.keeps_slot this "label" p body →
  Obj.keeps_slot this "label" p (Obj.call_method native n l name body).
Proof.
  intros Hb. unfold Obj.call_method.
  apply keeps_slot_bind; [apply keeps_slot_read|]. intros f.
  apply keeps_slot_bind; [apply keeps_slot_get_state|]. intros σ.
  destruct f; try apply keeps_slot_throw.
  destruct (heap σ !! l0) as [ob|]; [|done].
  destruct (code_of ob) as [[]|]; try apply keeps_slot_call; try apply keeps_slot_throw.
  by destruct (String.eqb _ _).
Qed.

Lemma keeps_slot_collect n t ks :
  Obj.keeps_slot this "label" p (Obj.collect native n t ks).
Proof.
  induction ks as [|k ks IH]; simpl; [apply keeps_slot_ret|].
  apply keeps_slot_bind; [apply keeps_slot_get_state|]. intros σ.
  destruct (_ ≫= _) as [q|]; [|done]. destruct (enumerable_of q); [|done].
  apply keeps_slot_bind; [apply keeps_slot_read|]. intros v.
  apply keeps_slot_bind; [done|]. intros rest. apply keeps_slot_ret.
Qed.

Lemma keeps_slot_entries own_keys n v :
  Obj.keeps_slot this "label" p (Obj.entries native own_keys n v).
Proof.
  destruct v; simpl; try apply keeps_slot_ret; try apply keeps_slot_throw.
  apply keeps_slot_bind; [apply keeps_slot_get_state|]. intros σ.
  apply keeps_slot_bind; [apply keeps_slot_lift_option|]. intros ob.
  apply keeps_slot_collect.
Qed.

Lemma keeps_slot_tag_lines es : Obj.keeps_slot this "label" p (Obj.tag_lines es).
Proof.
  induction es as [|[name value] es IH]; simpl; [apply keeps_slot_ret|].
  apply keeps_slot_bind; [apply keeps_slot_convert|]. intros v.
  apply keeps_slot_bind; [done|]. intros rest. apply keeps_slot_ret.
Qed.

Lemma keeps_slot_formatTags own_keys n l :
  Obj.keeps_slot this "label" p (Obj.formatTags native own_keys n l).
Proof.
  apply keeps_slot_bind; [apply keeps_slot_read|]. intros o.
  apply keeps_slot_bind; [apply keeps_slot_read|]. intros tags.
  destruct (negb _); [apply keeps_slot_ret|].
  apply keeps_slot_bind; [apply keeps_slot_entries|]. intros es.
  apply keeps_slot_bind; [apply keeps_slot_tag_lines|]. intros lines.
  apply keeps_slot_ret.
Qed.

Lemma keeps_slot_type_suffix n l :
  Obj.keeps_slot this "label" p
    (t <-- Obj.call_method native n l "getType" (Obj.getType native n l) ;;
     t <-- Obj.convert t ;;
     ret (nl +:+ nl +:+ "@type " +:+ t)).
Proof.
  apply keeps_slot_bind; [apply keeps_slot_call_method, keeps_slot_getType|].
  intros t. apply keeps_slot_bind; [apply keeps_slot_convert|]. intros t'.
  apply keeps_slot_ret.
Qed.

(** [toString] writes nothing. *)
Lemma keeps_slot_toString own_keys n l :
  Obj.keeps_slot this "label" p (Obj.toString native own_keys n l).
Proof.
  apply keeps_slot_bind; [apply keeps_slot_read|]. intros o.
  apply keeps_slot_bind; [apply keeps_slot_read|]. intros message.
  apply keeps_slot_bind; [apply keeps_slot_read|]. intros description.
  apply keeps_slot_bind; [apply keeps_slot_read|]. intros label.
  apply keeps_slot_bind.
  { destruct (truthy message); [|apply keeps_slot_ret].
    apply keeps_slot_bind; [apply keeps_slot_convert|]. intros m.
    apply keeps_slot_plus. }
  intros label1. apply keeps_slot_bind.
  { destruct (truthy description); [|apply keeps_slot_ret].
    apply keeps_slot_bind; [apply keeps_slot_convert|]. intros d.
    apply keeps_slot_plus. }
  intros label2.
  apply keeps_slot_bind; [apply keeps_slot_call_method, keeps_slot_formatTags|].
  intros tags.
  apply keeps_slot_bind; [apply keeps_slot_convert|]. intros tags'.
  apply keeps_slot_bind; [apply keeps_slot_plus|]. intros label3.
  apply keeps_slot_bind; [apply keeps_slot_preserveTypes_of|]. intros v.
  destruct (truthy v); [|apply keeps_slot_ret].
  apply keeps_slot_bind; [apply keeps_slot_call_method, keeps_slot_getType|].
  intros t.
  apply keeps_slot_bind; [apply keeps_slot_convert|]. intros t'.
  apply keeps_slot_plus.
Qed.

(** A mutator on another instance. *)
Lemma keeps_slot_add_to_label n l suffix :
  l ≠ this → Obj.keeps_slot this "label" p suffix →
  Obj.keeps_slot this "label" p (Obj.add_to_label native n l suffix).
Proof.
  intros Hne Hs. unfold Obj.add_to_label.
  apply keeps_slot_bind; [apply keeps_slot_read|]. intros label.
  apply keeps_slot_bind; [done|]. intros sfx.
  apply keeps_slot_bind; [apply keeps_slot_convert|]. intros label'.
  apply keeps_slot_assign. right. congruence.
Qed.

(** The constructor writes to the object it has just made. *)
Lemma keeps_slot_construct prototype n lbl options :
  Obj.keeps_slot this "label" p (Obj.construct native prototype n lbl options).
Proof.
  intros σ r σ' H Hs. unfold Obj.construct in H.
  unfold bind at 1 in H. unfold alloc at 1 in H.
  pose proof (fresh_lookup_None (heap σ)) as Hf.
  assert (Hne : fresh (dom (heap σ)) ≠ this).
  { intros E. apply slot_lookup in Hs as (ob & Hl & _). congruence. }
  lazymatch type of H with
  | ?m ?s = _ => assert (Hrest : Obj.keeps_slot this "label" p m)
  end.
  { apply keeps_slot_bind.
    - destruct options; try apply keeps_slot_ret.
      apply keeps_slot_bind; [apply keeps_slot_alloc|]. intros o. apply keeps_slot_ret.
    - intros o.
      apply keeps_slot_bind; [apply keeps_slot_assign; right; congruence|]. intros _.
      apply keeps_slot_bind; [apply keeps_slot_assign; right; congruence|]. intros _.
      apply keeps_slot_ret. }
  eapply Hrest; [exact H|]. simpl. by apply slot_alloc.
Qed.

End Frame.

(** *** The methods on an instance that is as the constructor made it *)

(** The compound assignment on a label that is as the constructor made
    it, with a suffix that is computed without effect. *)
Lemma add_to_label_appends n σ this s e c suffix sfx :
  Obj.slot (heap σ) this "label" = Some (Data (VString s) true e c) →
  suffix σ = Some (Normal sfx, σ) →
  Obj.add_to_label native n this suffix σ
  = Some (Normal tt, set_heap (written this "label" (VString (s +:+ sfx))) σ).
Proof.
  intros Hs Hsfx. unfold Obj.add_to_label.
  unfold bind at 1. rewrite (read_slot _ _ _ _ _ _ _ _ Hs).
  unfold bind at 1. rewrite Hsfx.
  unfold bind at 1. simpl.
  by apply (assign_slot _ _ _ _ _ _ _ _ Hs).
Qed.

Lemma getType_plain n σ this o v t :
  Obj.holds_options (heap σ) this o →
  read_data (heap σ) (VObject o) "preserveTypes" = Some v →
  type_name (heap σ) v = Some t →
  Obj.getType native n this σ = Some (Normal t, σ).
Proof.
  intros (w & e & c & Ho) Hv Ht. unfold Obj.getType, Obj.preserveTypes_of.
  unfold bind at 1. unfold bind at 1. rewrite (read_slot _ _ _ _ _ _ _ _ Ho).
  rewrite (read_plain _ _ _ _ _ Hv). unfold bind, get_state. by rewrite Ht.
Qed.

(** A call the class makes on [this] finds its method. *)
Lemma call_method_plain n σ this name body :
  Obj.has_method (heap σ) this name →
  Obj.call_method native n this name body σ = body σ.
Proof.
  intros (l & ob & Hr & Hl & Hc). unfold Obj.call_method.
  erewrite bind_normal; [|by eapply read_plain].
  unfold bind, get_state. rewrite Hl, Hc. by rewrite String.eqb_refl.
Qed.

Lemma preserveTypes_of_plain n σ this o v :
  Obj.holds_options (heap σ) this o →
  read_data (heap σ) (VObject o) "preserveTypes" = Some v →
  Obj.preserveTypes_of native n this σ = Some (Normal v, σ).
Proof.
  intros (w & e & c & Ho) Hv. unfold Obj.preserveTypes_of.
  unfold bind at 1. rewrite (read_slot _ _ _ _ _ _ _ _ Ho).
  by apply read_plain.
Qed.

Lemma withDescription_on_appends n σ this s description :
  Obj.holds_label (heap σ) this s →
  Obj.withDescription native n this description σ
  = Some (Normal this,
          set_heap (written this "label" (VString (s +:+ nl +:+ nl +:+ description))) σ).
Proof.
  intros (e & c & Hs). unfold Obj.withDescription.
  erewrite bind_normal; [done|]. by eapply add_to_label_appends.
Qed.

Lemma withTag_on_appends n σ this s tagName tagValue :
  Obj.holds_label (heap σ) this s →
  Obj.withTag native n this tagName tagValue σ
  = Some (Normal this,
          set_heap (written this "label"
                      (VString (s +:+ nl +:+ nl +:+ "@" +:+ tagName +:+ " " +:+ tagValue))) σ).
Proof.
  intros (e & c & Hs). unfold Obj.withTag.
  erewrite bind_normal; [done|]. by eapply add_to_label_appends.
Qed.

Lemma withPreserveTypes_on_appends n σ this s o v name :
  Obj.holds_label (heap σ) this s →
  Obj.has_method (heap σ) this "getType" →
  Obj.holds_options (heap σ) this o →
  read_data (heap σ) (VObject o) "preserveTypes" = Some v →
  type_name (heap σ) v = Some (VString name) →
  Obj.withPreserveTypes native n this σ
  = Some (Normal this,
          set_heap (written this "label" (VString (s +:+ nl +:+ nl +:+ "@type " +:+ name))) σ).
Proof.
  intros (e & c & Hs) Hm Ho Hv Ht. unfold Obj.withPreserveTypes.
  erewrite bind_normal; [done|]. eapply add_to_label_appends; [done|].
  erewrite bind_normal;
    [|rewrite call_method_plain by done; by eapply getType_plain]. done.
Qed.

(** After a mutator the label is as the constructor made it, still. *)
Lemma holds_label_written h this s x :
  Obj.holds_label h this s → Obj.holds_label (written this "label" (VString x) h) this x.
Proof. intros (e & c & Hs). exists e, c. by eapply slot_written. Qed.

(** *** The constructor *)

(** On a heap [h] where the new object [this], still empty, finds
    neither [options] nor [label] on its chain, the two assignments of
    the constructor are plain writes. *)
Lemma construct_writes n σ this ob lbl options :
  heap σ !! this = Some ob → props ob = ∅ → extensible ob = true →
  lookup_chain (heap σ) this "options" = Some None →
  lookup_chain (heap σ) this "label" = Some None →
  (assign native n (VObject this) "options" options ;;;
   assign native n (VObject this) "label" (VString lbl) ;;;
   ret this) σ
  = Some (Normal this,
          set_heap (written this "label" (VString lbl)
                    ∘ written this "options" options) σ).
Proof.
  intros Hl Hp He Ho Hlb.
  erewrite bind_normal; cycle 1.
  { apply js_set_accepts. eapply accepts_write_new; [done| |done|done].
    by rewrite Hp. }
  erewrite bind_normal; cycle 1.
  { apply js_set_accepts. simpl. rewrite accepts_write_written_ne by done.
    eapply accepts_write_new; [done| |done|done]. by rewrite Hp. }
  done.
Qed.

Lemma construct_returns prototype n σ lbl options :
  lookup_chain (heap σ) prototype "options" = Some None →
  lookup_chain (heap σ) prototype "label" = Some None →
  ∃ this σ',
    Obj.construct native prototype n lbl options σ = Some (Normal this, σ')
    ∧ Obj.constructed (heap σ) (heap σ') this lbl options
    ∧ (∀ l, is_Some (heap σ !! l) → heap σ' !! l = heap σ !! l)
    ∧ annotators σ' = annotators σ.
Proof.
  intros Ho Hlb. unfold Obj.construct.
  pose proof (fresh_lookup_None (heap σ)) as Hf.
  set (this := fresh (dom (heap σ))) in *.
  set (new := {| proto := Some prototype; extensible := true; code_of := None;
                 props := ∅ |}).
  set (h1 := <[this := new]> (heap σ)).
  assert (Hc1 : ∀ k, lookup_chain (heap σ) prototype k = Some None →
                     lookup_chain h1 this k = Some None).
  { intros k Hk. by apply lookup_chain_fresh. }
  assert (Hfinal : ∀ h2 o,
            h2 !! this = Some new →
            lookup_chain h2 this "options" = Some None →
            lookup_chain h2 this "label" = Some None →
            (∀ l, is_Some (heap σ !! l) → h2 !! l = heap σ !! l) →
            let h3 := written this "label" (VString lbl) (written this "options" o h2) in
            Obj.slot h3 this "label" = Some (Data (VString lbl) true true true)
            ∧ Obj.slot h3 this "options" = Some (Data o true true true)
            ∧ (∀ l, l ≠ this → h3 !! l = h2 !! l)
            ∧ (∀ l, is_Some (heap σ !! l) → h3 !! l = heap σ !! l)).
  { intros h2 o H2 _ _ Hold h3.
    destruct (written_lookup_own h2 this new "options" o H2)
      as (ob' & e & c & Hl' & Hk' & _ & _ & _ & Hother).
    split; [|split; [|split]].
    - subst h3. eapply slot_written_new; [exact Hl'|]. by rewrite Hother.
    - subst h3. rewrite slot_written_ne by (by right).
      by eapply slot_written_new.
    - intros l Hne. subst h3. by rewrite !written_lookup_ne.
    - intros l Hl. subst h3. rewrite !written_lookup_ne; [by apply Hold| |];
        intros ->; destruct Hl as [? Hl]; congruence. }
  unfold bind at 1. unfold alloc at 1.
  change (set_heap _ σ) with {| heap := h1; annotators := annotators σ |}.
  assert (H1 : h1 !! this = Some new) by (subst h1; by rewrite lookup_insert_eq).
  assert (Hold1 : ∀ l, is_Some (heap σ !! l) → h1 !! l = heap σ !! l).
  { intros l [? Hl]. subst h1. rewrite lookup_insert_ne; [done|congruence]. }
  destruct (decide (options = VUndefined)) as [->|Hne].
  - pose proof (fresh_lookup_None h1) as Hf2.
    set (o := fresh (dom h1)) in *.
    set (h2 := <[o := plain_object]> h1).
    assert (Hot : o ≠ this) by congruence.
    assert (H2 : h2 !! this = Some new).
    { subst h2. by rewrite lookup_insert_ne. }
    assert (Hold2 : ∀ l, is_Some (heap σ !! l) → h2 !! l = heap σ !! l).
    { intros l Hl. subst h2. rewrite lookup_insert_ne; [by apply Hold1|].
      intros <-. rewrite Hold1 in Hf2 by done. destruct Hl as [? Hl]. congruence. }
    destruct (Hfinal h2 (VObject o) H2) as (F1 & F2 & F3 & F4);
      [by apply lookup_chain_alloc, Hc1..|done|].
    eexists this, _.
    unfold bind at 1. unfold bind at 1. unfold alloc. simpl.
    change (set_heap _ _) with {| heap := h2; annotators := annotators σ |}.
    rewrite (construct_writes n {| heap := h2; annotators := annotators σ |} this new);
      [|done|done|done|by apply lookup_chain_alloc, Hc1..].
    split; [done|]. split; [|done]. simpl.
    split; [done|]. split; [done|]. exists (VObject o). split; [done|].
    exists o. split; [done|]. split.
    + destruct (heap σ !! o) eqn:E; [|done].
      rewrite <-(Hold1 o) in E by eauto. congruence.
    + rewrite F3 by done. subst h2. by rewrite lookup_insert_eq.
  - destruct (Hfinal h1 options H1) as (F1 & F2 & F3 & F4); [by apply Hc1..|done|].
    eexists this, _.
    assert (Hopt : (match options with
                    | VUndefined => o <-- alloc plain_object ;; ret (VObject o)
                    | _ => ret options
                    end) = ret options) by (by destruct options).
    rewrite Hopt. unfold bind at 1. simpl.
    rewrite (construct_writes n {| heap := h1; annotators := annotators σ |} this new);
      [|done|done|done|by apply Hc1..].
    split; [done|]. split; [|done]. simpl.
    split; [done|]. split; [done|]. exists options. split; [done|].
    by destruct options.
Qed.

(** *** [toString] on plain options *)

Lemma collect_strings n σ t ob ks :
  heap σ !! t = Some ob →
  (∀ k q, props ob !! k = Some q → ∃ s w e c, q = Data (VString s) w e c) →
  ∃ es, Obj.collect native n t ks σ = Some (Normal es, σ)
        ∧ Forall (λ kv, ∃ s, kv.2 = VString s) es.
Proof.
  intros Ht Hall. induction ks as [|k ks (es & IH & Hes)]; simpl.
  - by exists [].
  - unfold bind at 1, get_state. rewrite Ht. simpl.
    destruct (props ob !! k) as [q|] eqn:Hk; [|by eauto].
    destruct (Hall k q Hk) as (s & w & e & c & ->). simpl.
    destruct e; [|by eauto].
    erewrite bind_normal; [|by eapply read_own_data].
    erewrite bind_normal; [|exact IH].
    eexists. split; [done|]. constructor; [by eexists|done].
Qed.

Lemma tag_lines_strings σ es :
  Forall (λ kv : string * value, ∃ s, kv.2 = VString s) es →
  ∃ lines, Obj.tag_lines es σ = Some (Normal lines, σ).
Proof.
  induction 1 as [|[name v] es [s Hv] _ [lines IH]]; simpl; [by eexists|].
  simpl in Hv. subst v. unfold bind at 1. simpl.
  erewrite bind_normal; [|exact IH]. by eexists.
Qed.

Lemma formatTags_plain own_keys n σ this o v :
  Obj.holds_options (heap σ) this o →
  read_data (heap σ) (VObject o) "tags" = Some v →
  Obj.optional_tags (heap σ) v →
  ∃ s, Obj.formatTags native own_keys n this σ = Some (Normal (VString s), σ)
       ∧ (v = VUndefined → s = EmptyString).
Proof.
  intros (w & e & c & Ho) Hv Htags. unfold Obj.formatTags.
  erewrite bind_normal; [|by eapply read_slot].
  erewrite bind_normal; [|by eapply read_plain].
  destruct v as [| | | | | | |t]; try done; simpl.
  - by eexists.
  - destruct Htags as (ob & Ht & Hall).
    unfold bind at 1. unfold bind at 1, get_state. unfold bind at 1. rewrite Ht. simpl.
    destruct (collect_strings n σ t ob (own_keys (props ob)) Ht Hall) as (es & -> & Hes).
    destruct (tag_lines_strings σ es Hes) as (lines & Hl).
    erewrite bind_normal; [|exact Hl]. by eexists.
Qed.

(** The conditional suffix of lines 140-146 on an optional string. *)
Lemma optional_suffix σ s v (f : string → string) :
  Obj.optional_string v = true →
  ∃ s', (if truthy v
         then x <-- Obj.convert v ;; Obj.plus (VString s) (f x)
         else ret (VString s)) σ = Some (Normal (VString s'), σ)
        ∧ (v = VUndefined → s' = s).
Proof.
  destruct v; try done; simpl; intros _.
  - by eexists.
  - destruct (negb _); by eexists.
Qed.

Lemma toString_plain own_keys n σ this s o :
  Obj.holds_label (heap σ) this s →
  Obj.has_method (heap σ) this "getType" →
  Obj.has_method (heap σ) this "formatTags" →
  Obj.holds_options (heap σ) this o →
  Obj.plain_options (heap σ) o →
  ∃ r, Obj.toString native own_keys n this σ = Some (Normal (VString r), σ).
Proof.
  intros (e & c & Hs) Hgt Hft Ho ((m & Hm & Hms) & (d & Hd & Hds) & (t & Ht & Hts)
                                  & (v & Hv & Hvs)).
  pose proof Ho as (w' & e' & c' & Hos).
  unfold Obj.toString.
  erewrite bind_normal; [|by eapply read_slot].
  erewrite bind_normal; [|by eapply read_plain].
  erewrite bind_normal; [|by eapply read_plain].
  erewrite bind_normal; [|by eapply read_slot].
  destruct (optional_suffix σ s m (λ x, " (" +:+ x +:+ ")") Hms) as (s1 & H1 & _).
  erewrite bind_normal; [|exact H1].
  destruct (optional_suffix σ s1 d (λ x, nl +:+ nl +:+ x) Hds) as (s2 & H2 & _).
  erewrite bind_normal; [|exact H2].
  destruct (formatTags_plain own_keys n σ this o t Ho Ht Hts) as (tg & Htg & _).
  erewrite bind_normal; [|rewrite call_method_plain by done; exact Htg].
  unfold bind at 1. simpl.
  unfold Obj.plus at 1. unfold bind at 1. unfold bind at 1. simpl.
  erewrite bind_normal; [|by eapply preserveTypes_of_plain].
  destruct (truthy v); [|by eexists].
  destruct (plain_type_resolves _ _ Hvs) as (name & Hname).
  erewrite bind_normal;
    [|rewrite call_method_plain by done; by eapply getType_plain].
  unfold bind. simpl. by eexists.
Qed.

(** An instance without options renders as its label and the empty
    tag block. *)
Lemma toString_empty_options own_keys n σ this s o :
  Obj.holds_label (heap σ) this s →
  Obj.has_method (heap σ) this "formatTags" →
  Obj.holds_options (heap σ) this o →
  Obj.empty_options (heap σ) o →
  Obj.toString native own_keys n this σ = Some (Normal (VString (s +:+ nl +:+ nl)), σ).
Proof.
  intros (e & c & Hs) Hft Ho (Hm & Hd & Ht & Hv).
  pose proof Ho as (w' & e' & c' & Hos).
  unfold Obj.toString.
  erewrite bind_normal; [|by eapply read_slot].
  erewrite bind_normal; [|by eapply read_plain].
  erewrite bind_normal; [|by eapply read_plain].
  erewrite bind_normal; [|by eapply read_slot].
  simpl. unfold bind at 1. simpl. unfold bind at 1. simpl.
  destruct (formatTags_plain own_keys n σ this o VUndefined Ho Ht I) as (tg & Htg & E).
  rewrite (E eq_refl) in Htg.
  erewrite bind_normal; [|rewrite call_method_plain by done; exact Htg].
  unfold bind at 1. simpl.
  unfold Obj.plus at 1. unfold bind at 1. unfold bind at 1. simpl.
  erewrite bind_normal; [|by eapply preserveTypes_of_plain].
  simpl. by rewrite append_empty_r.
Qed.

(** *** [decorate] by an instance in the store or in the heap *)

Lemma label_of_labelled callf σ self doc :
  Obj.labelled σ self doc → label_of callf self σ = Some (Normal doc, σ).
Proof.
  unfold Obj.labelled, label_of. destruct (annotators σ !! self).
  - by intros ->.
  - intros (w & e & c & Hs). apply slot_lookup in Hs as (ob & Hl & Hk).
    unfold js_get. by rewrite (lookup_chain_own _ _ _ _ _ Hl Hk).
Qed.

Lemma labelled_alloc σ self doc ob :
  Obj.labelled σ self doc →
  Obj.labelled (set_heap (<[fresh (dom (heap σ)) := ob]>) σ) self doc.
Proof.
  unfold Obj.labelled. simpl. destruct (annotators σ !! self); [done|].
  intros (w & e & c & Hs). exists w, e, c. by apply slot_alloc.
Qed.

(** Lines 59-68, whatever the label holds. *)
Lemma decorate_callable_labelled n σ self doc target :
  Obj.labelled σ self doc →
  callable (heap σ) target = true →
  pristine (heap σ) "__doc__" →
  decorate native n self target None σ
  = Some (Normal (RValue (VObject (fresh (dom (heap σ))))),
          set_heap (<[fresh (dom (heap σ)) :=
                        set_props (<["__doc__" := Data doc true true true]>)
                          (function_object (DecoratedFunction target))]>) σ).
Proof.
  intros Hl Hc Hp. unfold decorate, bind, get_state. rewrite Hc. simpl.
  rewrite (label_of_labelled _ _ _ _ (labelled_alloc _ _ _ _ Hl)).
  pose proof (fresh_lookup_None (heap σ)) as Hf.
  unfold assign. rewrite js_set_accepts.
  - unfold ret, set_heap, written. simpl.
    rewrite lookup_insert_eq. simpl. rewrite lookup_empty.
    by rewrite insert_insert_eq.
  - unfold accepts_write. simpl.
    rewrite (lookup_chain_fresh _ _ _ "__doc__" None); [|done|done|].
    + by rewrite lookup_insert_eq.
    + simpl. apply Hp.
Qed.

(** Lines 72-74, whatever the label holds. *)
Lemma decorate_object_labelled n σ self doc target tob :
  Obj.labelled σ self doc →
  heap σ !! target = Some tob → code_of tob = None →
  accepts_write (heap σ) target "__doc__" = true →
  decorate native n self target None σ
  = Some (Normal (RValue (VObject target)),
          set_heap (written target "__doc__" doc) σ).
Proof.
  intros Hl Ht Hc Hacc. unfold decorate, bind, get_state.
  unfold callable. rewrite Ht, Hc. simpl.
  rewrite (label_of_labelled _ _ _ _ Hl). unfold assign. by rewrite js_set_accepts.
Qed.

(** *** The label of an instance in the heap under its clients *)

Section Growth.

Variable this : loc.
Hypothesis native_leaves : Obj.leaves native this "label".

Lemma keeps_grows {A} (m : M A) σ r σ' s e c :
  Obj.keeps_slot this "label" (Data (VString s) true e c) m →
  m σ = Some (r, σ') →
  Obj.slot (heap σ) this "label" = Some (Data (VString s) true e c) →
  ∃ sfx, Obj.slot (heap σ') this "label" = Some (Data (VString (s +:+ sfx)) true e c).
Proof.
  intros Hk Hm Hs. exists EmptyString. rewrite append_empty_r. by eapply Hk.
Qed.

(** Whatever the suffix computation does short of writing the label,
    the compound assignment leaves the label as it was or longer. *)
Lemma add_to_label_grows n σ r σ' s e c suffix :
  (∀ q, Obj.keeps_slot this "label" q suffix) →
  Obj.add_to_label native n this suffix σ = Some (r, σ') →
  Obj.slot (heap σ) this "label" = Some (Data (VString s) true e c) →
  ∃ sfx, Obj.slot (heap σ') this "label" = Some (Data (VString (s +:+ sfx)) true e c).
Proof.
  intros Hk H Hs. unfold Obj.add_to_label in H.
  unfold bind at 1 in H. rewrite (read_slot _ _ _ _ _ _ _ _ Hs) in H.
  unfold bind at 1 in H.
  destruct (suffix σ) as [[[sfx|ex] σ1]|] eqn:E; [|injection H as <- <-|done].
  - pose proof (Hk _ _ _ _ E Hs) as Hs1.
    unfold bind at 1 in H. simpl in H.
    rewrite (assign_slot _ _ _ _ _ _ _ _ Hs1) in H. injection H as <- <-.
    exists sfx. simpl. by eapply slot_written.
  - exists EmptyString. rewrite append_empty_r. by eapply Hk.
Qed.

(** One operation of a client that does not redefine the label. *)
Lemma run_api_grows own_keys prototype n c σ r σ' s e k :
  Obj.redefines_label this c = false →
  Obj.run_api native own_keys prototype n c σ = Some (r, σ') →
  Obj.slot (heap σ) this "label" = Some (Data (VString s) true e k) →
  ∃ sfx, Obj.slot (heap σ') this "label" = Some (Data (VString (s +:+ sfx)) true e k).
Proof.
  intros Hc H Hs.
  assert (Hret : ∀ {A} (m : M A),
            (∀ σ r σ', m σ = Some (r, σ') →
               Obj.slot (heap σ) this "label" = Some (Data (VString s) true e k) →
               ∃ sfx, Obj.slot (heap σ') this "label"
                      = Some (Data (VString (s +:+ sfx)) true e k)) →
            (m ;;; ret tt) σ = Some (r, σ') →
            ∃ sfx, Obj.slot (heap σ') this "label"
                   = Some (Data (VString (s +:+ sfx)) true e k)).
  { intros A m Hm Hb. unfold bind in Hb.
    destruct (m σ) as [[[a|ex] σ1]|] eqn:E; [|injection Hb as <- <-|done].
    - injection Hb as <- <-. by eapply Hm.
    - by eapply Hm. }
  assert (Hmut : ∀ l suffix,
            (∀ q, Obj.keeps_slot this "label" q suffix) →
            ∀ σ r σ', (Obj.add_to_label native n l suffix ;;; ret l) σ = Some (r, σ') →
              Obj.slot (heap σ) this "label" = Some (Data (VString s) true e k) →
              ∃ sfx, Obj.slot (heap σ') this "label"
                     = Some (Data (VString (s +:+ sfx)) true e k)).
  { intros l suffix Hk σ0 r0 σ0' Hb Hs0. unfold bind at 1 in Hb.
    destruct (Obj.add_to_label native n l suffix σ0) as [[[a|ex] σ1]|] eqn:E;
      [injection Hb as <- <-|injection Hb as <- <-|done];
      (destruct (decide (l = this)) as [->|Hne];
       [by eapply add_to_label_grows
       |eapply keeps_grows; [by apply keeps_slot_add_to_label|exact E|done]]). }
  destruct c; simpl in H, Hc.
  - revert H. apply Hret. intros ???. apply keeps_grows, keeps_slot_construct; done.
  - revert H. apply Hret. intros ???. apply keeps_grows, keeps_slot_construct; done.
  - revert H. apply Hret. intros ???. apply keeps_grows, keeps_slot_construct; done.
  - revert H. apply Hret. intros ???. apply keeps_grows, keeps_slot_construct; done.
  - revert H. apply Hret. apply Hmut. intros q. apply keeps_slot_ret.
  - revert H. apply Hret. apply Hmut. intros q. apply keeps_slot_ret.
  - revert H. apply Hret. apply Hmut. intros q. by apply keeps_slot_type_suffix.
  - revert H. apply Hret. intros ???. apply keeps_grows, keeps_slot_toString; done.
  - revert H. apply Hret. intros ???. apply keeps_grows, keeps_slot_decorate; [done|].
    destruct propertyKey as [key|]; [|by right].
    apply andb_false_iff in Hc as [Hc|Hc]; apply bool_decide_eq_false in Hc;
      [by left|right; congruence].
  - eapply keeps_grows; [|exact H|done]. apply keeps_slot_define_property.
    apply andb_false_iff in Hc as [Hc|Hc]; apply bool_decide_eq_false in Hc; auto.
  - revert H. apply Hret. intros ???. apply keeps_grows, keeps_slot_call; done.
  - eapply keeps_grows; [|exact H|done]. apply keeps_slot_assign; [done|].
    destruct v; try (by right).
    apply andb_false_iff in Hc as [Hc|Hc]; apply bool_decide_eq_false in Hc;
      [right; congruence|by left].
  - revert H. apply Hret. intros ???. apply keeps_grows, keeps_slot_read; done.
Qed.

(** Under every client that does not redefine it, the label of an
    instance keeps the label it had as its beginning. *)
Lemma run_trace_grows own_keys prototype n cs σ σ' s e k :
  Forall (λ c, Obj.redefines_label this c = false) cs →
  Obj.run_trace native own_keys prototype n cs σ = Some σ' →
  Obj.slot (heap σ) this "label" = Some (Data (VString s) true e k) →
  ∃ sfx, Obj.slot (heap σ') this "label" = Some (Data (VString (s +:+ sfx)) true e k).
Proof.
  intros Hcs. revert σ s. induction Hcs as [|c cs Hc Hcs IH]; intros σ s H Hs.
  - injection H as <-. exists EmptyString. by rewrite append_empty_r.
  - simpl in H.
    destruct (Obj.run_api native own_keys prototype n c σ) as [[r σ1]|] eqn:E; [|done].
    destruct (run_api_grows _ _ _ _ _ _ _ _ _ _ Hc E Hs) as [sfx1 Hs1].
    destruct (IH _ _ H Hs1) as [sfx2 Hs2].
    exists (sfx1 +:+ sfx2). by rewrite <-append_assoc.
Qed.

End Growth.

End InstanceProperties.

(** * The properties of the class *)

Section Claims.

Variable native :
  nat → value → list value → gmap loc object
  → option (completion value * gmap loc object).

Variable own_keys : gmap string property → list string.

Variable prototype : loc.

(** C1, as the code has it: [decorate] applied to a class [C] without a
    property key does not hand [C] back.  A class is a function to
    [typeof], so the first branch (lines 59-68) takes it: the result is
    a new function object that carries the label, [C] stays as it was
    (no [__doc__] is set on it), and calling the result throws, as
    calling a class does. *)
Theorem decorate_class_returns_wrapper n σ self a C cob id :
  annotators σ !! self = Some a →
  heap σ !! C = Some cob →
  code_of cob = Some (ClassConstructor id) →
  pristine (heap σ) "__doc__" →
  ∃ w σ',
    decorate native n self C None σ = Some (Normal (RValue (VObject w)), σ')
    ∧ w ≠ C
    ∧ heap σ !! w = None
    ∧ heap σ' !! C = Some cob
    ∧ (∀ m, read native m (VObject w) "__doc__" σ'
            = Some (Normal (VString (label a)), σ'))
    ∧ ∀ m this args,
        call native (S (S m)) w this args σ'
        = Some (Throw (TypeError "Class constructor cannot be invoked without 'new'"), σ').
Proof.
  intros Ha HC Hc Hp.
  assert (Hcall : callable (heap σ) C = true).
  { unfold callable. rewrite HC, Hc. by apply bool_decide_eq_true_2. }
  pose proof (fresh_lookup_None (heap σ)) as Hf.
  assert (Hne : fresh (dom (heap σ)) ≠ C) by congruence.
  eexists _, _. split; [by apply decorate_callable|].
  split; [done|]. split; [done|]. simpl. split; [by rewrite lookup_insert_ne|].
  split.
  - intros m. eapply read_own_data.
    + simpl. by rewrite lookup_insert_eq.
    + simpl. by rewrite lookup_insert_eq.
  - intros m this args. rewrite lookup_insert_eq. simpl.
    rewrite lookup_insert_ne by done. by rewrite HC, Hc.
Qed.

(** C2: [decorate] applied to a plain function [f] without a property
    key returns a function object that did not exist before, hence
    distinct from [f]; its [__doc__] reads back the label of the
    annotator; calling it with any receiver and arguments is calling
    [f] with them, right after the decoration and in every later state
    that still holds the wrapper; [f] and every other object are left
    as they were. *)
Theorem decorate_function_wraps n σ self a f fob id :
  annotators σ !! self = Some a →
  heap σ !! f = Some fob →
  code_of fob = Some (Native id) →
  pristine (heap σ) "__doc__" →
  ∃ w σ',
    decorate native n self f None σ = Some (Normal (RValue (VObject w)), σ')
    ∧ heap σ !! w = None
    ∧ w ≠ f
    ∧ (∀ m, read native m (VObject w) "__doc__" σ'
            = Some (Normal (VString (label a)), σ'))
    ∧ (∀ m this args,
         call native (S m) w this args σ' = call native m f this args σ')
    ∧ (∀ m this args,
         call native (S (S m)) w this args σ' = run_native native id this args σ')
    ∧ (∀ σ2 m this args,
         heap σ2 !! w = heap σ' !! w →
         call native (S m) w this args σ2 = call native m f this args σ2)
    ∧ heap σ' !! f = Some fob
    ∧ (∀ l, l ≠ w → heap σ' !! l = heap σ !! l)
    ∧ annotators σ' = annotators σ.
Proof.
  intros Ha Hf Hc Hp.
  assert (Hcall : callable (heap σ) f = true).
  { unfold callable. rewrite Hf, Hc. by apply bool_decide_eq_true_2. }
  pose proof (fresh_lookup_None (heap σ)) as Hw.
  assert (Hne : fresh (dom (heap σ)) ≠ f) by congruence.
  eexists _, _. split; [by apply decorate_callable|].
  split; [done|]. split; [done|].
  assert (Hwo : heap (set_heap (<[fresh (dom (heap σ)) :=
                   decorated_function f (label a)]>) σ) !! fresh (dom (heap σ))
                = Some (decorated_function f (label a))).
  { simpl. by rewrite lookup_insert_eq. }
  split; [|split; [|split; [|split; [|split; [|split]]]]].
  - intros m. eapply read_own_data; [exact Hwo|]. simpl. by rewrite lookup_insert_eq.
  - intros m this args. by eapply call_decorated_function.
  - intros m this args. erewrite call_decorated_function; [|exact Hwo|done].
    simpl. rewrite lookup_insert_ne by done. by rewrite Hf, Hc.
  - intros σ2 m this args Hw2. rewrite Hwo in Hw2.
    by eapply call_decorated_function.
  - simpl. by rewrite lookup_insert_ne.
  - intros l Hl. simpl. by rewrite lookup_insert_ne.
  - done.
Qed.

(** C3, amended: let [key] be an own data property of [obj] whose value
    is a function [m].  [decorate] returns its descriptor with a new
    wrapper as value; once that descriptor is redefined on [obj], every
    call [obj.key(...args)] made while the wrapper is in place and [obj]
    accepts an ordinary write of [__doc__] first writes the label the
    annotator has at that moment to [obj.__doc__], and then is the call
    of [m] on [obj] with the same arguments. *)
Theorem decorate_method_stamps_then_delegates n σ self obj ob key m wr e c :
  heap σ !! obj = Some ob →
  props ob !! key = Some (Data (VObject m) wr e c) →
  callable (heap σ) m = true →
  ∃ w d σ1,
    decorate native n self obj (Some key) σ = Some (Normal (RDescriptor d), σ1)
    ∧ d_value d = Some (VObject w)
    ∧ heap σ !! w = None
    ∧ ∀ σ2,
        define_property obj key d σ1 = Some (Normal tt, σ2) →
        ∀ σ3 a3 args fuel,
          heap σ3 !! w = heap σ2 !! w →
          lookup_chain (heap σ3) obj key = lookup_chain (heap σ2) obj key →
          annotators σ3 !! self = Some a3 →
          accepts_write (heap σ3) obj "__doc__" = true →
          let stamped := set_heap (written obj "__doc__" (VString (label a3))) σ3 in
          invoke native (S fuel) obj key args σ3
          = call native fuel m (VObject obj) args stamped
          ∧ read native fuel (VObject obj) "__doc__" stamped
            = Some (Normal (VString (label a3)), stamped).
Proof.
  intros Ho Hk Hm.
  pose proof (fresh_lookup_None (heap σ)) as Hw.
  set (w := fresh (dom (heap σ))) in *.
  assert (Hwo : w ≠ obj) by congruence.
  assert (Hwm : w ≠ m).
  { intros ->. unfold callable in Hm. by rewrite Hw in Hm. }
  eexists w, _, _. split; [by eapply decorate_method|].
  split; [done|]. split; [done|].
  intros σ2 Hdef σ3 a3 args fuel Hw3 Hk3 Ha3 Hacc stamped.
  erewrite redefine_method in Hdef; cycle 1.
  - simpl. rewrite lookup_insert_ne by done. exact Ho.
  - exact Hk.
  - unfold callable. simpl. by rewrite lookup_insert_eq.
  - done.
  - destruct (c || wr); [|done]. injection Hdef as <-.
    simpl in Hw3, Hk3.
    rewrite lookup_insert_ne, lookup_insert_eq in Hw3 by done.
    lazymatch type of Hk3 with
    | _ = lookup_chain ?h2 _ _ =>
        erewrite (lookup_chain_own h2 obj _ key (Data (VObject w) wr e c)) in Hk3;
          [|by rewrite lookup_insert_eq|simpl; by rewrite lookup_insert_eq]
    end.
    split.
    + erewrite invoke_data by exact Hk3.
      by eapply call_decorated_method.
    + apply js_get_written. unfold accepts_write in Hacc.
      destruct (heap σ3 !! obj); [eauto|].
      by destruct (lookup_chain (heap σ3) obj "__doc__") as [[[? []| ]|]|].
Qed.

(** C4, amended: let [obj] hold no function as own data property [key],
    and let it admit the definition of an accessor pair there.  After
    [decorate], on every state in which the pair is in place, [obj]
    accepts ordinary writes of the shadow field [_key] and of [__doc__],
    and the shadow field is not [__doc__] itself: the assignment
    [obj.key = x] leaves [x] in the shadow field and the label the
    annotator has at that moment in [__doc__]; reading [obj.key] then
    returns [x]; and the next assignment finds the same conditions. *)
Theorem decorate_property_accessors n σ self obj ob key :
  heap σ !! obj = Some ob →
  holds_method (heap σ) obj key = false →
  accepts_accessors (heap σ) obj key = true →
  ∃ g s σ1,
    decorate native n self obj (Some key) σ = Some (Normal (RValue VUndefined), σ1)
    ∧ accessors_installed (heap σ1) self obj key g s
    ∧ ∀ σ3 a3 x fuel,
        accessors_installed (heap σ3) self obj key g s →
        annotators σ3 !! self = Some a3 →
        accepts_write (heap σ3) obj ("_" +:+ key) = true →
        accepts_write (heap σ3) obj "__doc__" = true →
        "_" +:+ key ≠ "__doc__" →
        let σ4 := set_heap (written obj "__doc__" (VString (label a3))
                            ∘ written obj ("_" +:+ key) x) σ3 in
        assign native (S fuel) (VObject obj) key x σ3 = Some (Normal tt, σ4)
        ∧ read native fuel (VObject obj) ("_" +:+ key) σ4 = Some (Normal x, σ4)
        ∧ read native fuel (VObject obj) "__doc__" σ4
          = Some (Normal (VString (label a3)), σ4)
        ∧ read native (S fuel) (VObject obj) key σ4 = Some (Normal x, σ4)
        ∧ accessors_installed (heap σ4) self obj key g s
        ∧ accepts_write (heap σ4) obj ("_" +:+ key) = true
        ∧ accepts_write (heap σ4) obj "__doc__" = true.
Proof.
  intros Ho Hm Hacc.
  rewrite decorate_not_method by eauto.
  pose proof (define_accessors_result σ self obj ob key Ho) as Hdef.
  simpl in Hdef. rewrite Hacc in Hdef.
  pose proof (fresh_lookup_None (heap σ)) as Hg.
  set (g := fresh (dom (heap σ))) in *.
  set (h1 := <[g := function_object (AccessorGet key)]> (heap σ)) in *.
  pose proof (fresh_lookup_None h1) as Hs.
  set (s := fresh (dom h1)) in *.
  assert (Hgo : g ≠ obj) by congruence.
  assert (Hsg : s ≠ g).
  { intros E. subst h1. rewrite E, lookup_insert_eq in Hs. done. }
  assert (Hso : s ≠ obj).
  { intros E. subst h1. rewrite E, lookup_insert_ne, Ho in Hs; done. }
  exists g, s. eexists. split; [exact Hdef|]. split.
  { eexists _, _, _. simpl. rewrite lookup_insert_eq.
    split; [done|]. simpl. rewrite lookup_insert_eq. split; [done|].
    rewrite !lookup_insert_ne by done. subst h1. rewrite lookup_insert_eq.
    split; [done|]. split; [done|]. rewrite lookup_insert_eq. done. }
  clear Hdef. intros σ3 a3 x fuel Hinst Ha3 Hw1 Hw2 Hne σ4.
  assert (Hkd : "__doc__" ≠ key).
  { intros <-. destruct Hinst as (ob3 & _ & _ & Ho3 & Hk3 & _).
    unfold accepts_write in Hw2.
    by rewrite (lookup_chain_own _ _ _ _ _ Ho3 Hk3) in Hw2. }
  assert (Hks : "_" +:+ key ≠ key) by apply shadow_key_ne.
  assert (Hinst4 : accessors_installed (heap σ4) self obj key g s).
  { simpl. apply accessors_installed_written; [|done].
    by apply accessors_installed_written. }
  assert (Hobj : is_Some (heap σ3 !! obj)).
  { destruct Hinst as (ob3 & _ & _ & Ho3 & _). eauto. }
  assert (Hobj' : is_Some (written obj ("_" +:+ key) x (heap σ3) !! obj)).
  { destruct Hobj as [ob3 Ho3].
    destruct (written_keeps _ obj ("_" +:+ key) x _ _ Ho3) as (? & ? & _). eauto. }
  split; [|split; [|split; [|split; [|split]]]].
  - destruct Hinst as (ob3 & gob & sob & Ho3 & Hk3 & _ & _ & Hs3 & Hsc).
    by eapply assign_through_setter.
  - unfold read, js_get. simpl.
    rewrite lookup_chain_written_ne by done.
    destruct (lookup_chain_written (heap σ3) obj ("_" +:+ key) x Hobj)
      as (e & c & ->). done.
  - unfold read, js_get. simpl.
    destruct (lookup_chain_written _ obj "__doc__" (VString (label a3)) Hobj')
      as (e & c & ->). done.
  - destruct Hinst4 as (ob4 & gob & sob & Ho4 & Hk4 & Hg4 & Hgc & _).
    erewrite read_through_getter; [|exact Ho4|exact Hk4|exact Hg4|exact Hgc].
    unfold read, js_get. simpl.
    rewrite lookup_chain_written_ne by done.
    destruct (lookup_chain_written (heap σ3) obj ("_" +:+ key) x Hobj)
      as (e & c & ->). done.
  - done.
  - simpl. split.
    + rewrite accepts_write_written_ne by done. by apply accepts_write_written.
    + apply accepts_write_written. by rewrite accepts_write_written_ne.
Qed.

(** C6: [toString] returns the label, then the message in parentheses
    if a message is set, then the description after a blank line if
    set, then after a blank line the block of tags, one [@name value]
    per line, then after a blank line the [@type] line if
    [preserveTypes] is set, and leaves the state alone.  In particular
    [Annotator.forMethod("myMethod", {description: "desc", tags:
    {author: "X"}}).toString()] is the string of the specification. *)
Theorem toString_renders σ self a :
  annotators σ !! self = Some a →
  (∀ t, getType (heap σ) a ≫= to_string = Some t →
        toString self σ = Some (Normal (rendering a t), σ))
  ∧ (truthy (preserveTypes (options a)) = false →
     ∀ t, toString self σ = Some (Normal (rendering a t), σ))
  ∧ outcome
      ((this <-- forMethod "myMethod"
                   (Some {| message := None; description := Some "desc";
                            tags := Some [("author", "X")];
                            preserveTypes := VUndefined |}) ;;
        toString this) σ)
    = Some (Normal ("Method: myMethod" +:+ nl +:+ nl +:+ "desc"
                    +:+ nl +:+ nl +:+ "@author X")).
Proof.
  intros Ha. split; [|split].
  - intros t Ht. unfold toString, bind, this_annotator, get_state.
    rewrite Ha, <-(toString_rendering a t), Ht. simpl.
    by destruct (truthy _).
  - intros Hf t. unfold toString, bind, this_annotator, get_state.
    rewrite Ha, <-(toString_rendering a t), Hf. done.
  - unfold forMethod, new_Annotator, toString, bind, this_annotator, get_state,
      outcome. simpl. rewrite lookup_insert_eq. done.
Qed.

(** C7, amended: the type name that [withPreserveTypes] appends and that
    [toString] prints in its [@type] line is ["Boolean"] for a boolean,
    ["String"] for a string, ["Number"] for a number; for a symbol and
    for a bigint other than [0n] the name of the built-in constructor;
    for an object the [name] of the function its [constructor] property
    holds; and ["unknown"] for [undefined], [null], the bigint [0n], and
    an object whose [constructor] is absent or not a function. *)
Theorem type_name_resolves σ self a :
  annotators σ !! self = Some a →
  match preserveTypes (options a) with
  | VBoolean _ => resolves_to σ self a "Boolean"
  | VString _ => resolves_to σ self a "String"
  | VNumber _ => resolves_to σ self a "Number"
  | VSymbol _ _ => resolves_to σ self a "Symbol"
  | VBigInt z => resolves_to σ self a (if decide (z = 0%Z) then "unknown" else "BigInt")
  | VUndefined | VNull => resolves_to σ self a "unknown"
  | VObject l =>
      (∀ c wr e cf name wr' e' cf',
         lookup_chain (heap σ) l "constructor" = Some (Some (Data (VObject c) wr e cf)) →
         callable (heap σ) c = true →
         lookup_chain (heap σ) c "name" = Some (Some (Data (VString name) wr' e' cf')) →
         resolves_to σ self a name)
      ∧ (lookup_chain (heap σ) l "constructor" = Some None →
         resolves_to σ self a "unknown")
      ∧ (∀ v wr e cf,
           lookup_chain (heap σ) l "constructor" = Some (Some (Data v wr e cf)) →
           typeof (heap σ) v ≠ "function" →
           resolves_to σ self a "unknown")
  end.
Proof.
  intros Ha.
  assert (Hres : ∀ name, getType (heap σ) a = Some (VString name) →
                         resolves_to σ self a name).
  { intros name Hn. split.
    - apply withPreserveTypes_appends; [done|]. by rewrite Hn.
    - unfold toString, bind, this_annotator, get_state.
      rewrite Ha, <-(toString_rendering a name), Hn. simpl.
      by destruct (truthy _). }
  unfold getType, type_name in Hres.
  destruct (preserveTypes (options a)) as [| |b|x|s|i|z|l] eqn:E;
    try (by apply Hres).
  - apply Hres. simpl. destruct (decide (z = 0%Z)) as [->|Hz]; [done|].
    by destruct (Z.eqb_spec z 0).
  - assert (Hty : or_else (types !! typeof (heap σ) (VObject l)) "unknown" = "unknown").
    { simpl. by destruct (callable (heap σ) l). }
    rewrite Hty in Hres. simpl in Hres. split; [|split].
    + intros c wr e cf name wr' e' cf' Hc Hcall Hn. apply Hres.
      rewrite Hc. simpl. by rewrite Hcall, Hn.
    + intros Hc. apply Hres. by rewrite Hc.
    + intros v wr e cf Hc Hnf. apply Hres. rewrite Hc.
      destruct (String.eqb_spec (typeof (heap σ) v) "function") as [|_]; [done|].
      by rewrite andb_false_r.
Qed.


(** C9: [toString] changes neither a label nor the options nor any
    object: the state after the call is the state before it, a second
    call returns the same string, and [decorate] after the call does
    what it would have done without it.  It returns whenever the
    [preserveTypes] option is not an object. *)
Theorem toString_is_pure σ self :
  (∀ r σ', toString self σ = Some (r, σ') →
     σ' = σ
     ∧ (toString self ;;; toString self) σ = Some (r, σ)
     ∧ ∀ n target key,
         (toString self ;;; decorate native n self target key) σ
         = match r with
           | Normal _ => decorate native n self target key σ
           | Throw e => Some (Throw e, σ)
           end)
  ∧ (∀ a, annotators σ !! self = Some a →
          (∀ l, preserveTypes (options a) ≠ VObject l) →
          ∃ s, toString self σ = Some (Normal s, σ)).
Proof.
  split.
  - intros r σ' H. pose proof (toString_pure _ _ _ _ H) as ->.
    split; [done|]. split.
    + unfold bind. rewrite H. by destruct r.
    + intros n target key. unfold bind. rewrite H. by destruct r.
  - intros a Ha Hno. unfold toString, bind, this_annotator, get_state.
    rewrite Ha. destruct (truthy _); [|by eexists].
    unfold getType, type_name.
    destruct (preserveTypes (options a)) as [| |[]|[]| | |z|l]; simpl;
      try (by eexists); [|by destruct (Hno l)].
    destruct (z =? 0)%Z; by eexists.
Qed.


(** C10: the wrapper of a function carries the label [decorate] read
    when it made it, whatever the mutators of the annotator do later;
    the wrapper of a method and the setter of a property read the label
    when they run, so that after later mutator calls they stamp the
    label as it then is, which one call of [withDescription] already
    makes different from the label at the time of [decorate]. *)
Theorem snapshot_versus_live n σ self a :
  annotators σ !! self = Some a →
  (∀ f, callable (heap σ) f = true → pristine (heap σ) "__doc__" →
     ∃ w σ1,
       decorate native n self f None σ = Some (Normal (RValue (VObject w)), σ1)
       ∧ ∀ cs σ2 m,
           Forall (λ c, is_mutator c self) cs →
           run_trace native m cs σ1 = Some σ2 →
           read native m (VObject w) "__doc__" σ2
           = Some (Normal (VString (label a)), σ2))
  ∧ (∀ obj ob key m wr e c,
       heap σ !! obj = Some ob →
       props ob !! key = Some (Data (VObject m) wr e c) →
       callable (heap σ) m = true →
       ∃ w d σ1,
         decorate native n self obj (Some key) σ = Some (Normal (RDescriptor d), σ1)
         ∧ d_value d = Some (VObject w)
         ∧ ∀ cs σ2 a2 this args fuel,
             Forall (λ c, is_mutator c self) cs →
             run_trace native fuel cs σ1 = Some σ2 →
             annotators σ2 !! self = Some a2 →
             accepts_write (heap σ2) this "__doc__" = true →
             call native (S fuel) w (VObject this) args σ2
             = call native fuel m (VObject this) args
                 (set_heap (written this "__doc__" (VString (label a2))) σ2))
  ∧ (∀ obj ob key,
       heap σ !! obj = Some ob →
       holds_method (heap σ) obj key = false →
       accepts_accessors (heap σ) obj key = true →
       ∃ g s σ1,
         decorate native n self obj (Some key) σ = Some (Normal (RValue VUndefined), σ1)
         ∧ accessors_installed (heap σ1) self obj key g s
         ∧ ∀ cs σ2 a2 x fuel,
             Forall (λ c, is_mutator c self) cs →
             run_trace native fuel cs σ1 = Some σ2 →
             annotators σ2 !! self = Some a2 →
             accepts_write (heap σ2) obj ("_" +:+ key) = true →
             accepts_write (heap σ2) obj "__doc__" = true →
             "_" +:+ key ≠ "__doc__" →
             assign native (S fuel) (VObject obj) key x σ2
             = Some (Normal tt,
                     set_heap (written obj "__doc__" (VString (label a2))
                               ∘ written obj ("_" +:+ key) x) σ2))
  ∧ (∀ σ1 text σ2 a2,
       annotators σ1 !! self = Some a →
       run_trace native n [WithDescription self text] σ1 = Some σ2 →
       annotators σ2 !! self = Some a2 →
       label a2 = label a +:+ nl +:+ nl +:+ text ∧ label a2 ≠ label a).
Proof.
  intros Ha. split; [|split; [|split]].
  - intros f Hf Hp. eexists _, _. split; [by apply decorate_callable|].
    intros cs σ2 m Hmut Hrun.
    pose proof (run_mutators_heap native m cs _ _ self Hmut Hrun) as Hh.
    eapply read_own_data.
    + rewrite Hh. simpl. by rewrite lookup_insert_eq.
    + simpl. by rewrite lookup_insert_eq.
  - intros obj ob key m wr e c Ho Hk Hm. eexists _, _, _.
    split; [by eapply decorate_method|]. split; [done|].
    intros cs σ2 a2 this args fuel Hmut Hrun Ha2 Hacc.
    pose proof (run_mutators_heap native fuel cs _ _ self Hmut Hrun) as Hh.
    eapply call_decorated_method;
      [rewrite Hh; simpl; by rewrite lookup_insert_eq|done|done|done].
  - intros obj ob key Ho Hm Hacc.
    rewrite decorate_not_method by eauto.
    pose proof (define_accessors_result σ self obj ob key Ho) as Hdef.
    simpl in Hdef. rewrite Hacc in Hdef.
    pose proof (fresh_lookup_None (heap σ)) as Hg.
    set (g := fresh (dom (heap σ))) in *.
    set (h1 := <[g := function_object (AccessorGet key)]> (heap σ)) in *.
    pose proof (fresh_lookup_None h1) as Hs.
    set (s := fresh (dom h1)) in *.
    assert (Hgo : g ≠ obj) by congruence.
    assert (Hsg : s ≠ g).
    { intros E. subst h1. rewrite E, lookup_insert_eq in Hs. done. }
    assert (Hso : s ≠ obj).
    { intros E. subst h1. rewrite E, lookup_insert_ne, Ho in Hs; done. }
    exists g, s. eexists. split; [exact Hdef|].
    assert (Hinst : accessors_installed
              (<[obj := set_props
                          (<[key := Accessor (VObject g) (VObject s) true true]>) ob]>
                 (<[s := function_object (AccessorSet self key)]> h1))
              self obj key g s).
    { eexists _, _, _. rewrite lookup_insert_eq.
      split; [done|]. simpl. rewrite lookup_insert_eq. split; [done|].
      rewrite !lookup_insert_ne by done. subst h1. rewrite lookup_insert_eq.
      split; [done|]. split; [done|]. rewrite lookup_insert_eq. done. }
    split; [exact Hinst|].
    intros cs σ2 a2 x fuel Hmut Hrun Ha2 Hw1 Hw2 Hne.
    pose proof (run_mutators_heap native fuel cs _ _ self Hmut Hrun) as Hh.
    simpl in Hh. rewrite <-Hh in Hinst.
    destruct Hinst as (ob2 & gob & sob & Ho2 & Hk2 & _ & _ & Hs2 & Hsc).
    by eapply assign_through_setter.
  - intros σ1 text σ2 a2 Ha1 Hrun Ha2. simpl in Hrun. unfold bind in Hrun.
    rewrite (withDescription_appends _ _ _ _ Ha1) in Hrun.
    injection Hrun as <-. simpl in Ha2. rewrite lookup_insert_eq in Ha2.
    injection Ha2 as <-. split; [done|].
    intros E. simpl in E. by apply append_same_inv in E.
Qed.

End Claims.

(** * Further properties of the class *)

Section Extras.

Variable native :
  nat → value → list value → gmap loc object
  → option (completion value * gmap loc object).

(** *** Strings *)

Lemma append_cancel_l (s t u : string) : s +:+ t = s +:+ u → t = u.
Proof.
  induction s as [|c s IH]; [done|].
  change (String c (s +:+ t) = String c (s +:+ u) → t = u).
  intros [= H]. auto.
Qed.

Lemma rendering_middle a t :
  rendering a t
  = label a +:+ middle a
    +:+ (if truthy (preserveTypes (options a))
         then blank_line +:+ "@type " +:+ t else EmptyString).
Proof.
  unfold rendering, middle. rewrite !concat_empty_app, ?append_assoc.
  destruct (truthy _); simpl; rewrite ?append_empty_r, ?append_assoc; done.
Qed.

(** What [toString] returns, whenever it returns. *)
Lemma toString_inv self σ r σ' :
  toString self σ = Some (r, σ') →
  ∃ a t, annotators σ !! self = Some a ∧ r = Normal (rendering a t) ∧ σ' = σ
         ∧ (truthy (preserveTypes (options a)) = true →
            getType (heap σ) a ≫= to_string = Some t).
Proof.
  unfold toString, bind, this_annotator, get_state.
  destruct (annotators σ !! self) as [a|] eqn:Ha; [|done].
  destruct (truthy (preserveTypes (options a))) eqn:Htr.
  - unfold lift_option.
    destruct (getType (heap σ) a ≫= to_string) as [t|] eqn:Ht; [|done].
    intros [= <- <-]. exists a, t. rewrite <-(toString_rendering a t), Htr. done.
  - intros [= <- <-]. exists a, EmptyString.
    rewrite <-(toString_rendering a EmptyString), Htr. done.
Qed.

(** [toString], case by case. *)
Lemma toString_eq self σ a :
  annotators σ !! self = Some a →
  toString self σ
  = if truthy (preserveTypes (options a))
    then match getType (heap σ) a ≫= to_string with
         | Some t => Some (Normal (rendering a t), σ)
         | None => None
         end
    else Some (Normal (rendering a EmptyString), σ).
Proof.
  intros Ha. unfold toString, bind, this_annotator, get_state. rewrite Ha.
  destruct (truthy (preserveTypes (options a))) eqn:Htr.
  - destruct (getType (heap σ) a ≫= to_string) as [t|]; [|done]. simpl.
    rewrite <-(toString_rendering a t), Htr. done.
  - rewrite <-(toString_rendering a EmptyString), Htr. done.
Qed.

(** X1 (lines 17-35): each factory returns an instance that was not
    live before, with the seed of the factory as label and the options
    given (the empty options when none are given); every instance that
    was live keeps its label and options, the heap is not touched, and
    what [toString] returns for the new instance begins with the seed. *)
Theorem factories_create_fresh_instances σ name opts factory seed :
  (factory, seed) ∈ factories name opts →
  ∃ self σ',
    factory σ = Some (Normal self, σ')
    ∧ annotators σ !! self = None
    ∧ annotators σ' !! self
      = Some {| label := seed; options := default no_options opts |}
    ∧ (∀ s, s ≠ self → annotators σ' !! s = annotators σ !! s)
    ∧ heap σ' = heap σ
    ∧ ∀ r σ'', toString self σ' = Some (r, σ'') →
               ∃ rest, r = Normal (seed +:+ rest).
Proof.
  intros Hin.
  assert (Hnew : factory = new_Annotator seed opts).
  { unfold factories in Hin. rewrite !elem_of_cons, elem_of_nil in Hin.
    destruct Hin as [[= -> ->]|[[= -> ->]|[[= -> ->]|[[= -> ->]|[]]]]]; done. }
  subst factory. eexists _, _. split; [done|].
  split; [apply not_elem_of_dom, is_fresh|]. simpl.
  split; [by rewrite lookup_insert_eq|].
  split; [by intros s Hs; rewrite lookup_insert_ne|]. split; [done|].
  intros r σ'' Hts. apply toString_inv in Hts as (a & t & Ha & -> & _ & _).
  simpl in Ha. rewrite lookup_insert_eq in Ha. injection Ha as <-.
  rewrite rendering_middle. simpl. eauto.
Qed.

(** X2 (lines 37-50): a chain of mutator calls on one instance is one
    append: the label ends up as the old label followed by the suffixes
    of the calls in call order, the options stay, and neither the heap
    nor any other instance changes. *)
Theorem mutator_chain_appends n cs σ self a resolved :
  annotators σ !! self = Some a →
  getType (heap σ) a ≫= to_string = Some resolved →
  Forall (λ c, is_mutator c self) cs →
  run_trace native n cs σ
  = Some (set_annotators
            (<[self := appended a (String.concat EmptyString (suffix_of resolved <$> cs))]>)
            σ).
Proof.
  intros Ha Ht Hall. revert σ a Ha Ht.
  induction Hall as [|c cs Hc _ IH]; intros σ a Ha Ht.
  - simpl. f_equal. destruct σ as [h an]. unfold set_annotators. simpl. f_equal.
    simpl in Ha. rewrite insert_id; [done|]. rewrite Ha. f_equal.
    destruct a. unfold appended. simpl. by rewrite append_empty_r.
  - assert (Hstep : run_api native n c σ
                    = Some (Normal tt,
                            set_annotators (<[self := appended a (suffix_of resolved c)]>) σ)).
    { destruct c; try done; simpl in Hc; subst; simpl; unfold bind.
      - by rewrite (withDescription_appends _ _ _ _ Ha).
      - by rewrite (withTag_appends _ _ _ _ _ Ha).
      - by rewrite (withPreserveTypes_appends _ _ _ _ Ha Ht). }
    assert (Hcat : String.concat EmptyString (suffix_of resolved <$> c :: cs)
                   = suffix_of resolved c
                     +:+ String.concat EmptyString (suffix_of resolved <$> cs))
      by apply (concat_empty_app [suffix_of resolved c]).
    rewrite Hcat. simpl. rewrite Hstep.
    rewrite (IH _ (appended a (suffix_of resolved c))).
    + f_equal. unfold set_annotators. simpl. f_equal.
      rewrite insert_insert_eq. f_equal. unfold appended. simpl. f_equal.
      by rewrite append_assoc.
    + simpl. by rewrite lookup_insert_eq.
    + done.
Qed.

(** X3 (lines 47-50, 135-155): [withPreserveTypes] followed by
    [toString].  The label carries the type line, and [toString] prints
    it a second time at the end when the option is truthy; when the
    option is falsy ([false], [0], [NaN], the empty string, [null],
    [undefined]) the line in the label is the only one. *)
Theorem withPreserveTypes_then_toString σ self a resolved :
  annotators σ !! self = Some a →
  getType (heap σ) a ≫= to_string = Some resolved →
  let type_line := blank_line +:+ "@type " +:+ resolved in
  (withPreserveTypes self ;;; toString self) σ
  = Some (Normal (label a +:+ type_line +:+ middle a
                  +:+ (if truthy (preserveTypes (options a))
                       then type_line else EmptyString)),
          set_annotators (<[self := appended a type_line]>) σ).
Proof.
  intros Ha Ht type_line. unfold bind.
  rewrite (withPreserveTypes_appends _ _ _ _ Ha Ht).
  unfold toString, bind, this_annotator, get_state. simpl.
  rewrite lookup_insert_eq. simpl.
  change (getType (heap σ) (appended a (nl +:+ nl +:+ "@type " +:+ resolved)))
    with (getType (heap σ) a).
  rewrite Ht. simpl.
  pose proof (toString_rendering (appended a (nl +:+ nl +:+ "@type " +:+ resolved))
                resolved) as Hr.
  simpl in Hr. rewrite rendering_middle in Hr. simpl in Hr.
  destruct (truthy (preserveTypes (options a))); simpl;
    rewrite Hr; by rewrite append_assoc.
Qed.

(** X4 (lines 135-155): [toString] sees the message and the description
    only through their truthiness and the tags only through their
    entries: an empty message or description renders as an absent one,
    and an empty tags object as absent tags. *)
Theorem empty_options_render_as_absent σ σ' self self' a a' :
  annotators σ !! self = Some a →
  annotators σ' !! self' = Some a' →
  heap σ = heap σ' →
  label a = label a' →
  set_string (message (options a)) = set_string (message (options a')) →
  set_string (description (options a)) = set_string (description (options a')) →
  default [] (tags (options a)) = default [] (tags (options a')) →
  preserveTypes (options a) = preserveTypes (options a') →
  outcome (toString self σ) = outcome (toString self' σ').
Proof.
  intros Ha Ha' Hh Hl Hm Hd Ht Hp.
  unfold toString, bind, this_annotator, get_state. rewrite Ha, Ha'.
  assert (Hg : getType (heap σ) a = getType (heap σ') a').
  { unfold getType. by rewrite Hh, Hp. }
  rewrite !formatTags_block, Hl, Hm, Hd, Ht, Hp, Hg.
  destruct (truthy _); [|done].
  by destruct (getType (heap σ') a' ≫= to_string).
Qed.

(** X5 (lines 37-40, 144-146): a description given as an option and the
    same description appended by [withDescription] render alike as long
    as no message is set; with a message they never do, since the
    message follows the label and so lands on either side of the
    description. *)
Theorem description_option_or_mutator σ self a d :
  annotators σ !! self = Some a →
  description (options a) = None →
  d ≠ EmptyString →
  let σ_option :=
    set_annotators (<[self := with_description_option a (Some d)]>) σ in
  let σ_mutator :=
    set_annotators (<[self := appended a (nl +:+ nl +:+ d)]>) σ in
  withDescription self d σ = Some (Normal self, σ_mutator)
  ∧ (set_string (message (options a)) = None →
     outcome (toString self σ_option) = outcome (toString self σ_mutator))
  ∧ (∀ m s, set_string (message (options a)) = Some m →
            outcome (toString self σ_option) = Some (Normal s) →
            outcome (toString self σ_mutator) ≠ Some (Normal s)).
Proof.
  intros Ha Hd Hne σo σm.
  split; [by apply withDescription_appends|].
  assert (Hset : set_string (Some d) = Some d).
  { unfold set_string. simpl. destruct d; [done|done]. }
  assert (Ho : toString self σo
               = if truthy (preserveTypes (options a))
                 then match getType (heap σ) a ≫= to_string with
                      | Some t =>
                          Some (Normal (rendering (with_description_option a (Some d)) t), σo)
                      | None => None
                      end
                 else Some (Normal (rendering (with_description_option a (Some d))
                                      EmptyString), σo)).
  { apply (toString_eq self σo (with_description_option a (Some d))).
    simpl. by rewrite lookup_insert_eq. }
  assert (Hm : toString self σm
               = if truthy (preserveTypes (options a))
                 then match getType (heap σ) a ≫= to_string with
                      | Some t =>
                          Some (Normal (rendering (appended a (nl +:+ nl +:+ d)) t), σm)
                      | None => None
                      end
                 else Some (Normal (rendering (appended a (nl +:+ nl +:+ d))
                                      EmptyString), σm)).
  { apply (toString_eq self σm (appended a (nl +:+ nl +:+ d))).
    simpl. by rewrite lookup_insert_eq. }
  assert (Hparts : ∀ t,
            rendering (with_description_option a (Some d)) t
            = label a
              +:+ String.concat EmptyString
                    (when_set (message (options a)) (λ m, " (" +:+ m +:+ ")"))
              +:+ (nl +:+ nl +:+ d)
              +:+ (blank_line
                   +:+ String.concat nl (tag_line <$> default [] (tags (options a))))
              +:+ (if truthy (preserveTypes (options a))
                   then blank_line +:+ "@type " +:+ t else EmptyString)
            ∧ rendering (appended a (nl +:+ nl +:+ d)) t
              = label a +:+ (nl +:+ nl +:+ d)
                +:+ String.concat EmptyString
                      (when_set (message (options a)) (λ m, " (" +:+ m +:+ ")"))
                +:+ (blank_line
                     +:+ String.concat nl (tag_line <$> default [] (tags (options a))))
                +:+ (if truthy (preserveTypes (options a))
                     then blank_line +:+ "@type " +:+ t else EmptyString)).
  { intros t. rewrite !rendering_middle.
    unfold middle, with_description_option, appended.
    cbn [label options message description tags preserveTypes].
    rewrite Hd, !concat_empty_app.
    change (when_set (Some d) (λ d0, blank_line +:+ d0))
      with (if decide (d = EmptyString) then [] else [blank_line +:+ d]).
    destruct (decide (d = EmptyString)); [done|].
    change (String.concat EmptyString [blank_line +:+ d]) with (blank_line +:+ d).
    rewrite ?append_assoc. split; reflexivity. }
  split.
  - intros Hmsg. unfold outcome.
    rewrite Ho, Hm.
    assert (Heq : ∀ t, rendering (with_description_option a (Some d)) t
                       = rendering (appended a (nl +:+ nl +:+ d)) t).
    { intros t. destruct (Hparts t) as [-> ->].
      assert (Hw : when_set (message (options a)) (λ m, " (" +:+ m +:+ ")") = []).
      { unfold set_string in Hmsg. unfold when_set.
        destruct (message (options a)) as [[|]|]; done. }
      by rewrite Hw. }
    destruct (truthy _).
    + destruct (getType (heap σ) a ≫= to_string); simpl; [by rewrite Heq|done].
    + simpl. by rewrite Heq.
  - intros m s Hmsg Hso Hsm. unfold outcome in Hso, Hsm.
    rewrite Ho in Hso. rewrite Hm in Hsm.
    assert (Hw : when_set (message (options a)) (λ m, " (" +:+ m +:+ ")")
                 = [" (" +:+ m +:+ ")"]).
    { unfold set_string in Hmsg. unfold when_set.
      destruct (message (options a)) as [[|c m']|]; try done.
      simpl in Hmsg. by injection Hmsg as <-. }
    assert (Hdiff : ∀ t, rendering (with_description_option a (Some d)) t
                         ≠ rendering (appended a (nl +:+ nl +:+ d)) t).
    { intros t. destruct (Hparts t) as [-> ->]. rewrite Hw.
      intros E. apply append_cancel_l in E. discriminate E. }
    destruct (truthy _).
    + destruct (getType (heap σ) a ≫= to_string) as [t|]; [|done].
      simpl in Hso, Hsm. injection Hso as <-. injection Hsm as E.
      by apply (Hdiff t).
    + simpl in Hso, Hsm. injection Hso as <-. injection Hsm as E.
      by apply (Hdiff EmptyString).
Qed.

(** *** The options never reach the decorated objects *)

Lemma same_labels_set_heap f σ σ' :
  same_labels σ σ' → same_labels (set_heap f σ) (set_heap f σ').
Proof. intros [Hh Hl]. split; simpl; [by rewrite Hh|done]. Qed.

Lemma respects_ret {A} (a : A) : respects_labels (ret a).
Proof. by intros σ σ' H. Qed.

Lemma respects_throw {A} e : respects_labels (@throw A e).
Proof. by intros σ σ' H. Qed.

Lemma respects_bind {A B} (m : M A) (f : A → M B) :
  respects_labels m → (∀ a, respects_labels (f a)) → respects_labels (bind m f).
Proof.
  intros Hm Hf σ σ' H. unfold bind. specialize (Hm σ σ' H).
  destruct (m σ) as [[[a|e] σ1]|], (m σ') as [[[a'|e'] σ1']|]; simpl in Hm;
    try done; destruct Hm as [Hc Hs]; try done.
  - injection Hc as <-. by apply Hf.
  - by injection Hc as <-.
Qed.

Lemma respects_write_own l k x : respects_labels (write_own l k x).
Proof.
  intros σ σ' H. pose proof H as [Hh _]. unfold write_own. rewrite <-Hh.
  destruct (heap σ !! l) as [ob|]; [|done].
  destruct (props ob !! k) as [[? [] ? ?|]|]; try done;
    try (split; [done|by apply same_labels_set_heap]).
  destruct (extensible ob); [|done].
  split; [done|by apply same_labels_set_heap].
Qed.

Lemma respects_define_property l k d : respects_labels (define_property l k d).
Proof.
  intros σ σ' H. pose proof H as [Hh _]. unfold define_property. rewrite <-Hh.
  destruct (heap σ !! l) as [ob|]; [|done].
  destruct (_ || _); [done|].
  destruct (validate_and_apply _ _ _); [|done].
  split; [done|by apply same_labels_set_heap].
Qed.

Lemma respects_alloc ob : respects_labels (alloc ob).
Proof.
  intros σ σ' H. pose proof H as [Hh _]. unfold alloc. rewrite <-Hh.
  split; [done|by apply same_labels_set_heap].
Qed.

Lemma respects_run_native id this args :
  respects_labels (run_native native id this args).
Proof.
  intros σ σ' H. pose proof H as [Hh _]. unfold run_native. rewrite <-Hh.
  destruct (native _ _ _ _) as [[c h]|]; [|done].
  split; [done|by apply same_labels_set_heap].
Qed.

Section RespectsWithCall.

Variable callf : loc → value → list value → M value.
Hypothesis callf_respects : ∀ f this args, respects_labels (callf f this args).

Lemma respects_js_get v k : respects_labels (js_get callf v k).
Proof.
  intros σ σ' H. pose proof H as [Hh _]. unfold js_get. rewrite <-Hh.
  destruct v; try done; try (by destruct (String.eqb _ _)).
  destruct (lookup_chain _ _ _) as [[[|[] ? ? ?]|]|]; try done.
  by apply callf_respects.
Qed.

Lemma respects_js_set v k x : respects_labels (js_set callf v k x).
Proof.
  intros σ σ' H. pose proof H as [Hh _]. unfold js_set. rewrite <-Hh.
  destruct v; try done.
  destruct (lookup_chain _ _ _) as [[[? []|? []]|]|]; try done;
    try by apply respects_write_own.
  apply respects_bind; [apply callf_respects|intros _; apply respects_ret|done].
Qed.

Lemma respects_label_of self : respects_labels (label_of callf self).
Proof.
  intros σ σ' H. pose proof H as [_ Hl]. unfold label_of. specialize (Hl self).
  destruct (annotators σ !! self), (annotators σ' !! self); simpl in Hl; try done.
  - by injection Hl as ->.
  - by apply respects_js_get.
Qed.

Lemma respects_run_code c this args :
  respects_labels (run_code native callf c this args).
Proof.
  destruct c; simpl.
  - apply respects_run_native.
  - apply respects_throw.
  - apply callf_respects.
  - apply respects_bind; [apply respects_label_of|]. intros doc.
    apply respects_bind; [apply respects_js_set|]. intros _. apply callf_respects.
  - apply respects_js_get.
  - apply respects_bind; [apply respects_js_set|]. intros _.
    apply respects_bind; [apply respects_label_of|]. intros doc.
    apply respects_bind; [apply respects_js_set|]. intros _. apply respects_ret.
  - done.
Qed.

End RespectsWithCall.

Lemma respects_call n f this args : respects_labels (call native n f this args).
Proof.
  revert f this args. induction n as [|n IH]; intros f this args σ σ' H; [done|].
  pose proof H as [Hh _]. simpl. rewrite <-Hh.
  destruct (heap σ !! f) as [ob|]; [|done].
  destruct (code_of ob) as [c|]; [|done].
  by apply respects_run_code.
Qed.

Lemma respects_define_accessors self target key :
  respects_labels (define_accessors self target key).
Proof.
  unfold define_accessors.
  apply respects_bind; [apply respects_alloc|]. intros g.
  apply respects_bind; [apply respects_alloc|]. intros s.
  apply respects_bind; [apply respects_define_property|]. intros _.
  apply respects_ret.
Qed.

(** X6 (lines 55-102): [decorate] and the wrappers it creates read only
    the label of the annotator.  In two states with the same heap and
    the same labels - whatever message, description, tags and
    [preserveTypes] the instances were constructed with - [decorate]
    returns the same value and builds the same heap, and so does every
    later call, read and assignment: nothing of the options ever
    appears in [__doc__]. *)
Theorem decorate_ignores_options n self target key σ σ' :
  same_labels σ σ' →
  same_result (decorate native n self target key σ)
              (decorate native n self target key σ')
  ∧ (∀ f this args,
       same_result (call native n f this args σ) (call native n f this args σ'))
  ∧ (∀ v k, same_result (read native n v k σ) (read native n v k σ'))
  ∧ (∀ v k x, same_result (assign native n v k x σ) (assign native n v k x σ')).
Proof.
  intros H. split; [|split; [|split]].
  - pose proof H as [Hh _]. unfold decorate.
    change (bind get_state ?f σ) with (f σ σ).
    change (bind get_state ?f σ') with (f σ' σ').
    cbv beta. rewrite <-Hh. revert σ σ' H Hh.
    assert (Hbody : ∀ h : gmap loc object,
              respects_labels
                (if callable h target && bool_decide (key = None)
                 then
                   decoratedFunction <-- alloc (function_object (DecoratedFunction target)) ;;
                   doc <-- label_of (call native n) self ;;
                   assign native n (VObject decoratedFunction) "__doc__" doc ;;;
                   ret (RValue (VObject decoratedFunction))
                 else
                   match key with
                   | None =>
                       doc <-- label_of (call native n) self ;;
                       assign native n (VObject target) "__doc__" doc ;;;
                       ret (RValue (VObject target))
                   | Some key =>
                       descriptor <-- lift_option (get_own_property_descriptor h target key) ;;
                       match descriptor with
                       | Some d =>
                           match d_value d with
                           | Some (VObject originalMethod) =>
                               if callable h originalMethod then
                                 wrapper <-- alloc (function_object
                                                      (DecoratedMethod self originalMethod)) ;;
                                 ret (RDescriptor
                                        {| d_value := Some (VObject wrapper);
                                           d_writable := d_writable d;
                                           d_get := d_get d; d_set := d_set d;
                                           d_enumerable := d_enumerable d;
                                           d_configurable := d_configurable d |})
                               else define_accessors self target key
                           | _ => define_accessors self target key
                           end
                       | None => define_accessors self target key
                       end
                   end)).
    { intros h. destruct (_ && _).
      - apply respects_bind; [apply respects_alloc|]. intros w.
        apply respects_bind; [apply respects_label_of, respects_call|]. intros doc.
        apply respects_bind; [apply respects_js_set, respects_call|]. intros _.
        apply respects_ret.
      - destruct key as [key|].
        + apply respects_bind.
          { unfold lift_option. destruct (get_own_property_descriptor _ _ _);
              [apply respects_ret|done]. }
          intros [d|]; [|apply respects_define_accessors].
          destruct (d_value d) as [[]|]; try apply respects_define_accessors.
          destruct (callable _ _); [|apply respects_define_accessors].
          apply respects_bind; [apply respects_alloc|]. intros w. apply respects_ret.
        + apply respects_bind; [apply respects_label_of, respects_call|]. intros doc.
          apply respects_bind; [apply respects_js_set, respects_call|]. intros _.
          apply respects_ret. }
    intros σ σ' H Hh. by apply (Hbody (heap σ)).
  - intros f this args. by apply respects_call.
  - intros v k. exact (respects_js_get _ (respects_call n) v k σ σ' H).
  - intros v k x. exact (respects_js_set _ (respects_call n) v k x σ σ' H).
Qed.

(** *** More on writes *)

Lemma written_written h l k x y :
  written l k y (written l k x h) = written l k y h.
Proof.
  unfold written. destruct (h !! l) as [ob|] eqn:Hl; [|by rewrite Hl].
  rewrite lookup_insert_eq, insert_insert_eq. f_equal.
  unfold set_props. simpl. rewrite lookup_insert_eq, insert_insert_eq.
  by destruct (props ob !! k) as [[]|].
Qed.

Lemma pristine_alloc (h : gmap loc object) (l : loc) (new : object) (k : string) :
  h !! l = None → pristine h k → pristine (<[l := new]> h) k.
Proof. intros Hl Hp. by apply lookup_chain_alloc. Qed.

Lemma js_set_rejects callf σ l k x :
  rejects_write (heap σ) l k = true →
  ∃ msg, js_set callf (VObject l) k x σ = Some (Throw (TypeError msg), σ).
Proof.
  unfold rejects_write, js_set, write_own. intros Hr.
  destruct (lookup_chain (heap σ) l k) as [[[v [] e c|g s e c]|]|];
    destruct (heap σ !! l) as [ob|]; try done;
    try (destruct (props ob !! k) as [[? [] ? ?|]|]); try done;
    try (destruct s); try done;
    try (destruct (extensible ob)); try done; by eexists.
Qed.

(** X7 (lines 72-74): [decorate] on an object that is not a function,
    without a key, writes the label to [__doc__] of that object and
    returns the object itself.  A second decoration overwrites the
    first label and remembers nothing of it: the state is the one a
    single decoration by the second annotator gives; no other object
    changes. *)
Theorem decorate_object_restamps n σ s1 s2 a b target tob :
  annotators σ !! s1 = Some a →
  annotators σ !! s2 = Some b →
  heap σ !! target = Some tob →
  code_of tob = None →
  accepts_write (heap σ) target "__doc__" = true →
  ∃ σ1 σ2,
    decorate native n s1 target None σ = Some (Normal (RValue (VObject target)), σ1)
    ∧ decorate native n s2 target None σ1 = Some (Normal (RValue (VObject target)), σ2)
    ∧ decorate native n s2 target None σ = Some (Normal (RValue (VObject target)), σ2)
    ∧ read native n (VObject target) "__doc__" σ1
      = Some (Normal (VString (label a)), σ1)
    ∧ read native n (VObject target) "__doc__" σ2
      = Some (Normal (VString (label b)), σ2)
    ∧ (∀ l, l ≠ target → heap σ2 !! l = heap σ !! l)
    ∧ annotators σ2 = annotators σ.
Proof.
  intros Ha Hb Ht Hc Hacc.
  destruct (written_keeps (heap σ) target "__doc__" (VString (label a)) _ _ Ht)
    as (tob1 & Ht1 & Hc1 & _).
  eexists _, _. split; [by eapply decorate_object|].
  split.
  { erewrite (decorate_object native n _ s2 b target tob1); [reflexivity|done|exact Ht1|
      congruence|by apply accepts_write_written]. }
  split.
  { erewrite decorate_object by done. simpl.
    unfold set_heap. simpl. by rewrite written_written. }
  split; [apply js_get_written; eauto|].
  split; [apply js_get_written; simpl; eauto|].
  split; [|done].
  intros l Hl. simpl. by rewrite !written_lookup_ne.
Qed.

(** X8 (lines 59-68): decorating a wrapper wraps it again.  Each
    wrapper keeps the label of the annotator that made it, and a call
    of the outer one goes through both to the original function. *)
Theorem decorate_function_twice n σ s1 s2 a b f :
  annotators σ !! s1 = Some a →
  annotators σ !! s2 = Some b →
  callable (heap σ) f = true →
  pristine (heap σ) "__doc__" →
  ∃ w1 w2 σ1 σ2,
    decorate native n s1 f None σ = Some (Normal (RValue (VObject w1)), σ1)
    ∧ decorate native n s2 w1 None σ1 = Some (Normal (RValue (VObject w2)), σ2)
    ∧ w1 ≠ f ∧ w2 ≠ f ∧ w2 ≠ w1
    ∧ (∀ m, read native m (VObject w1) "__doc__" σ2
            = Some (Normal (VString (label a)), σ2))
    ∧ (∀ m, read native m (VObject w2) "__doc__" σ2
            = Some (Normal (VString (label b)), σ2))
    ∧ ∀ m this args,
        call native (S (S m)) w2 this args σ2 = call native m f this args σ2.
Proof.
  intros Ha Hb Hf Hp.
  pose proof (fresh_lookup_None (heap σ)) as Hw1.
  set (w1 := fresh (dom (heap σ))) in *.
  set (h1 := <[w1 := decorated_function f (label a)]> (heap σ)).
  pose proof (fresh_lookup_None h1) as Hw2.
  set (w2 := fresh (dom h1)) in *.
  assert (Hf1 : w1 ≠ f).
  { intros E. unfold callable in Hf. by rewrite <-E, Hw1 in Hf. }
  assert (H21 : w2 ≠ w1).
  { intros E. subst h1. by rewrite E, lookup_insert_eq in Hw2. }
  assert (H2f : w2 ≠ f).
  { intros E. subst h1. rewrite E, lookup_insert_ne in Hw2 by done.
    unfold callable in Hf. by rewrite Hw2 in Hf. }
  exists w1, w2. eexists _, _.
  split; [by apply decorate_callable|].
  split.
  { erewrite (decorate_callable native n _ s2 b w1);
      [reflexivity|done| |by apply pristine_alloc].
    unfold callable. simpl. by rewrite lookup_insert_eq. }
  split; [done|]. split; [done|]. split; [done|].
  split; [|split].
  - intros m. eapply read_own_data.
    + simpl. rewrite lookup_insert_ne by done. subst h1. by rewrite lookup_insert_eq.
    + simpl. by rewrite lookup_insert_eq.
  - intros m. eapply read_own_data.
    + simpl. by rewrite lookup_insert_eq.
    + simpl. by rewrite lookup_insert_eq.
  - intros m this args.
    erewrite call_decorated_function; [|simpl; by rewrite lookup_insert_eq|done].
    erewrite call_decorated_function;
      [|simpl; rewrite lookup_insert_ne by done; subst h1; by rewrite lookup_insert_eq
       |done].
    done.
Qed.

(** X9 (lines 76-86): in the method form [decorate] changes no existing
    object: it only adds the wrapper and returns the descriptor of the
    method with the wrapper as value and the attributes as they were.
    Redefining that descriptor on the object is accepted exactly when
    the method was configurable or writable, and then leaves the
    attributes of the property unchanged; on a property that is neither
    it throws a TypeError and the object keeps the undecorated method. *)
Theorem method_descriptor_redefinable_iff n σ self obj ob key m wr e c :
  heap σ !! obj = Some ob →
  props ob !! key = Some (Data (VObject m) wr e c) →
  callable (heap σ) m = true →
  ∃ w σ1,
    let d := {| d_value := Some (VObject w); d_writable := Some wr; d_get := None;
                d_set := None; d_enumerable := Some e; d_configurable := Some c |} in
    decorate native n self obj (Some key) σ = Some (Normal (RDescriptor d), σ1)
    ∧ heap σ !! w = None
    ∧ (∀ l, l ≠ w → heap σ1 !! l = heap σ !! l)
    ∧ annotators σ1 = annotators σ
    ∧ if c || wr
      then ∃ σ2,
             define_property obj key d σ1 = Some (Normal tt, σ2)
             ∧ lookup_chain (heap σ2) obj key = Some (Some (Data (VObject w) wr e c))
             ∧ ∀ l, l ≠ obj → heap σ2 !! l = heap σ1 !! l
      else define_property obj key d σ1
           = Some (Throw (TypeError "Cannot define property"), σ1)
           ∧ lookup_chain (heap σ1) obj key = Some (Some (Data (VObject m) wr e c)).
Proof.
  intros Ho Hk Hm.
  pose proof (fresh_lookup_None (heap σ)) as Hw.
  set (w := fresh (dom (heap σ))) in *.
  assert (Hwo : w ≠ obj) by congruence.
  assert (Hwm : w ≠ m).
  { intros E. unfold callable in Hm. by rewrite <-E, Hw in Hm. }
  exists w. eexists. cbv zeta.
  split; [by eapply decorate_method|]. split; [done|].
  split; [by intros l Hl; simpl; rewrite lookup_insert_ne|]. split; [done|].
  erewrite redefine_method; cycle 1.
  - simpl. rewrite lookup_insert_ne by done. exact Ho.
  - exact Hk.
  - unfold callable. simpl. by rewrite lookup_insert_eq.
  - done.
  - destruct (c || wr).
    + eexists. split; [done|]. split.
      * eapply lookup_chain_own; simpl; [by rewrite lookup_insert_eq|].
        simpl. by rewrite lookup_insert_eq.
      * intros l Hl. simpl. by rewrite lookup_insert_ne.
    + split; [done|]. eapply lookup_chain_own; [|exact Hk].
      simpl. by rewrite lookup_insert_ne.
Qed.

(** *** Inherited members *)

Lemma size_two (h : gmap loc object) l p ob pob :
  h !! l = Some ob → h !! p = Some pob → l ≠ p → ∃ n, size h = S (S n).
Proof.
  intros Hl Hp Hne.
  rewrite <-(insert_delete_id h l ob) by done.
  rewrite map_size_insert_None by apply lookup_delete_eq.
  destruct (size_lookup_pos (delete l h) p pob) as [n ->]; [|eauto].
  by rewrite lookup_delete_ne.
Qed.

(** A key that the object lacks and its prototype holds. *)
Lemma lookup_chain_proto_own h l ob p pob k pr :
  h !! l = Some ob → props ob !! k = None → proto ob = Some p →
  h !! p = Some pob → props pob !! k = Some pr →
  lookup_chain h l k = Some (Some pr).
Proof.
  intros Hl Hk Hpr Hp Hpk.
  assert (Hne : l ≠ p).
  { intros ->. rewrite Hl in Hp. injection Hp as ->. congruence. }
  unfold lookup_chain. destruct (size_two h l p ob pob Hl Hp Hne) as [n ->].
  simpl. by rewrite Hl, Hk, Hpr, Hp, Hpk.
Qed.

Lemma assign_via_setter n σ this key g s e c sob self a x :
  lookup_chain (heap σ) this key = Some (Some (Accessor g (VObject s) e c)) →
  heap σ !! s = Some sob →
  code_of sob = Some (AccessorSet self key) →
  annotators σ !! self = Some a →
  accepts_write (heap σ) this ("_" +:+ key) = true →
  accepts_write (heap σ) this "__doc__" = true →
  "_" +:+ key ≠ "__doc__" →
  assign native (S n) (VObject this) key x σ
  = Some (Normal tt,
          set_heap (written this "__doc__" (VString (label a))
                    ∘ written this ("_" +:+ key) x) σ).
Proof.
  intros Hk Hs Hc Ha Hw1 Hw2 Hne. unfold assign, js_set. rewrite Hk.
  unfold bind at 1. simpl. rewrite Hs, Hc. simpl.
  unfold bind at 1. rewrite js_set_accepts by done.
  unfold bind at 1. unfold label_of. simpl. rewrite Ha.
  unfold bind at 1. rewrite js_set_accepts.
  - done.
  - simpl. by rewrite accepts_write_written_ne.
Qed.

Lemma read_via_getter n σ this key g s e c gob :
  lookup_chain (heap σ) this key = Some (Some (Accessor (VObject g) s e c)) →
  heap σ !! g = Some gob →
  code_of gob = Some (AccessorGet key) →
  read native (S n) (VObject this) key σ
  = read native n (VObject this) ("_" +:+ key) σ.
Proof.
  intros Hk Hg Hc. unfold read at 1. unfold js_get.
  rewrite Hk. simpl. by rewrite Hg, Hc.
Qed.

(** X10 (lines 76-86): a method decorated on a prototype and called on
    an object that inherits it.  The wrapper stamps the receiver of the
    call, not the object that was decorated: the instance gets
    [__doc__], the prototype stays as the redefinition left it, and the
    method runs on the instance. *)
Theorem inherited_method_stamps_receiver n σ self a P pob key m wr e c I iob :
  annotators σ !! self = Some a →
  heap σ !! P = Some pob →
  props pob !! key = Some (Data (VObject m) wr e c) →
  callable (heap σ) m = true →
  c || wr = true →
  heap σ !! I = Some iob →
  proto iob = Some P →
  props iob !! key = None →
  ∃ d σ1 σ2,
    decorate native n self P (Some key) σ = Some (Normal (RDescriptor d), σ1)
    ∧ define_property P key d σ1 = Some (Normal tt, σ2)
    ∧ ∀ args fuel,
        accepts_write (heap σ2) I "__doc__" = true →
        let stamped := set_heap (written I "__doc__" (VString (label a))) σ2 in
        invoke native (S fuel) I key args σ2
        = call native fuel m (VObject I) args stamped
        ∧ read native fuel (VObject I) "__doc__" stamped
          = Some (Normal (VString (label a)), stamped)
        ∧ heap stamped !! P = heap σ2 !! P.
Proof.
  intros Ha HP Hk Hm Hcw HI Hpr HIk.
  pose proof (fresh_lookup_None (heap σ)) as Hw.
  set (w := fresh (dom (heap σ))) in *.
  assert (HwP : w ≠ P) by congruence.
  assert (HwI : w ≠ I) by congruence.
  assert (Hwm : w ≠ m).
  { intros E. unfold callable in Hm. by rewrite <-E, Hw in Hm. }
  assert (HIP : I ≠ P).
  { intros ->. rewrite HP in HI. injection HI as ->. congruence. }
  eexists _, _, _. split; [by eapply decorate_method|].
  split.
  { erewrite redefine_method; [by rewrite Hcw| |exact Hk| |done].
    - simpl. by rewrite lookup_insert_ne.
    - unfold callable. simpl. by rewrite lookup_insert_eq. }
  intros args fuel Hacc stamped.
  assert (Hlk : lookup_chain (heap
            (set_heap (<[P := set_props (<[key := Data (VObject w) wr e c]>) pob]>)
               (set_heap (<[w := function_object (DecoratedMethod self m)]>) σ)))
            I key = Some (Some (Data (VObject w) wr e c))).
  { eapply lookup_chain_proto_own; [|exact HIk|exact Hpr| |].
    - simpl. by rewrite !lookup_insert_ne.
    - simpl. by rewrite lookup_insert_eq.
    - simpl. by rewrite lookup_insert_eq. }
  split; [|split].
  - erewrite invoke_data by exact Hlk.
    eapply call_decorated_method;
      [simpl; rewrite lookup_insert_ne by done; by rewrite lookup_insert_eq|done..].
  - apply js_get_written. simpl. rewrite !lookup_insert_ne by done. eauto.
  - subst stamped. simpl. by rewrite written_lookup_ne.
Qed.

(** X11 (lines 88-98): a property decorated on a prototype and assigned
    on an object that inherits it.  The setter stores the value and the
    label on the receiver of the assignment, reading the property on
    that object returns the value, and no other object changes: the
    prototype and the other objects that inherit from it hold no shadow
    field of this assignment. *)
Theorem inherited_accessor_stores_on_receiver n σ self P pob key I iob :
  heap σ !! P = Some pob →
  holds_method (heap σ) P key = false →
  accepts_accessors (heap σ) P key = true →
  heap σ !! I = Some iob →
  proto iob = Some P →
  props iob !! key = None →
  I ≠ P →
  ∃ σ1,
    decorate native n self P (Some key) σ = Some (Normal (RValue VUndefined), σ1)
    ∧ ∀ a x fuel,
        annotators σ1 !! self = Some a →
        accepts_write (heap σ1) I ("_" +:+ key) = true →
        accepts_write (heap σ1) I "__doc__" = true →
        "_" +:+ key ≠ "__doc__" →
        let σ2 := set_heap (written I "__doc__" (VString (label a))
                            ∘ written I ("_" +:+ key) x) σ1 in
        assign native (S fuel) (VObject I) key x σ1 = Some (Normal tt, σ2)
        ∧ read native (S fuel) (VObject I) key σ2 = Some (Normal x, σ2)
        ∧ read native fuel (VObject I) "__doc__" σ2
          = Some (Normal (VString (label a)), σ2)
        ∧ ∀ l, l ≠ I → heap σ2 !! l = heap σ1 !! l.
Proof.
  intros HP Hm Hacc HI Hpr HIk HIP.
  rewrite decorate_not_method by eauto.
  pose proof (define_accessors_result σ self P pob key HP) as Hdef.
  simpl in Hdef. rewrite Hacc in Hdef.
  pose proof (fresh_lookup_None (heap σ)) as Hg.
  set (g := fresh (dom (heap σ))) in *.
  set (h1 := <[g := function_object (AccessorGet key)]> (heap σ)) in *.
  pose proof (fresh_lookup_None h1) as Hs.
  set (s := fresh (dom h1)) in *.
  assert (HgP : g ≠ P) by congruence.
  assert (HgI : g ≠ I) by congruence.
  assert (Hsg : s ≠ g).
  { intros E. subst h1. rewrite E, lookup_insert_eq in Hs. done. }
  assert (HsP : s ≠ P).
  { intros E. subst h1. rewrite E, lookup_insert_ne, HP in Hs; done. }
  assert (HsI : s ≠ I).
  { intros E. subst h1. rewrite E, lookup_insert_ne, HI in Hs; done. }
  eexists. split; [exact Hdef|]. clear Hdef.
  intros a x fuel Ha Hw1 Hw2 Hne σ2. simpl in Hw1, Hw2, Ha.
  set (h3 := <[P := set_props (<[key := Accessor (VObject g) (VObject s) true true]>) pob]>
               (<[s := function_object (AccessorSet self key)]> h1)) in *.
  assert (HI3 : h3 !! I = Some iob).
  { subst h3 h1. by rewrite !lookup_insert_ne. }
  assert (Hlk : lookup_chain h3 I key
                = Some (Some (Accessor (VObject g) (VObject s) true true))).
  { eapply lookup_chain_proto_own; [exact HI3|exact HIk|exact Hpr| |].
    - subst h3. by rewrite lookup_insert_eq.
    - simpl. by rewrite lookup_insert_eq. }
  assert (Hkd : "__doc__" ≠ key).
  { intros <-. unfold accepts_write in Hw2. by rewrite Hlk in Hw2. }
  assert (Hks : "_" +:+ key ≠ key) by apply shadow_key_ne.
  assert (Hs3 : h3 !! s = Some (function_object (AccessorSet self key))).
  { subst h3. rewrite lookup_insert_ne by done. by rewrite lookup_insert_eq. }
  assert (Hg3 : h3 !! g = Some (function_object (AccessorGet key))).
  { subst h3 h1. rewrite !lookup_insert_ne by done. by rewrite lookup_insert_eq. }
  split; [|split; [|split]].
  - eapply assign_via_setter; [exact Hlk|exact Hs3|done..].
  - destruct (written_keeps h3 I ("_" +:+ key) x _ _ Hg3) as (gob1 & Hg1 & Hgc1 & _).
    destruct (written_keeps _ I "__doc__" (VString (label a)) _ _ Hg1)
      as (gob2 & Hg2 & Hgc2 & _).
    erewrite read_via_getter; [| |exact Hg2|by rewrite Hgc2, Hgc1].
    + unfold read, js_get. simpl.
      rewrite lookup_chain_written_ne by done.
      destruct (lookup_chain_written h3 I ("_" +:+ key) x) as (e & c & ->); eauto.
    + simpl. rewrite !lookup_chain_written_ne by done. exact Hlk.
  - unfold read, js_get. simpl.
    destruct (written_keeps h3 I ("_" +:+ key) x _ _ HI3) as (iob1 & HI1 & _).
    destruct (lookup_chain_written (written I ("_" +:+ key) x h3) I "__doc__"
                (VString (label a)))
      as (e & c & ->); eauto.
  - intros l Hl. simpl. by rewrite !written_lookup_ne.
Qed.

(** X12 (lines 88-98): the property form drops what the key held.  The
    accessor pair replaces the property, so a value that was readable
    at the key before [decorate] is gone after it: as long as nothing
    has been assigned and the object has no shadow field, the property
    reads [undefined]. *)
Theorem decorate_property_hides_old_value n m σ self obj ob key :
  heap σ !! obj = Some ob →
  holds_method (heap σ) obj key = false →
  accepts_accessors (heap σ) obj key = true →
  lookup_chain (heap σ) obj ("_" +:+ key) = Some None →
  ∃ σ1,
    decorate native n self obj (Some key) σ = Some (Normal (RValue VUndefined), σ1)
    ∧ read native (S m) (VObject obj) key σ1 = Some (Normal VUndefined, σ1)
    ∧ ∀ v wr e c,
        props ob !! key = Some (Data v wr e c) →
        read native m (VObject obj) key σ = Some (Normal v, σ).
Proof.
  intros Ho Hm Hacc Hshadow.
  rewrite decorate_not_method by eauto.
  pose proof (define_accessors_result σ self obj ob key Ho) as Hdef.
  simpl in Hdef. rewrite Hacc in Hdef.
  pose proof (fresh_lookup_None (heap σ)) as Hg.
  set (g := fresh (dom (heap σ))) in *.
  set (h1 := <[g := function_object (AccessorGet key)]> (heap σ)) in *.
  pose proof (fresh_lookup_None h1) as Hs.
  set (s := fresh (dom h1)) in *.
  assert (Hgo : g ≠ obj) by congruence.
  assert (Hsg : s ≠ g).
  { intros E. subst h1. rewrite E, lookup_insert_eq in Hs. done. }
  assert (Hso : s ≠ obj).
  { intros E. subst h1. rewrite E, lookup_insert_ne, Ho in Hs; done. }
  eexists. split; [exact Hdef|]. clear Hdef. split.
  - erewrite read_through_getter.
    + unfold read, js_get. simpl.
      rewrite lookup_chain_update_ne; [| |apply shadow_key_ne].
      * rewrite (lookup_chain_alloc _ _ _ _ _ None Hs); [done|].
        subst h1. by apply lookup_chain_alloc.
      * subst h1. by rewrite !lookup_insert_ne.
    + simpl. by rewrite lookup_insert_eq.
    + simpl. by rewrite lookup_insert_eq.
    + simpl. rewrite !lookup_insert_ne by done. subst h1. by rewrite lookup_insert_eq.
    + done.
  - intros v wr e c Hk. by eapply read_own_data.
Qed.

(** X13 (lines 72-74, 81-84): where the write of [__doc__] is rejected.
    The wrapper of a method throws a TypeError before the method runs,
    on every receiver that rejects the write and on every receiver that
    is not an object (a method taken off its object and called plainly
    has the receiver [undefined]); [decorate] without key throws on
    such a target; in each case the state is left as it was. *)
Theorem rejected_stamp_throws n σ self a :
  annotators σ !! self = Some a →
  (∀ w wob m this args,
     heap σ !! w = Some wob →
     code_of wob = Some (DecoratedMethod self m) →
     match this with
     | VObject obj => rejects_write (heap σ) obj "__doc__" = true
     | _ => True
     end →
     ∃ msg, call native (S n) w this args σ = Some (Throw (TypeError msg), σ))
  ∧ (∀ target tob,
       heap σ !! target = Some tob →
       code_of tob = None →
       rejects_write (heap σ) target "__doc__" = true →
       ∃ msg, decorate native n self target None σ
              = Some (Throw (TypeError msg), σ)).
Proof.
  intros Ha. split.
  - intros w wob m this args Hw Hc Hthis. simpl. rewrite Hw, Hc. simpl.
    unfold bind, label_of. rewrite Ha.
    destruct this as [| | | | | | |obj]; try (by eexists).
    destruct (js_set_rejects (call native n) σ obj "__doc__" (VString (label a)) Hthis)
      as [msg ->]. by eexists.
  - intros target tob Ht Hc Hr. unfold decorate, bind, get_state.
    unfold callable. rewrite Ht, Hc. simpl. unfold label_of. rewrite Ha.
    unfold assign.
    destruct (js_set_rejects (call native n) σ target "__doc__" (VString (label a)) Hr)
      as [msg ->]. by eexists.
Qed.

(** X14 (lines 92-95): the property form on the key [__doc__] itself.
    The setter ends with [this.__doc__ = label], which is an assignment
    to the property it serves: it enters itself again on every call,
    and no bound on the depth of calls lets an assignment to
    [obj.__doc__] finish. *)
Theorem doc_key_setter_never_returns σ self a obj g s :
  accessors_installed (heap σ) self obj "__doc__" g s →
  annotators σ !! self = Some a →
  accepts_write (heap σ) obj "___doc__" = true →
  ∀ n x, assign native n (VObject obj) "__doc__" x σ = None.
Proof.
  intros Hinst Ha Hacc n. revert σ Hinst Ha Hacc.
  induction n as [|n IH]; intros σ Hinst Ha Hacc x.
  - destruct Hinst as (ob & gob & sob & Ho & Hk & _).
    unfold assign, js_set. by rewrite (lookup_chain_own _ _ _ _ _ Ho Hk).
  - pose proof Hinst as (ob & gob & sob & Ho & Hk & _ & _ & Hs & Hc).
    unfold assign, js_set. rewrite (lookup_chain_own _ _ _ _ _ Ho Hk).
    unfold bind at 1. simpl. rewrite Hs, Hc. simpl.
    unfold bind at 1. rewrite js_set_accepts by done.
    unfold bind at 1. unfold label_of. simpl. rewrite Ha.
    unfold bind at 1.
    change (js_set (call native n) (VObject obj) "__doc__" (VString (label a)))
      with (assign native n (VObject obj) "__doc__" (VString (label a))).
    rewrite IH; [done| |done|].
    + simpl. by apply accessors_installed_written.
    + simpl. by apply accepts_write_written.
Qed.

Lemma rejects_write_written_ne h l k k' x :
  k ≠ k' → rejects_write (written l k' x h) l k = rejects_write h l k.
Proof.
  intros Hne. unfold rejects_write.
  rewrite lookup_chain_written_ne by done.
  destruct (h !! l) as [ob|] eqn:Hl.
  - destruct (written_lookup_own h l ob k' x Hl)
      as (ob' & e & c & Hl' & _ & _ & He & _ & Hk).
    by rewrite Hl', He, (Hk k Hne).
  - unfold written. by rewrite !Hl.
Qed.

(** X15 (lines 92-95): the setter writes the shadow field first and the
    label second, each write on its own.  If the receiver rejects the
    shadow field the assignment throws and nothing is stored; if it
    takes the shadow field but rejects [__doc__] the assignment throws
    as well, yet the value is already stored and the property reads it
    back. *)
Theorem setter_stores_before_rejected_stamp n σ this key g s e c sob gob self a x :
  lookup_chain (heap σ) this key
  = Some (Some (Accessor (VObject g) (VObject s) e c)) →
  heap σ !! s = Some sob →
  code_of sob = Some (AccessorSet self key) →
  heap σ !! g = Some gob →
  code_of gob = Some (AccessorGet key) →
  annotators σ !! self = Some a →
  (rejects_write (heap σ) this ("_" +:+ key) = true →
   ∃ msg, assign native (S n) (VObject this) key x σ
          = Some (Throw (TypeError msg), σ))
  ∧ (accepts_write (heap σ) this ("_" +:+ key) = true →
     rejects_write (heap σ) this "__doc__" = true →
     "_" +:+ key ≠ "__doc__" →
     key ≠ "__doc__" →
     let stored := set_heap (written this ("_" +:+ key) x) σ in
     (∃ msg, assign native (S n) (VObject this) key x σ
             = Some (Throw (TypeError msg), stored))
     ∧ read native (S n) (VObject this) key stored = Some (Normal x, stored)).
Proof.
  intros Hk Hs Hc Hg Hgc Ha. split.
  - intros Hr. unfold assign, js_set. rewrite Hk.
    unfold bind at 1. simpl. rewrite Hs, Hc. simpl.
    unfold bind at 1.
    destruct (js_set_rejects (call native n) σ this ("_" +:+ key) x Hr) as [msg ->].
    by eexists.
  - intros Hacc Hr Hne Hkd stored. split.
    + unfold assign, js_set. rewrite Hk.
      unfold bind at 1. simpl. rewrite Hs, Hc. simpl.
      unfold bind at 1. rewrite js_set_accepts by done.
      unfold bind at 1. unfold label_of. simpl. rewrite Ha.
      unfold bind at 1.
      destruct (js_set_rejects (call native n)
                  (set_heap (written this ("_" +:+ key) x) σ) this "__doc__"
                  (VString (label a))) as [msg ->]; [|by eexists].
      simpl. by rewrite rejects_write_written_ne.
    + assert (Hobj : is_Some (heap σ !! this)).
      { unfold accepts_write in Hacc. destruct (heap σ !! this); [eauto|].
        by destruct (lookup_chain (heap σ) this ("_" +:+ key)) as [[[? []| ]|]|]. }
      destruct (written_keeps (heap σ) this ("_" +:+ key) x _ _ Hg)
        as (gob1 & Hg1 & Hgc1 & _).
      erewrite read_via_getter; [| |exact Hg1|congruence].
      * unfold read, js_get. simpl.
        destruct (lookup_chain_written (heap σ) this ("_" +:+ key) x Hobj)
          as (e' & c' & ->). done.
      * simpl. rewrite lookup_chain_written_ne; [exact Hk|].
        intros E. by apply (shadow_key_ne key).
Qed.

(** X16 (lines 88-98): when the accessor pair cannot be defined - the
    key is absent and the target not extensible, or the key is not
    configurable - [decorate] throws a TypeError from
    [Object.defineProperty] and every object that existed is as it was:
    the target keeps its property, and the two function objects made
    for the pair are referenced by nothing. *)
Theorem failed_accessor_definition_leaves_target n σ self obj key :
  is_Some (heap σ !! obj) →
  holds_method (heap σ) obj key = false →
  accepts_accessors (heap σ) obj key = false →
  ∃ σ1,
    decorate native n self obj (Some key) σ
    = Some (Throw (TypeError "Cannot define property"), σ1)
    ∧ (∀ l, is_Some (heap σ !! l) → heap σ1 !! l = heap σ !! l)
    ∧ (∀ l k, is_Some (heap σ !! l) →
              lookup_chain (heap σ) l k ≠ None →
              lookup_chain (heap σ1) l k = lookup_chain (heap σ) l k)
    ∧ annotators σ1 = annotators σ.
Proof.
  intros [ob Ho] Hm Hacc.
  rewrite decorate_not_method by eauto.
  pose proof (define_accessors_result σ self obj ob key Ho) as Hdef.
  simpl in Hdef. rewrite Hacc in Hdef.
  pose proof (fresh_lookup_None (heap σ)) as Hg.
  set (g := fresh (dom (heap σ))) in *.
  set (h1 := <[g := function_object (AccessorGet key)]> (heap σ)) in *.
  pose proof (fresh_lookup_None h1) as Hs.
  set (s := fresh (dom h1)) in *.
  eexists. split; [exact Hdef|]. clear Hdef. simpl.
  split; [|split; [|done]].
  - intros l [lob Hl].
    assert (g ≠ l) by congruence.
    assert (s ≠ l).
    { intros E. subst h1. rewrite E, lookup_insert_ne, Hl in Hs; done. }
    subst h1. by rewrite !lookup_insert_ne.
  - intros l k _ Hsome.
    destruct (lookup_chain (heap σ) l k) as [r|] eqn:Hr; [|done].
    apply lookup_chain_alloc; [exact Hs|]. subst h1. by apply lookup_chain_alloc.
Qed.

End Extras.

(** * The statements at sample inputs *)

Lemma sample_pristine : pristine sample_heap "__doc__".
Proof. reflexivity. Qed.

(** C1 at [class MyClass {}]: the result is a new object, not the class
    at address 4, which is left as it was. *)
Lemma decorate_class_returns_wrapper_witness :
  ∃ w σ',
    decorate sample_native 0 0 4 None sample_state
    = Some (Normal (RValue (VObject w)), σ')
    ∧ w ≠ 4
    ∧ heap σ' !! 4 = Some (function_object (ClassConstructor 0)).
Proof.
  destruct (decorate_class_returns_wrapper sample_native 0 sample_state 0
              sample_annotator 4 (function_object (ClassConstructor 0)) 0)
    as (w & σ' & H1 & H2 & _ & H3 & _).
  - reflexivity.
  - reflexivity.
  - reflexivity.
  - exact sample_pristine.
  - exists w, σ'. auto.
Defined.

(** C2 at [function add(x, y)]: the wrapper adds as [add] does. *)
Lemma decorate_function_wraps_witness :
  ∃ w σ',
    decorate sample_native 0 0 3 None sample_state
    = Some (Normal (RValue (VObject w)), σ')
    ∧ w ≠ 3
    ∧ read sample_native 0 (VObject w) "__doc__" σ'
      = Some (Normal (VString "Method: prop"), σ')
    ∧ call sample_native 2 w VUndefined [VNumber (Int 1); VNumber (Int 2)] σ'
      = Some (Normal (VNumber (Int 3)), σ').
Proof.
  destruct (decorate_function_wraps sample_native 0 sample_state 0
              sample_annotator 3 (function_object (Native 3)) 3)
    as (w & σ' & H1 & _ & H2 & H3 & _ & H4 & _).
  - reflexivity.
  - reflexivity.
  - reflexivity.
  - exact sample_pristine.
  - exists w, σ'. split; [exact H1|]. split; [exact H2|].
    split; [apply H3|]. rewrite H4. destruct σ'. reflexivity.
Defined.

(** C3 at [{ prop() { return this } }]: after decoration and redefinition
    the call returns the receiver, as the method does, and leaves the
    label in [__doc__]. *)
Lemma decorate_method_stamps_then_delegates_witness :
  ∃ d σ1 σ2,
    decorate sample_native 0 0 5 (Some "prop") sample_state
    = Some (Normal (RDescriptor d), σ1)
    ∧ define_property 5 "prop" d σ1 = Some (Normal tt, σ2)
    ∧ outcome (invoke sample_native 2 5 "prop" [] σ2) = Some (Normal (VObject 5))
    ∧ outcome ((invoke sample_native 2 5 "prop" [] ;;;
                read sample_native 0 (VObject 5) "__doc__") σ2)
      = Some (Normal (VString "Method: prop")).
Proof.
  destruct (decorate_method_stamps_then_delegates sample_native 0 sample_state 0 5
              (set_props (<["prop" := Data (VObject 6) true true true]>) plain_object)
              "prop" 6 true true true)
    as (w & d & σ1 & Hdec & Hv & Hw & Hall); [vm_compute; reflexivity..|].
  exists d, σ1.
  assert (Hdef : ∃ σ2, define_property 5 "prop" d σ1 = Some (Normal tt, σ2)
                       ∧ annotators σ2 !! 0 = Some sample_annotator
                       ∧ accepts_write (heap σ2) 5 "__doc__" = true
                       ∧ outcome (call sample_native 1 6 (VObject 5) []
                                    (set_heap (written 5 "__doc__"
                                       (VString (label sample_annotator))) σ2))
                         = Some (Normal (VObject 5))
                       ∧ outcome ((call sample_native 1 6 (VObject 5) [] ;;;
                                   read sample_native 0 (VObject 5) "__doc__")
                                    (set_heap (written 5 "__doc__"
                                       (VString (label sample_annotator))) σ2))
                         = Some (Normal (VString "Method: prop"))).
  { vm_compute in Hdec. injection Hdec as <- <-.
    eexists. split; [vm_compute; reflexivity|]. repeat split; vm_compute; reflexivity. }
  destruct Hdef as (σ2 & Hdef & Ha2 & Hacc & Hout1 & Hout2). exists σ2.
  split; [exact Hdec|]. split; [exact Hdef|].
  destruct (Hall σ2 Hdef σ2 sample_annotator [] 1 eq_refl eq_refl Ha2 Hacc)
    as [Hinv _].
  split.
  - rewrite Hinv. exact Hout1.
  - unfold bind in *. rewrite Hinv. exact Hout2.
Defined.

(** C3 as stated fails on [Object.preventExtensions({ prop() { return
    this } })]: the descriptor is redefined without complaint, but the
    call throws, where the method itself returns the receiver. *)
Lemma method_call_on_non_extensible_throws :
  outcome (call_on_non_extensible sample_state)
  = Some (Throw (TypeError "Cannot add property, object is not extensible"))
  ∧ outcome (call sample_native 1 6 (VObject 7) [] sample_state)
    = Some (Normal (VObject 7))
  ∧ outcome (call_on_non_extensible sample_state)
    ≠ outcome (call sample_native 1 6 (VObject 7) [] sample_state).
Proof. repeat split; vm_compute; [reflexivity..|discriminate]. Qed.

(** C4 at [{}] and the key ["title"]. *)
Lemma decorate_property_accessors_witness :
  ∃ σ1 σ4,
    decorate sample_native 0 0 8 (Some "title") sample_state
    = Some (Normal (RValue VUndefined), σ1)
    ∧ assign sample_native 1 (VObject 8) "title" (VString "x") σ1
      = Some (Normal tt, σ4)
    ∧ read sample_native 0 (VObject 8) "_title" σ4 = Some (Normal (VString "x"), σ4)
    ∧ read sample_native 0 (VObject 8) "__doc__" σ4
      = Some (Normal (VString "Method: prop"), σ4)
    ∧ read sample_native 1 (VObject 8) "title" σ4 = Some (Normal (VString "x"), σ4).
Proof.
  destruct (decorate_property_accessors sample_native 0 sample_state 0 8
              plain_object "title")
    as (g & s & σ1 & Hdec & Hinst & Hall); [vm_compute; reflexivity..|].
  assert (Hσ1 : annotators σ1 !! 0 = Some sample_annotator
                ∧ accepts_write (heap σ1) 8 ("_" +:+ "title") = true
                ∧ accepts_write (heap σ1) 8 "__doc__" = true).
  { vm_compute in Hdec. injection Hdec as <-. repeat split; vm_compute; reflexivity. }
  destruct Hσ1 as (Ha & Hw1 & Hw2).
  destruct (Hall σ1 sample_annotator (VString "x") 0 Hinst Ha Hw1 Hw2)
    as (H1 & H2 & H3 & H4 & _); [discriminate|].
  eexists σ1, _. split; [exact Hdec|]. split; [exact H1|].
  split; [exact H2|]. split; [exact H3|]. exact H4.
Defined.

(** C4 as stated fails at the key ["_doc__"]: its shadow field is
    [__doc__] itself, so the label overwrites the value assigned and
    the property reads back the label instead of ["x"]. *)
Lemma shadow_field_clash :
  outcome (assign_then_read_doc_key sample_state)
  = Some (Normal (VString "Method: prop"))
  ∧ outcome (assign_then_read_doc_key sample_state) ≠ Some (Normal (VString "x")).
Proof. split; vm_compute; [reflexivity|discriminate]. Qed.


Lemma sample_native_leaves l k : Obj.leaves sample_native l k.
Proof.
  intros id this args h r h' H. unfold sample_native in H.
  repeat (match type of H with
          | match ?x with _ => _ end = _ => destruct x
          end; try by injection H as <- <-).
Qed.

Lemma plain_state_options : Obj.plain_options (heap plain_state) 40.
Proof.
  split; [|split; [|split]].
  - exists (VString "This is my class."). by vm_compute.
  - exists VUndefined. by vm_compute.
  - exists (VObject 41). split; [by vm_compute|].
    exists (set_props (λ _, {["author" := Data (VString "John Doe") true true true]})
              plain_object).
    split; [by vm_compute|].
    intros k q H. simpl in H. apply lookup_singleton_Some in H as [_ <-].
    by eexists _, _, _, _.
  - exists (VObject 8). by vm_compute.
Qed.


(** C6 at the example of the source file: every part of the rendering
    is there. *)
Lemma toString_renders_witness :
  toString 0 example_state
  = Some (Normal ("Class: MyClass (This is my class.)" +:+ nl +:+ nl
                  +:+ "This is a test class." +:+ nl +:+ nl
                  +:+ "@author John Doe" +:+ nl +:+ "@version 1.0.0" +:+ nl +:+ nl
                  +:+ "@type Boolean"),
          example_state).
Proof.
  destruct (toString_renders example_state 0
              {| label := "Class: MyClass"; options := example_options |})
    as (H & _ & _); [vm_compute; reflexivity|].
  rewrite (H "Boolean"); reflexivity.
Defined.

(** C7 as stated fails at the bigint [0n]: it has a constructor, whose
    name is what a bigint other than zero resolves to, yet it resolves
    to ["unknown"], the test of line 115 taking it for absent. *)
Lemma bigint_zero_resolves_unknown :
  label_after (withPreserveTypes 0) (typed_state (VBigInt 0))
  = Some ("Property: p" +:+ nl +:+ nl +:+ "@type unknown")
  ∧ label_after (withPreserveTypes 0) (typed_state (VBigInt 7))
    = Some ("Property: p" +:+ nl +:+ nl +:+ "@type BigInt")
  ∧ label_after (withPreserveTypes 0) (typed_state (VBigInt 0))
    ≠ Some ("Property: p" +:+ nl +:+ nl +:+ "@type BigInt").
Proof. repeat split; vm_compute; [reflexivity..|discriminate]. Qed.

(** C7 at [true], ["abc"], and [{}], whose constructor is [Object]: the
    label after [withPreserveTypes] and the string of [toString]. *)
Lemma type_name_resolves_witness :
  (label_after (withPreserveTypes 0) example_state
   = Some ("Class: MyClass" +:+ nl +:+ nl +:+ "@type Boolean")
   ∧ label_after (withPreserveTypes 0) (typed_state (VString "abc"))
     = Some ("Property: p" +:+ nl +:+ nl +:+ "@type String")
   ∧ label_after (withPreserveTypes 0) (typed_state (VObject 8))
     = Some ("Property: p" +:+ nl +:+ nl +:+ "@type Object"))
  ∧ outcome (toString 0 (typed_state (VBoolean true)))
    = Some (Normal ("Property: p" +:+ nl +:+ nl +:+ nl +:+ nl +:+ "@type Boolean"))
  ∧ outcome (toString 0 (typed_state (VString "abc")))
    = Some (Normal ("Property: p" +:+ nl +:+ nl +:+ nl +:+ nl +:+ "@type String"))
  ∧ outcome (toString 0 (typed_state (VObject 8)))
    = Some (Normal ("Property: p" +:+ nl +:+ nl +:+ nl +:+ nl +:+ "@type Object")).
Proof.
  pose proof (type_name_resolves example_state 0
                {| label := "Class: MyClass"; options := example_options |} eq_refl)
    as [Hb _].
  pose proof (type_name_resolves (typed_state (VBoolean true)) 0
                (typed (VBoolean true)) eq_refl) as [_ Hbt].
  pose proof (type_name_resolves (typed_state (VString "abc")) 0
                (typed (VString "abc")) eq_refl) as [Hs Hst].
  destruct (type_name_resolves (typed_state (VObject 8)) 0 (typed (VObject 8)) eq_refl)
    as (Ho & _ & _).
  destruct (Ho object_constructor true false true "Object" false false true)
    as [Ho1 Ho2]; [vm_compute; reflexivity..|].
  unfold label_after, outcome. rewrite Hb, Hs, Ho1, Hbt, Hst, Ho2.
  repeat split; vm_compute; reflexivity.
Defined.



(** C9 at the example instance. *)
Lemma toString_is_pure_witness :
  ∃ s, toString 0 example_state = Some (Normal s, example_state)
       ∧ (toString 0 ;;; toString 0) example_state = Some (Normal s, example_state)
       ∧ (toString 0 ;;; decorate sample_native 0 0 3 None) example_state
         = decorate sample_native 0 0 3 None example_state.
Proof.
  destruct (toString_is_pure sample_native example_state 0) as [Hp Ht].
  destruct (Ht {| label := "Class: MyClass"; options := example_options |})
    as [s Hs]; [vm_compute; reflexivity|done|].
  destruct (Hp _ _ Hs) as (_ & H2 & H3).
  exists s. split; [exact Hs|]. split; [exact H2|]. apply (H3 0 3 None).
Defined.

(** C10 at the sample state: after [withDescription("later")] the
    wrapper of [add] still carries the old label, and the wrapper of
    [prop] stamps the new one. *)
Lemma snapshot_versus_live_witness :
  (∃ w σ1 σ2,
     decorate sample_native 0 0 3 None sample_state
     = Some (Normal (RValue (VObject w)), σ1)
     ∧ run_trace sample_native 1 [WithDescription 0 "later"] σ1 = Some σ2
     ∧ read sample_native 1 (VObject w) "__doc__" σ2
       = Some (Normal (VString "Method: prop"), σ2))
  ∧ (∃ w d σ1 σ2,
       decorate sample_native 0 0 5 (Some "prop") sample_state
       = Some (Normal (RDescriptor d), σ1)
       ∧ d_value d = Some (VObject w)
       ∧ run_trace sample_native 1 [WithDescription 0 "later"] σ1 = Some σ2
       ∧ call sample_native 2 w (VObject 5) [] σ2
         = call sample_native 1 6 (VObject 5) []
             (set_heap (written 5 "__doc__"
                          (VString ("Method: prop" +:+ nl +:+ nl +:+ "later"))) σ2)).
Proof.
  destruct (snapshot_versus_live sample_native 0 sample_state 0 sample_annotator)
    as (Hf & Hm & _ & _); [vm_compute; reflexivity|].
  split.
  - destruct (Hf 3) as (w & σ1 & Hdec & Hsnap); [vm_compute; reflexivity..|].
    assert (Hrun : ∃ σ2, run_trace sample_native 1 [WithDescription 0 "later"] σ1
                         = Some σ2).
    { vm_compute in Hdec. injection Hdec as _ <-. eexists. vm_compute. reflexivity. }
    destruct Hrun as [σ2 Hrun]. exists w, σ1, σ2.
    split; [exact Hdec|]. split; [exact Hrun|].
    apply (Hsnap [WithDescription 0 "later"]); [|exact Hrun].
    repeat constructor.
  - destruct (Hm 5 (set_props (<["prop" := Data (VObject 6) true true true]>) plain_object)
                "prop" 6 true true true)
      as (w & d & σ1 & Hdec & Hv & Hlive); [vm_compute; reflexivity..|].
    assert (Hrun : ∃ σ2, run_trace sample_native 1 [WithDescription 0 "later"] σ1
                         = Some σ2
                         ∧ annotators σ2 !! 0
                           = Some (appended sample_annotator (nl +:+ nl +:+ "later"))
                         ∧ accepts_write (heap σ2) 5 "__doc__" = true).
    { vm_compute in Hdec. injection Hdec as _ <-. eexists.
      repeat split; vm_compute; reflexivity. }
    destruct Hrun as (σ2 & Hrun & Ha2 & Hacc). exists w, d, σ1, σ2.
    split; [exact Hdec|]. split; [exact Hv|]. split; [exact Hrun|].
    apply (Hlive [WithDescription 0 "later"] σ2
             (appended sample_annotator (nl +:+ nl +:+ "later")) 5 [] 1);
      [repeat constructor|exact Hrun|exact Ha2|exact Hacc].
Defined.

(** * The further properties at sample inputs *)

Lemma extended_pristine : pristine extended_heap "__doc__".
Proof. vm_compute. reflexivity. Qed.

(** X1 at [Annotator.forClass("MyClass")] in the sample state. *)
Lemma factories_create_fresh_instances_witness :
  ∃ self σ',
    forClass "MyClass" None sample_state = Some (Normal self, σ')
    ∧ annotators sample_state !! self = None
    ∧ annotators σ' !! self
      = Some {| label := "Class: MyClass"; options := no_options |}
    ∧ annotators σ' !! 0 = Some sample_annotator.
Proof.
  destruct (factories_create_fresh_instances sample_state "MyClass" None
              (forClass "MyClass" None) ("Class: " +:+ "MyClass"))
    as (self & σ' & H1 & H2 & H3 & H4 & _).
  - apply list_elem_of_here.
  - exists self, σ'. split; [exact H1|]. split; [exact H2|]. split; [exact H3|].
    rewrite H4; [reflexivity|]. intros <-. vm_compute in H2. discriminate H2.
Defined.

(** X2 at a chain of three mutators on the sample instance. *)
Lemma mutator_chain_appends_witness :
  run_trace sample_native 0
    [WithDescription 0 "d"; WithTag 0 "n" "v"; WithPreserveTypes 0] sample_state
  = Some (set_annotators
            (<[0 := appended sample_annotator
                      (nl +:+ nl +:+ "d" +:+ nl +:+ nl +:+ "@n v"
                       +:+ nl +:+ nl +:+ "@type unknown")]>) sample_state).
Proof.
  rewrite (mutator_chain_appends sample_native 0 _ sample_state 0 sample_annotator
             "unknown").
  - reflexivity.
  - reflexivity.
  - reflexivity.
  - repeat constructor.
Defined.

(** X3 at the example instance, whose [preserveTypes] is [true]: the
    type line appears twice. *)
Lemma withPreserveTypes_then_toString_witness :
  outcome ((withPreserveTypes 1 ;;; toString 1) extended_state)
  = Some (Normal ("Class: MyClass" +:+ nl +:+ nl +:+ "@type Boolean"
                  +:+ " (This is my class.)" +:+ nl +:+ nl
                  +:+ "This is a test class." +:+ nl +:+ nl
                  +:+ "@author John Doe" +:+ nl +:+ "@version 1.0.0" +:+ nl +:+ nl
                  +:+ "@type Boolean")).
Proof.
  rewrite (withPreserveTypes_then_toString extended_state 1
             {| label := "Class: MyClass"; options := example_options |} "Boolean").
  - reflexivity.
  - reflexivity.
  - reflexivity.
Defined.

(** X4: the instance with empty options renders as the one without. *)
Lemma empty_options_render_as_absent_witness :
  outcome (toString 0 empty_options_state) = outcome (toString 0 sample_state).
Proof.
  apply (empty_options_render_as_absent empty_options_state sample_state 0 0
           {| label := "Method: prop";
              options := {| message := Some EmptyString;
                            description := Some EmptyString;
                            tags := Some [];
                            preserveTypes := VUndefined |} |}
           sample_annotator); reflexivity.
Defined.

(** X5 at the sample instance, which has no message. *)
Lemma description_option_or_mutator_witness :
  outcome (toString 0
             (set_annotators
                (<[0 := with_description_option sample_annotator (Some "desc")]>)
                sample_state))
  = outcome ((withDescription 0 "desc" ;;; toString 0) sample_state).
Proof.
  destruct (description_option_or_mutator sample_state 0 sample_annotator "desc")
    as (Hw & Heq & _); [reflexivity|reflexivity|discriminate|].
  unfold bind. rewrite Hw. apply Heq. reflexivity.
Defined.

(** X6: the sample state and the same state with the options of the
    example usage decorate [add] alike. *)
Lemma decorate_ignores_options_witness :
  same_result (decorate sample_native 0 0 3 None sample_state)
              (decorate sample_native 0 0 3 None reoptioned_state).
Proof.
  apply (decorate_ignores_options sample_native 0 0 3 None sample_state
           reoptioned_state).
  split; [reflexivity|]. intros s.
  destruct (decide (s = 0)) as [->|Hne]; [reflexivity|].
  simpl. rewrite !lookup_singleton_ne by done. reflexivity.
Defined.

(** X7 at the [{}] at address 8, decorated by the instance at 0 and then
    by the instance at 1. *)
Lemma decorate_object_restamps_witness :
  ∃ σ2,
    (decorate sample_native 0 0 8 None ;;; decorate sample_native 0 1 8 None)
      extended_state
    = Some (Normal (RValue (VObject 8)), σ2)
    ∧ decorate sample_native 0 1 8 None extended_state
      = Some (Normal (RValue (VObject 8)), σ2)
    ∧ read sample_native 0 (VObject 8) "__doc__" σ2
      = Some (Normal (VString "Class: MyClass"), σ2).
Proof.
  destruct (decorate_object_restamps sample_native 0 extended_state 0 1
              sample_annotator
              {| label := "Class: MyClass"; options := example_options |}
              8 plain_object)
    as (σ1 & σ2 & H1 & H2 & H3 & _ & H5 & _); [vm_compute; reflexivity..|].
  exists σ2. split; [|split; [exact H3|exact H5]].
  unfold bind. rewrite H1. exact H2.
Defined.

(** X8 at [add], wrapped by the instance at 0 and again by the one at 1. *)
Lemma decorate_function_twice_witness :
  ∃ w1 w2 σ1 σ2,
    decorate sample_native 0 0 3 None extended_state
    = Some (Normal (RValue (VObject w1)), σ1)
    ∧ decorate sample_native 0 1 w1 None σ1 = Some (Normal (RValue (VObject w2)), σ2)
    ∧ read sample_native 0 (VObject w1) "__doc__" σ2
      = Some (Normal (VString "Method: prop"), σ2)
    ∧ read sample_native 0 (VObject w2) "__doc__" σ2
      = Some (Normal (VString "Class: MyClass"), σ2)
    ∧ call sample_native 3 w2 VUndefined [VNumber (Int 1); VNumber (Int 2)] σ2
      = call sample_native 1 3 VUndefined [VNumber (Int 1); VNumber (Int 2)] σ2.
Proof.
  destruct (decorate_function_twice sample_native 0 extended_state 0 1
              sample_annotator
              {| label := "Class: MyClass"; options := example_options |} 3)
    as (w1 & w2 & σ1 & σ2 & H1 & H2 & _ & _ & _ & H3 & H4 & H5);
    [vm_compute; reflexivity..|exact extended_pristine|].
  exists w1, w2, σ1, σ2. repeat split; auto.
Defined.

(** X9 at the writable and configurable method of the object at 5. *)
Lemma method_descriptor_redefinable_iff_witness :
  ∃ w σ1 σ2,
    decorate sample_native 0 0 5 (Some "prop") sample_state
    = Some (Normal (RDescriptor
                      {| d_value := Some (VObject w); d_writable := Some true;
                         d_get := None; d_set := None; d_enumerable := Some true;
                         d_configurable := Some true |}), σ1)
    ∧ heap σ1 !! 5 = heap sample_state !! 5
    ∧ define_property 5 "prop"
        {| d_value := Some (VObject w); d_writable := Some true;
           d_get := None; d_set := None; d_enumerable := Some true;
           d_configurable := Some true |} σ1
      = Some (Normal tt, σ2).
Proof.
  destruct (method_descriptor_redefinable_iff sample_native 0 sample_state 0 5
              (set_props (<["prop" := Data (VObject 6) true true true]>) plain_object)
              "prop" 6 true true true)
    as (w & σ1 & H1 & Hw & Hf & _ & σ2 & H2 & _); [vm_compute; reflexivity..|].
  exists w, σ1, σ2. split; [exact H1|]. split; [|exact H2].
  apply Hf. intros E. rewrite <-E in Hw. vm_compute in Hw. discriminate Hw.
Defined.

(** X10 at the prototype at 11 and the object at 12 that inherits from it. *)
Lemma inherited_method_stamps_receiver_witness :
  ∃ d σ1 σ2,
    decorate sample_native 0 0 11 (Some "prop") extended_state
    = Some (Normal (RDescriptor d), σ1)
    ∧ define_property 11 "prop" d σ1 = Some (Normal tt, σ2)
    ∧ invoke sample_native 2 12 "prop" [] σ2
      = call sample_native 1 6 (VObject 12) []
          (set_heap (written 12 "__doc__" (VString "Method: prop")) σ2)
    ∧ heap (set_heap (written 12 "__doc__" (VString "Method: prop")) σ2) !! 11
      = heap σ2 !! 11.
Proof.
  destruct (inherited_method_stamps_receiver sample_native 0 extended_state 0
              sample_annotator 11
              (set_props (<["prop" := Data (VObject 6) true false true]>) plain_object)
              "prop" 6 true false true 12 (inheriting 11))
    as (d & σ1 & σ2 & H1 & H2 & H3); [vm_compute; reflexivity..|].
  assert (Hacc : accepts_write (heap σ2) 12 "__doc__" = true).
  { vm_compute in H1. injection H1 as <- <-.
    vm_compute in H2. injection H2 as <-. vm_compute. reflexivity. }
  destruct (H3 [] 1 Hacc) as (H4 & _ & H5).
  exists d, σ1, σ2. repeat split; auto.
Defined.

(** X11 at the [{}] at 8 as prototype and the object at 14 that inherits
    from it, with the key ["title"]. *)
Lemma inherited_accessor_stores_on_receiver_witness :
  ∃ σ1 σ2,
    decorate sample_native 0 0 8 (Some "title") extended_state
    = Some (Normal (RValue VUndefined), σ1)
    ∧ assign sample_native 1 (VObject 14) "title" (VString "x") σ1
      = Some (Normal tt, σ2)
    ∧ read sample_native 1 (VObject 14) "title" σ2 = Some (Normal (VString "x"), σ2)
    ∧ heap σ2 !! 8 = heap σ1 !! 8.
Proof.
  destruct (inherited_accessor_stores_on_receiver sample_native 0 extended_state 0
              8 plain_object "title" 14 (inheriting 8))
    as (σ1 & H1 & H2); [vm_compute; reflexivity..|discriminate|].
  assert (Hσ1 : annotators σ1 !! 0 = Some sample_annotator
                ∧ accepts_write (heap σ1) 14 ("_" +:+ "title") = true
                ∧ accepts_write (heap σ1) 14 "__doc__" = true).
  { vm_compute in H1. injection H1 as <-. repeat split; vm_compute; reflexivity. }
  destruct Hσ1 as (Ha & Hw1 & Hw2).
  destruct (H2 sample_annotator (VString "x") 0 Ha Hw1 Hw2) as (H3 & H4 & _ & H5);
    [discriminate|].
  eexists σ1, _. split; [exact H1|]. split; [exact H3|]. split; [exact H4|].
  apply H5. discriminate.
Defined.

(** X12 at [{ title: "old" }]: the property read ["old"] before and reads
    [undefined] after. *)
Lemma decorate_property_hides_old_value_witness :
  ∃ σ1,
    decorate sample_native 0 0 15 (Some "title") extended_state
    = Some (Normal (RValue VUndefined), σ1)
    ∧ read sample_native 1 (VObject 15) "title" σ1 = Some (Normal VUndefined, σ1)
    ∧ read sample_native 0 (VObject 15) "title" extended_state
      = Some (Normal (VString "old"), extended_state).
Proof.
  destruct (decorate_property_hides_old_value sample_native 0 0 extended_state 0 15
              (set_props (<["title" := Data (VString "old") true true true]>)
                 plain_object) "title")
    as (σ1 & H1 & H2 & H3); [vm_compute; reflexivity..|].
  exists σ1. split; [exact H1|]. split; [exact H2|].
  apply (H3 (VString "old") true true true). reflexivity.
Defined.

(** X13 at the wrapper at 16: called on the non-extensible object at 7
    and called plainly; and [decorate] on the non-extensible [{}] at 9. *)
Lemma rejected_stamp_throws_witness :
  (∃ msg, call sample_native 1 16 (VObject 7) [] extended_state
          = Some (Throw (TypeError msg), extended_state))
  ∧ (∃ msg, call sample_native 1 16 VUndefined [] extended_state
            = Some (Throw (TypeError msg), extended_state))
  ∧ (∃ msg, decorate sample_native 0 0 9 None extended_state
            = Some (Throw (TypeError msg), extended_state)).
Proof.
  destruct (rejected_stamp_throws sample_native 0 extended_state 0 sample_annotator)
    as [Hw Hd]; [vm_compute; reflexivity|].
  split; [|split].
  - apply (Hw 16 (function_object (DecoratedMethod 0 6)) 6 (VObject 7) []);
      vm_compute; reflexivity.
  - apply (Hw 16 (function_object (DecoratedMethod 0 6)) 6 VUndefined []);
      [vm_compute; reflexivity..|exact I].
  - apply (Hd 9 non_extensible_object); vm_compute; reflexivity.
Defined.

(** X14 at the object at 17, whose key [__doc__] carries the pair. *)
Lemma doc_key_setter_never_returns_witness :
  assign sample_native 100 (VObject 17) "__doc__" (VString "x") extended_state = None.
Proof.
  apply (doc_key_setter_never_returns sample_native extended_state 0 sample_annotator
           17 18 19).
  - eexists _, _, _. repeat split; vm_compute; reflexivity.
  - vm_compute. reflexivity.
  - vm_compute. reflexivity.
Defined.

(** X15 at the non-extensible object at 20, which has the shadow field
    but cannot take [__doc__]. *)
Lemma setter_stores_before_rejected_stamp_witness :
  (∃ msg, assign sample_native 1 (VObject 20) "title" (VString "x") extended_state
          = Some (Throw (TypeError msg),
                  set_heap (written 20 "_title" (VString "x")) extended_state))
  ∧ read sample_native 1 (VObject 20) "title"
      (set_heap (written 20 "_title" (VString "x")) extended_state)
    = Some (Normal (VString "x"),
            set_heap (written 20 "_title" (VString "x")) extended_state).
Proof.
  destruct (setter_stores_before_rejected_stamp sample_native 0 extended_state 20
              "title" 21 22 true true (function_object (AccessorSet 0 "title"))
              (function_object (AccessorGet "title")) 0 sample_annotator (VString "x"))
    as [_ H]; [vm_compute; reflexivity..|].
  apply H; [vm_compute; reflexivity..|discriminate|discriminate].
Defined.

(** X16 at the non-extensible [{}] at 9 and the key ["p"]. *)
Lemma failed_accessor_definition_leaves_target_witness :
  ∃ σ1,
    decorate sample_native 0 0 9 (Some "p") sample_state
    = Some (Throw (TypeError "Cannot define property"), σ1)
    ∧ heap σ1 !! 9 = Some non_extensible_object.
Proof.
  destruct (failed_accessor_definition_leaves_target sample_native 0 sample_state 0
              9 "p")
    as (σ1 & H1 & H2 & _); [by eexists|vm_compute; reflexivity..|].
  exists σ1. split; [exact H1|]. rewrite H2; [reflexivity|by eexists].
Defined.
